(** * HetGPPO resilience evaluation: noise injection, rollouts, statistics

    A shallow embedding of [src/utils.py] (class [InjectMode], the noise
    injectors of [EvaluationUtils], [rollout_episodes], the names of models
    and injections, the callbacks of an evaluation, the restoring of a
    checkpoint) and of [src/evaluate/evaluate_resiliance.py]
    ([adjacent_values], the noise sweep [evaluate_increasing_noise],
    [evaluate_resilience]).

    Modelling choices.
    - Array elements, rewards and noise magnitudes are exact rationals
      ([Qc], canonical fractions, so that equality is Leibniz equality);
      rounding of machine floats is outside the model.
    - NumPy arrays are mutable objects: a tuple of observations or actions
      is a list of references into a heap of arrays.  The augmented
      assignment [+=] on an array writes through the reference, [np.clip]
      allocates a fresh array.
    - The global NumPy random generator is a stream of unit samples and a
      read position; [np.random.uniform low high] is
      [low + (high - low) * u] for the next sample [u].
    - Exceptions are values: a computation returns [Ret a] or [Raise e]
      together with the store it leaves behind.
    - The trainer, the environment and the restoring of checkpoints are
      collaborators: arbitrary operations on the store and on a state of
      their own.
    - [while not done] is bounded by a number of passes ([fuel]); a run
      that returns under some bound returns the same under every larger
      one ([rollout_episodes_fuel]).
    - A rollout keeps a ghost trace of what it did (resets, injections,
      log entries, queries, steps, accumulated rewards, renders), so that
      order and counts can be stated.
    - The plots are left out, and of the [print]s all but what they
      evaluate that can raise. *)

From Stdlib Require Import QArith Qcanon Qround Ascii.
From stdpp Require Import gmap list numbers sorting strings.

Local Open Scope Qc_scope.

(** ** Numbers *)

(** [np.maximum], [np.minimum] and [np.clip] on one element.  NumPy defines
    [clip x lo hi] as [minimum (maximum x lo) hi]. *)
Definition maximum (x y : Qc) : Qc := if decide (x ≤ y) then y else x.
Definition minimum (x y : Qc) : Qc := if decide (x ≤ y) then x else y.
Definition clip (x a_min a_max : Qc) : Qc := minimum (maximum x a_min) a_max.

(** ** [InjectMode] *)

Inductive InjectMode := ACTION_NOISE | OBS_NOISE.

(** Python's [is] on enum members. *)
Definition is_ (a b : InjectMode) : bool :=
  match a, b with
  | ACTION_NOISE, ACTION_NOISE | OBS_NOISE, OBS_NOISE => true
  | _, _ => false
  end.

Definition is_noise (self : InjectMode) : bool :=
  if is_ self OBS_NOISE || is_ self ACTION_NOISE then true else false.

Definition is_obs (self : InjectMode) : bool :=
  if is_ self OBS_NOISE then true else false.

Definition is_action (self : InjectMode) : bool :=
  if is_ self ACTION_NOISE then true else false.

(** ** Exceptions and the store *)

Inductive exn :=
  | AssertionError            (* a failed [assert] *)
  | IndexError                (* subscript out of range *)
  | TypeError                 (* a call that does not bind a required parameter *)
  | ValueError                (* reduction of an empty array *)
  | KeyError (key : string)   (* [d[key]] on a dictionary without [key] *)
  | AttributeError            (* a method the object does not have *)
  | NoObject                  (* a reference to no object: never in Python *)
  | OutOfFuel                 (* the model's bound on a loop: never in Python *)
  | Collaborator (code : nat) (* raised by the trainer or the environment *).

Inductive result (A : Type) :=
  | Ret (a : A)
  | Raise (e : exn).
Arguments Ret {A} a.
Arguments Raise {A} e.

(** A computation over a store of type [S]. *)
Definition M (S A : Type) : Type := S → result A * S.

Definition ret {S A} (a : A) : M S A := λ σ, (Ret a, σ).
Definition raise {S A} (e : exn) : M S A := λ σ, (Raise e, σ).
Definition bind {S A B} (c : M S A) (k : A → M S B) : M S B :=
  λ σ, match c σ with
       | (Ret a, σ') => k a σ'
       | (Raise e, σ') => (Raise e, σ')
       end.

Notation "'let*' x ':=' c 'in' k" := (bind c (λ x, k))
  (at level 10, x pattern, c at level 100, k at level 200).

(** [assert b] *)
Definition assert {S} (b : bool) : M S unit :=
  if b then ret () else raise AssertionError.

Abbreviation loc := nat (only parsing).
Abbreviation ndarray := (list Qc) (only parsing).

Record state := State {
  heap : gmap loc ndarray;      (* the arrays, by reference *)
  rng_stream : nat → Qc;        (* unit samples of the global generator *)
  rng_pos : nat                 (* samples consumed so far *)
}.

Definition set_heap (h : gmap loc ndarray) (σ : state) : state :=
  State h (rng_stream σ) (rng_pos σ).

(** Reading the array behind a reference (its [.shape], its elements). *)
Definition load (l : loc) : M state ndarray :=
  λ σ, match heap σ !! l with
       | Some a => (Ret a, σ)
       | None => (Raise NoObject, σ)
       end.

(** Writing through a reference: the object keeps its identity. *)
Definition store (l : loc) (a : ndarray) : M state unit :=
  λ σ, (Ret (), set_heap (<[l := a]> (heap σ)) σ).

(** A new array object. *)
Definition alloc (a : ndarray) : M state loc :=
  λ σ, let l := fresh (dom (heap σ)) in
       (Ret l, set_heap (<[l := a]> (heap σ)) σ).

(** The next [size] samples of the generator, scaled to [low, high). *)
Definition draw (low high : Qc) (size : nat) (σ : state) : ndarray :=
  map (λ j, low + (high - low) * rng_stream σ (rng_pos σ + j)%nat) (seq 0 size).

(** [np.random.uniform(low, high, size=n)] *)
Definition uniform (low high : Qc) (size : nat) : M state ndarray :=
  λ σ, (Ret (draw low high size σ),
        State (heap σ) (rng_stream σ) (rng_pos σ + size)).

(** [ndarray.__iadd__] on arrays of floats: elementwise sum written into
    the left operand.  The elements are exact numbers here: the rounding of
    a sum to the type of the array is not modelled. *)
Definition iadd (l : loc) (b : ndarray) : M state unit :=
  let* a := load l in store l (zip_with Qcplus a b).

(** [np.clip(a, a_min, a_max)] returns a new array. *)
Definition np_clip (l : loc) (a_min a_max : Qc) : M state loc :=
  let* a := load l in alloc (map (λ x, clip x a_min a_max) a).

(** ** Python subscripts *)

(** The position a subscript [i] denotes in a sequence of length [n]:
    negative subscripts count from the end. *)
Definition py_index (n : nat) (i : Z) : option nat :=
  if decide (0 ≤ i < Z.of_nat n)%Z then Some (Z.to_nat i)
  else if decide (- Z.of_nat n ≤ i < 0)%Z then Some (Z.to_nat (Z.of_nat n + i))
  else None.

(** [xs[i]] *)
Definition getitem {S A} (xs : list A) (i : Z) : M S A :=
  match py_index (length xs) i ≫= λ p, xs !! p with
  | Some x => ret x
  | None => raise IndexError
  end.

(** [xs[i] = x] on a list *)
Definition setitem {S A} (xs : list A) (i : Z) (x : A) : M S (list A) :=
  match py_index (length xs) i with
  | Some p => ret (<[p := x]> xs)
  | None => raise IndexError
  end.

(** ** The environment as the injector reads it *)

Record Agent := { u_range : Qc }.
Record VectorEnv := { agents : list Agent }.

(** ** The injectors *)

(** [xs[i] += noise] for a list [xs] of arrays: read the reference, add in
    place, store the same reference back. *)
Definition iadd_item (xs : list loc) (i : Z) (noise : ndarray)
  : M state (list loc) :=
  let* x := getitem xs i in
  let* _ := iadd x noise in
  setitem xs i x.

Fixpoint inject_noise_in_action_for (agent_actions_new : list loc)
    (agent_indices : list Z) (noise_delta : Qc) (env : VectorEnv)
  : M state (list loc) :=
  match agent_indices with
  | [] => ret agent_actions_new
  | agent_index :: rest =>
      let* x := getitem agent_actions_new agent_index in
      let* shape := load x in
      let* noise := uniform (- noise_delta) noise_delta (length shape) in
      let* agent_actions_new := iadd_item agent_actions_new agent_index noise in
      let* y := getitem agent_actions_new agent_index in
      let* lo := getitem (agents env) agent_index in
      let* hi := getitem (agents env) agent_index in
      let* z := np_clip y (- u_range lo) (u_range hi) in
      let* agent_actions_new := setitem agent_actions_new agent_index z in
      inject_noise_in_action_for agent_actions_new rest noise_delta env
  end.

Definition inject_noise_in_action (agent_actions : list loc)
    (agent_indices : list Z) (noise_delta : Qc) (env : VectorEnv)
  : M state (list loc) :=
  let* _ := assert (bool_decide (length agent_indices ≤ length agent_actions)%nat) in
  let agent_actions_new := agent_actions in
  inject_noise_in_action_for agent_actions_new agent_indices noise_delta env.

Fixpoint inject_noise_in_observation_for (observations_new : list loc)
    (agent_indices : list Z) (noise_delta : Qc) : M state (list loc) :=
  match agent_indices with
  | [] => ret observations_new
  | agent_index :: rest =>
      let* x := getitem observations_new agent_index in
      let* shape := load x in
      let* noise := uniform (- noise_delta) noise_delta (length shape) in
      let* observations_new := iadd_item observations_new agent_index noise in
      inject_noise_in_observation_for observations_new rest noise_delta
  end.

Definition inject_noise_in_observation (observations : list loc)
    (agent_indices : list Z) (noise_delta : Qc) : M state (list loc) :=
  let* _ := assert (bool_decide (length agent_indices ≤ length observations)%nat) in
  let observations_new := observations in
  inject_noise_in_observation_for observations_new agent_indices noise_delta.

Definition get_inject_function (inject_mode : InjectMode) (noise_delta : Qc)
    (agents_to_inject : list Z) (env : VectorEnv) : list loc → M state (list loc) :=
  λ x,
    if is_ inject_mode ACTION_NOISE then
      inject_noise_in_action x agents_to_inject noise_delta env
    else if is_ inject_mode OBS_NOISE then
      inject_noise_in_observation x agents_to_inject noise_delta
    else raise AssertionError.

(** The contents of a tuple: the arrays its references denote. *)
Definition contents (σ : state) (t : list loc) : list (option ndarray) :=
  (λ l, heap σ !! l) <$> t.

(** The positions of a tuple of length [n] that a target set addresses. *)
Definition targeted (n : nat) (agent_indices : list Z) (p : nat) : Prop :=
  ∃ i, i ∈ agent_indices ∧ py_index n i = Some p.

(** The store and environment of the examples: two arrays at references 0
    and 1, every unit sample 3/4 (so that a draw from [-1, 1) is 1/2), and
    two agents with control range 1. *)
Definition q (n : Z) (d : positive) : Qc := Q2Qc (n # d).
Definition demo_state (a0 a1 : ndarray) : state :=
  State (<[1%nat := a1]> (<[0%nat := a0]> ∅)) (λ _, q 3 4) 0.
Definition demo_env : VectorEnv :=
  {| agents := [ {| u_range := 1 |}; {| u_range := 1 |} ] |}.


(** * Names and configurations *)

(** ** Functions on dictionaries and strings *)

(** What a function that touches no store does: it returns or raises. *)
Inductive outcome (A : Type) :=
  | Returns (a : A)
  | Raises (e : exn).
Arguments Returns {A} a.
Arguments Raises {A} e.

(** Such functions in sequence over a store of type [S]: the callbacks on
    an episode, the restoring of a checkpoint. *)
Definition P (S A : Type) : Type := S → outcome A * S.

Definition returns {S A} (a : A) : P S A := λ σ, (Returns a, σ).
Definition raises {S A} (e : exn) : P S A := λ σ, (Raises e, σ).
Definition pbind {S A B} (c : P S A) (k : A → P S B) : P S B :=
  λ σ, match c σ with
       | (Returns a, σ') => k a σ'
       | (Raises e, σ') => (Raises e, σ')
       end.

Notation "'let+' x ':=' c 'in' k" := (pbind c (λ x, k))
  (at level 10, x pattern, c at level 100, k at level 200).

(** [try: c except KeyError: handler] *)
Definition try_except_KeyError {S A} (c handler : P S A) : P S A :=
  λ σ, match c σ with
       | (Raises (KeyError _), σ') => handler σ'
       | r => r
       end.

(** [for x in xs: body] *)
Fixpoint for_each {S A} (xs : list A) (body : A → P S unit) : P S unit :=
  match xs with
  | [] => returns ()
  | x :: xs => let+ _ := body x in for_each xs body
  end.

(** ** Python values *)

(** The values a configuration is made of: [None], booleans, integers,
    floats, strings, members of an enumeration (by name), lists, and
    dictionaries with string keys. *)
#[local] Unset Elimination Schemes.
Inductive pyval :=
  | PyNone
  | PyBool (b : bool)
  | PyInt (n : Z)
  | PyFloat (x : Qc)
  | PyStr (s : string)
  | PyEnum (name : string)
  | PyList (l : list pyval)
  | PyDict (d : gmap string pyval).
#[local] Set Elimination Schemes.

(** [d[key]] for a string [key]: only a dictionary has string
    subscripts. *)
Definition subscript (d : pyval) (key : string) : outcome pyval :=
  match d with
  | PyDict d =>
      match d !! key with
      | Some v => Returns v
      | None => Raises (KeyError key)
      end
  | _ => Raises TypeError
  end.

(** The truth value of an object, as [if] tests it. *)
Definition truthy (v : pyval) : bool :=
  match v with
  | PyNone => false
  | PyBool b => b
  | PyInt n => bool_decide (n ≠ 0%Z)
  | PyFloat x => bool_decide (x ≠ 0)
  | PyStr s => bool_decide (s ≠ "")
  | PyEnum _ => true
  | PyList l => bool_decide (l ≠ [])
  | PyDict d => bool_decide (d ≠ ∅)
  end.

(** ** Strings *)

(** A Python string is a sequence of code points; the model has those
    below 256.  [str.lower] on these maps the capital letters [A] to [Z]
    and the accented capitals of Latin-1 to their small letters, 32 code
    points further. *)
Definition lower_char (c : ascii) : ascii :=
  let n := nat_of_ascii c in
  if bool_decide (65 ≤ n ≤ 90 ∨ 192 ≤ n ≤ 214 ∨ 216 ≤ n ≤ 222)%nat
  then ascii_of_nat (n + 32) else c.

Fixpoint map_string (f : ascii → ascii) (s : string) : string :=
  match s with
  | EmptyString => EmptyString
  | String c s => String (f c) (map_string f s)
  end.

(** [s.lower()] *)
Definition lower (s : string) : string := map_string lower_char s.

(** [s.replace(old, new)] for one-character [old] and [new]. *)
Definition replace (old new : ascii) (s : string) : string :=
  map_string (λ c, if decide (c = old) then new else c) s.

(** [v.lower()]: only a string has the method. *)
Definition lower_method (v : pyval) : outcome string :=
  match v with
  | PyStr s => Returns (lower s)
  | _ => Raises AttributeError
  end.

(** ** [get_model_name] and [get_inject_name] *)

#[global] Instance outcome_ret : MRet outcome := @Returns.
#[global] Instance outcome_bind : MBind outcome := λ A B f o,
  match o with
  | Returns a => f a
  | Raises e => Raises e
  end.

Definition get_model_name (config : pyval)
  : outcome (string * string * pyval * string) :=
  model ← subscript config "model";
  custom_model_config ← subscript model "custom_model_config";
  is_hetero ← subscript custom_model_config "heterogeneous";
  model ← subscript config "model";
  custom_model_config ← subscript model "custom_model_config";
  is_gippo ← subscript custom_model_config "share_observations";
  env_config ← subscript config "env_config";
  scenario_name ← subscript env_config "scenario_name";
  scenario_config ← subscript env_config "scenario_config";
  let model_title :=
    (if truthy is_hetero then "Het" else "")
    +:+ (if truthy is_gippo then "GIPPO" else "IPPO") in
  let model_name := replace " " "_" (lower model_title) in
  let env_title := scenario_name in
  env_name ← lower_method scenario_name;
  let env_name := replace " " "_" env_name in
  mret (model_title, model_name, env_title, env_name).

(** [inject_mode.name] *)
Definition name (m : InjectMode) : string :=
  match m with
  | ACTION_NOISE => "ACTION_NOISE"
  | OBS_NOISE => "OBS_NOISE"
  end.

Section formats.
(** How Python writes a set of agent indices and a float in a formatted
    string. *)
Context (format_set : list Z → string) (format_float : Qc → string).

Definition get_inject_name (agents_to_inject : option (list Z))
    (inject_mode : InjectMode) (noise_delta : Qc) : string * string :=
  match agents_to_inject with
  | Some agents =>
      if bool_decide (0 < length agents)%nat then
        let noise_title :=
          ("Agents injected: " +:+ format_set agents +:+ ", Inject mode: "
           +:+ name inject_mode)
          +:+ (if is_noise inject_mode
               then " ($\pm" +:+ format_float noise_delta +:+ "$ uniform noise)"
               else "") in
        let noise_name :=
          ("agents_injected_" +:+ format_set agents +:+ "_inject_mode_"
           +:+ name inject_mode)
          +:+ (if is_noise inject_mode
               then "_" +:+ format_float noise_delta +:+ "_delta_noise"
               else "") in
        (noise_title, noise_name)
      else ("", "")
  | None => ("", "")
  end.

End formats.

(** The configuration of the examples: a heterogeneous model that shares
    observations, on the scenario [Het Test] with 32 environments. *)
Definition demo_scenario_config : gmap string pyval :=
  {[ "n_agents" := PyInt 2 ]}.

Definition demo_env_config : gmap string pyval :=
  {[ "scenario" := PyStr "het_test";
     "scenario_name" := PyStr "Het Test";
     "num_envs" := PyInt 32;
     "device" := PyStr "cpu";
     "continuous_actions" := PyBool true;
     "max_steps" := PyInt 200;
     "scenario_config" := PyDict demo_scenario_config ]}.

Definition demo_config : pyval :=
  PyDict {[
    "env" := PyStr "het_test";
    "seed" := PyInt 0;
    "num_workers" := PyInt 5;
    "model" := PyDict {[
      "custom_model_config" := PyDict {[
        "heterogeneous" := PyBool true;
        "share_observations" := PyBool true ]} ]};
    "env_config" := PyDict demo_env_config ]}.

(** * Rollouts *)

(** ** The episode loop of [rollout_episodes] *)

(** What one rollout does that an observer of the run could tell apart,
    in the order it happens.  The trace is a ghost of the model. *)
Inductive event :=
  | Reset                               (* env.vector_reset() *)
  | InjectObs (obs obs' : list loc)     (* observation = inject_function(observation) *)
  | LogObs (obs : list loc)             (* observations_this_episode.append(observation) *)
  | Query (obs act : list loc)          (* the trainer or the callback chose act on obs *)
  | InjectAct (act act' : list loc)     (* action = inject_function(action) *)
  | LogAct (act : list loc)             (* actions_this_episode.append(action) *)
  | Step (act : list loc)               (* env.vector_step([action]) *)
  | Accumulate (reward : Qc)            (* reward_sum += reward *)
  | Render.                             (* env.try_render_at(mode="rgb_array") *)

#[global] Instance event_eq_dec : EqDecision event.
Proof. solve_decision. Defined.

(** Environment steps and total reward of a stretch of the trace. *)
Fixpoint steps (tr : list event) : nat :=
  match tr with
  | [] => 0
  | Step _ :: tr => S (steps tr)
  | _ :: tr => steps tr
  end.

Fixpoint total_reward_from (acc : Qc) (tr : list event) : Qc :=
  match tr with
  | [] => acc
  | Accumulate reward :: tr => total_reward_from (acc + reward) tr
  | _ :: tr => total_reward_from acc tr
  end.

Definition total_reward (tr : list event) : Qc := total_reward_from 0 tr.

(** [x is None] *)
Definition is_None {A} (x : option A) : bool :=
  match x with None => true | Some _ => false end.

Section rollout.
(** The trainer and the environment are collaborators: [E] is whatever
    state they keep, [Frame] a rendered frame, [Info] the auxiliary info
    of a step.  Their operations may read and write the arrays and the
    generator, and may raise. *)
Context {E Frame Info : Type}.

Record Trainer := {
  config : pyval;               (* trainer.config *)
  compute_single_action : list loc → M (state * E) (list loc);
  max_steps : nat               (* trainer.config["env_config"]["max_steps"] *)
}.

Record Env := {
  env : VectorEnv;              (* env.env, as the injector reads it *)
  vector_reset : M (state * E) (list (list loc));
  vector_step : list (list loc) →
                M (state * E) (list (list loc) * list Qc * list bool * list Info);
  try_render_at : M (state * E) Frame
}.

Record world := World {
  py : state;                   (* arrays and generator *)
  ext : E;                      (* the collaborators' own state *)
  trace : list event            (* ghost: what has happened so far *)
}.

Definition lift_py {A} (c : M state A) : M world A :=
  λ w, let '(r, σ) := c (py w) in (r, World σ (ext w) (trace w)).

Definition lift_ext {A} (c : M (state * E) A) : M world A :=
  λ w, let '(r, (σ, e)) := c (py w, ext w) in (r, World σ e (trace w)).

Definition emit (ev : event) : M world unit :=
  λ w, (Ret (), World (py w) (ext w) (trace w ++ [ev])).

(** The local variables of one episode. *)
Record locals := Locals {
  i : nat;
  done : bool;
  observation : list loc;
  reward_sum : Qc;
  observations_this_episode : list (list loc);
  actions_this_episode : list (list loc);
  frame_list : list Frame
}.

Section episodes.
Context (render get_obs get_actions : bool)
        (trainer : option Trainer)
        (action_callback : option (list loc → M (state * E) (list loc)))
        (the_env : Env)
        (inject : bool) (inject_mode : InjectMode)
        (agents_to_inject : list Z) (noise_delta : Qc).

Definition inject_function : list loc → M state (list loc) :=
  get_inject_function inject_mode noise_delta agents_to_inject (env the_env).

(** [trainer.compute_single_action(observation)] if there is a trainer,
    else [action_callback(observation)]. *)
Definition choose_action (observation : list loc) : M world (list loc) :=
  match trainer with
  | Some tr => lift_ext (compute_single_action tr observation)
  | None =>
      match action_callback with
      | Some callback => lift_ext (callback observation)
      | None => raise TypeError    (* None is not callable *)
      end
  end.

(** The body of [while not done]. *)
Definition while_body (s : locals) : M world locals :=
  let i := S (i s) in
  let* observation :=
    if inject && is_obs inject_mode then
      let* o := lift_py (inject_function (observation s)) in
      let* _ := emit (InjectObs (observation s) o) in
      ret o
    else ret (observation s) in
  let* observations_this_episode :=
    if get_obs then
      let* _ := emit (LogObs observation) in
      ret (observations_this_episode s ++ [observation])
    else ret (observations_this_episode s) in
  let* action := choose_action observation in
  let* _ := emit (Query observation action) in
  let* action :=
    if inject && is_action inject_mode then
      let* a := lift_py (inject_function action) in
      let* _ := emit (InjectAct action a) in
      ret a
    else ret action in
  let* actions_this_episode :=
    if get_actions then
      let* _ := emit (LogAct action) in
      ret (actions_this_episode s ++ [action])
    else ret (actions_this_episode s) in
  let* (obss, rews, ds, infos) := lift_ext (vector_step the_env [action]) in
  let* _ := emit (Step action) in
  let* observation := getitem obss 0 in
  let* reward := getitem rews 0 in
  let* done := getitem ds 0 in
  let* info := getitem infos 0 in
  let reward_sum := reward_sum s + reward in
  let* _ := emit (Accumulate reward) in
  let* frame_list :=
    if render then
      let* frame := lift_ext (try_render_at the_env) in
      let* _ := emit Render in
      ret (frame_list s ++ [frame])
    else ret (frame_list s) in
  ret (Locals i done observation reward_sum observations_this_episode
         actions_this_episode frame_list).

(** [while not done], for at most [fuel] passes. *)
Fixpoint while_not_done (fuel : nat) (s : locals) : M world locals :=
  if done s then ret s
  else match fuel with
       | O => raise OutOfFuel
       | S fuel => let* s := while_body s in while_not_done fuel s
       end.

(** What [rollout_episodes] accumulates over the episodes.  [best_reward]
    is [None] for [float("-inf")]. *)
Record totals := Totals {
  best_reward : option Qc;
  best_gif : option (list Frame);
  rewards : list Qc;
  observations : list (list (list loc));
  actions : list (list (list loc))
}.

(** The body of [for j in range(n_episodes)]. *)
Definition episode (fuel : nat) (acc : totals) : M world totals :=
  let* obss := lift_ext (vector_reset the_env) in
  let* _ := emit Reset in
  let* observation := getitem obss 0 in
  let* frame_list0 :=
    if render then
      let* frame := lift_ext (try_render_at the_env) in
      let* _ := emit Render in
      ret [frame]
    else ret [] in
  let* s := while_not_done fuel (Locals 0 false observation 0 [] [] frame_list0) in
  let better :=
    match best_reward acc with
    | None => true
    | Some best => bool_decide (best < reward_sum s)
    end in
  ret (Totals (if better then Some (reward_sum s) else best_reward acc)
              (if better then Some (frame_list s) else best_gif acc)
              (rewards acc ++ [reward_sum s])
              (if get_obs then observations acc ++ [observations_this_episode s]
               else observations acc)
              (if get_actions then actions acc ++ [actions_this_episode s]
               else actions acc)).

Fixpoint for_episodes (n_episodes fuel : nat) (acc : totals) : M world totals :=
  match n_episodes with
  | O => ret acc
  | S n => let* acc := episode fuel acc in for_episodes n fuel acc
  end.

End episodes.

(** What a function that touches no store does, within a computation. *)
Definition run_outcome {S A} (o : outcome A) : M S A :=
  match o with
  | Returns a => ret a
  | Raises e => raise e
  end.

(** [rollout_episodes], each episode loop bounded by [fuel] passes.  Of the
    [print]s, the first evaluates [get_model_name(trainer.config)] twice
    and the last takes [np.max] of the rewards: both can raise.  The others
    format a set, the name of a mode and numbers. *)
Definition rollout_episodes (n_episodes : nat) (render get_obs get_actions : bool)
    (trainer : option Trainer)
    (action_callback : option (list loc → M (state * E) (list loc)))
    (the_env : Env) (inject : bool) (inject_mode : InjectMode)
    (agents_to_inject : list Z) (noise_delta : Qc) (fuel : nat)
  : M world (list Qc * option (list Frame) * option (list (list (list loc)))
             * option (list (list (list loc)))) :=
  let* _ := assert (xorb (is_None trainer) (is_None action_callback)) in
  let* _ :=
    match trainer with
    | Some tr =>
        let* _ := run_outcome (get_model_name (config tr)) in
        let* _ := run_outcome (get_model_name (config tr)) in
        ret ()
    | None => ret ()
    end in
  let* acc := for_episodes render get_obs get_actions trainer action_callback
                the_env inject inject_mode agents_to_inject noise_delta
                n_episodes fuel (Totals None None [] [] []) in
  let* _ := if bool_decide (rewards acc = []) then raise ValueError else ret () in
  ret (rewards acc,
       if render then best_gif acc else None,
       if get_obs then Some (observations acc) else None,
       if get_actions then Some (actions acc) else None).

End rollout.

(** ** A toy run: two agents, episodes of three steps *)

(** The collaborators' state is the number of steps of the current
    episode; every observation is the tuple of the two arrays of
    [demo_state], every reward is 1, and the episode is done at step 3. *)
Definition toy_env : @Env nat unit unit := {|
  env := demo_env;
  vector_reset := λ '(σ, _), (Ret [[0; 1]%nat], (σ, 0%nat));
  vector_step := λ _ '(σ, n),
    (Ret ([[0; 1]%nat], [1], [bool_decide (3 ≤ S n)%nat], [()]), (σ, S n));
  try_render_at := ret ()
|}.

(** A trainer that answers every observation with that same tuple. *)
Definition toy_trainer : @Trainer nat := {|
  config := demo_config;
  compute_single_action := λ obs, ret obs;
  max_steps := 3
|}.

Definition toy_world : @world nat := World (demo_state [1] [1]) 0%nat [].

(** The toy environment with a record of its frames: the collaborators'
    state is the number of steps of the current episode and the frames
    rendered so far, and the frame rendered is the number of frames
    rendered before it. *)
Definition recording_env : @Env (nat * list nat) nat unit := {|
  env := demo_env;
  vector_reset := λ '(σ, (_, frames)), (Ret [[0; 1]%nat], (σ, (0%nat, frames)));
  vector_step := λ _ '(σ, (n, frames)),
    (Ret ([[0; 1]%nat], [1], [bool_decide (3 ≤ S n)%nat], [()]),
     (σ, (S n, frames)));
  try_render_at := λ '(σ, (n, frames)),
    (Ret (length frames), (σ, (n, frames ++ [length frames])))
|}.

Definition recording_trainer : @Trainer (nat * list nat) := {|
  config := demo_config;
  compute_single_action := λ obs, ret obs;
  max_steps := 3
|}.

Definition recording_world : @world (nat * list nat) :=
  World (demo_state [1] [1]) (0%nat, []) [].


(** * Statistics of [evaluate_resiliance.py] *)

(** [np.percentile(a, p)] with NumPy's default linear interpolation, on an
    array that is already sorted (the caller passes [sorted(rewards)]):
    the virtual index [(n - 1) * p / 100] falls between two neighbours of
    the array, which are interpolated.  NumPy answers [nan] on an empty
    array; the model has no [nan] and answers [None]. *)
Definition percentile (a : list Qc) (p : Qc) : option Qc :=
  let n := length a in
  let virtual_index := Qc_of_Z (Z.of_nat n - 1) * p / q 100 1 in
  let previous := Qfloor virtual_index in
  let next := Z.min (previous + 1) (Z.of_nat n - 1) in
  let gamma := virtual_index - Qc_of_Z previous in
  match a !! Z.to_nat previous, a !! Z.to_nat next with
  | Some x, Some y => Some (x + (y - x) * gamma)
  | _, _ => None
  end.

Definition adjacent_values {S} (vals : list Qc) (q1 q3 : Qc) : M S (Qc * Qc) :=
  let upper_adjacent_value := q3 + (q3 - q1) * q 3 2 in
  let* last := getitem vals (-1) in
  let upper_adjacent_value := clip upper_adjacent_value q3 last in
  let lower_adjacent_value := q1 - (q3 - q1) * q 3 2 in
  let* first := getitem vals 0 in
  let lower_adjacent_value := clip lower_adjacent_value first q1 in
  ret (lower_adjacent_value, upper_adjacent_value).

(** * The noise sweep of [evaluate_resiliance.py] *)

(** [np.linspace(start, stop, num)] *)
Definition linspace (start stop : Qc) (num : nat) : list Qc :=
  (λ k : nat, start + Qc_of_Z (Z.of_nat k)
                      * ((stop - start) / Qc_of_Z (Z.of_nat num - 1)))
    <$> seq 0 num.

(** [enumerate(xs)] *)
Definition enumerate {A} (xs : list A) : list (nat * A) :=
  zip (seq 0 (length xs)) xs.

(** A three-dimensional array, [T[i, j]] a row of [T]. *)
Abbreviation tensor := (list (list (list Qc))) (only parsing).

(** [np.zeros((a, b, c))] *)
Definition zeros (a b c : nat) : tensor := replicate a (replicate b (replicate c 0)).

(** [T[i, j]] *)
Definition row (T : tensor) (i j : nat) : option (list Qc) :=
  T !! i ≫= λ plane, plane !! j.

(** [T[i, j] = xs]: the row must have the length of the last axis. *)
Definition set_row {S} (T : tensor) (i j : nat) (xs : list Qc) : M S tensor :=
  match row T i j with
  | None => raise IndexError
  | Some old =>
      if bool_decide (length xs = length old)
      then ret (alter (λ plane, <[j := xs]> plane) i T)
      else raise ValueError
  end.

Section sweep.
Context {E Frame Info : Type}.

Abbreviation callback := (list loc → M (state * E) (list loc)) (only parsing).
Abbreviation rollout :=
  (list Qc * option (list Frame) * option (list (list (list loc)))
   * option (list (list (list loc))))%type (only parsing).

(** A call of [rollout_episodes] by keyword: [None] for a parameter that
    the call does not name. *)
Record rollout_kwargs := {
  kw_n_episodes : option nat;
  kw_render : option bool;
  kw_get_obs : option bool;
  kw_get_actions : option bool;
  kw_trainer : option (option (@Trainer E));
  kw_action_callback : option (option callback);
  kw_env : option (@Env E Frame Info);
  kw_inject : option bool;
  kw_inject_mode : option InjectMode;
  kw_agents_to_inject : option (list Z);
  kw_noise_delta : option Qc
}.

(** No parameter of [rollout_episodes] has a default value, so Python
    raises [TypeError] on a call that leaves one of them out. *)
Definition call_rollout_episodes (kw : rollout_kwargs) (fuel : nat)
  : M (@world E) rollout :=
  match kw_n_episodes kw, kw_render kw, kw_get_obs kw, kw_get_actions kw,
        kw_trainer kw, kw_action_callback kw, kw_env kw, kw_inject kw,
        kw_inject_mode kw, kw_agents_to_inject kw, kw_noise_delta kw with
  | Some n_episodes, Some render, Some get_obs, Some get_actions,
    Some trainer, Some action_callback, Some the_env, Some inject,
    Some inject_mode, Some agents_to_inject, Some noise_delta =>
      rollout_episodes n_episodes render get_obs get_actions trainer
        action_callback the_env inject inject_mode agents_to_inject
        noise_delta fuel
  | _, _, _, _, _, _, _, _, _, _, _ => raise TypeError
  end.

(** [EvaluationUtils.get_config_trainer_and_env_from_checkpoint]: the
    framework restores the trainer of a checkpoint and builds its
    environment. *)
Context {Path Config : Type}
        (get_config_trainer_and_env_from_checkpoint :
           Path → M (state * E) (Config * @Trainer E * @Env E Frame Info)).

(** [[f(x) for x in xs]] *)
Fixpoint comprehension {S A B} (f : A → M S B) (xs : list A) : M S (list B) :=
  match xs with
  | [] => ret []
  | x :: xs =>
      let* y := f x in
      let* ys := comprehension f xs in
      ret (y :: ys)
  end.

Section loops.
(** How the loop calls [rollout_episodes] for a trainer, its environment
    and a noise magnitude. *)
Context (call : @Trainer E → @Env E Frame Info → Qc → M (@world E) rollout).
Context (envs : list (@Env E Frame Info)).

(** The body of the two loops, lines 246 to 263. *)
Definition sweep_body (j : nat) (noise : Qc) (i : nat) (trainer : @Trainer E)
    (T : tensor * tensor) : M (@world E) (tensor * tensor) :=
  let '(rewards, done) := T in
  let* the_env := getitem envs (Z.of_nat i) in
  let* (rews, _, obs, _) := call trainer the_env noise in
  let* len_obs :=
    match obs with
    | Some obs => ret (length <$> obs)
    | None => raise TypeError
    end in
  let* rewards := set_row rewards i j rews in
  let* done :=
    set_row done i j
      ((λ n, if bool_decide (n < max_steps trainer)%nat then 1 else 0) <$> len_obs) in
  ret (rewards, done).

(** [for i, trainer in enumerate(trainers)] *)
Fixpoint for_trainers (j : nat) (noise : Qc) (its : list (nat * @Trainer E))
    (T : tensor * tensor) : M (@world E) (tensor * tensor) :=
  match its with
  | [] => ret T
  | (i, trainer) :: its =>
      let* T := sweep_body j noise i trainer T in
      for_trainers j noise its T
  end.

(** [for j, noise in enumerate(noises)] *)
Fixpoint for_noises (jns : list (nat * Qc)) (trainers : list (@Trainer E))
    (T : tensor * tensor) : M (@world E) (tensor * tensor) :=
  match jns with
  | [] => ret T
  | (j, noise) :: jns =>
      let* T := for_trainers j noise (enumerate trainers) T in
      for_noises jns trainers T
  end.

End loops.

(** [evaluate_increasing_noise] up to the plots: the two result arrays as
    they are when the loops end.  [call] is the call of line 246. *)
Definition noise_sweep
    (call : @Trainer E → @Env E Frame Info → Qc → M (@world E) rollout)
    (checkpoint_paths : list Path) (n_episodes_per_model : nat)
  : M (@world E) (tensor * tensor) :=
  let noises := linspace 0 (q 2 1) 50 in
  let rewards :=
    zeros (length checkpoint_paths) (length noises) n_episodes_per_model in
  let done :=
    zeros (length checkpoint_paths) (length noises) n_episodes_per_model in
  let* trainers :=
    comprehension
      (λ checkpoint_path,
         let* cte := lift_ext (get_config_trainer_and_env_from_checkpoint
                                 checkpoint_path) in
         ret cte.1.2)
      checkpoint_paths in
  let* envs :=
    comprehension
      (λ checkpoint_path,
         let* cte := lift_ext (get_config_trainer_and_env_from_checkpoint
                                 checkpoint_path) in
         ret cte.2)
      checkpoint_paths in
  for_noises call envs (enumerate noises) trainers (rewards, done).

(** The call as the source writes it: ten keywords, no [action_callback]. *)
Definition evaluate_increasing_noise (checkpoint_paths : list Path)
    (n_episodes_per_model : nat) (agents_to_inject : list Z)
    (inject_mode : InjectMode) (fuel : nat)
  : M (@world E) (tensor * tensor) :=
  noise_sweep
    (λ trainer the_env noise,
       call_rollout_episodes
         {| kw_n_episodes := Some n_episodes_per_model;
            kw_render := Some false;
            kw_get_obs := Some true;
            kw_get_actions := Some false;
            kw_trainer := Some (Some trainer);
            kw_action_callback := None;
            kw_env := Some the_env;
            kw_inject := Some true;
            kw_inject_mode := Some inject_mode;
            kw_agents_to_inject := Some agents_to_inject;
            kw_noise_delta := Some noise |} fuel)
    checkpoint_paths n_episodes_per_model.

End sweep.

(** The toy loader: checkpoint [p] restores the toy trainer, with
    [max_steps] 3 + [p], and the toy environment. *)
Definition toy_load (checkpoint_path : nat)
  : M (state * nat) (unit * @Trainer nat * @Env nat unit unit) :=
  ret ((),
       {| config := config toy_trainer;
          compute_single_action := compute_single_action toy_trainer;
          max_steps := 3 + checkpoint_path |},
       toy_env).


(** * The callbacks of [TrainingUtils] *)

(** ** [EvaluationCallbacks] *)

Section callbacks.
(** [V] is what the environment reports in an info and what a custom
    metric is: a number, as Python and NumPy have them. *)
Context {V : Type}.

(** What the callbacks use of the framework's episode: the info of the
    last step, a dictionary from agent to a dictionary from metric to
    number, written here as the lists of its items in the order of
    iteration; and the two dictionaries they write.  The lists kept in
    [user_data] are values: each is made by the callback and reachable from
    one key only. *)
Record Episode := {
  last_info_for : list (string * list (string * V));
  user_data : gmap string (list V);
  custom_metrics : gmap string V
}.

(** [episode.user_data[key]] *)
Definition user_data_getitem (key : string) : P Episode (list V) :=
  λ episode, match user_data episode !! key with
             | Some metric => (Returns metric, episode)
             | None => (Raises (KeyError key), episode)
             end.

(** [episode.user_data[key] = metric] *)
Definition user_data_setitem (key : string) (metric : list V) : P Episode unit :=
  λ episode,
    (Returns (),
     {| last_info_for := last_info_for episode;
        user_data := <[key := metric]> (user_data episode);
        custom_metrics := custom_metrics episode |}).

(** [episode.custom_metrics[key] = x] *)
Definition custom_metrics_setitem (key : string) (x : V) : P Episode unit :=
  λ episode,
    (Returns (),
     {| last_info_for := last_info_for episode;
        user_data := user_data episode;
        custom_metrics := <[key := x]> (custom_metrics episode) |}).

(** [f"{a_key}/{b_key}"] *)
Definition metric_key (a_key b_key : string) : string :=
  a_key +:+ "/" +:+ b_key.

Definition on_episode_step : P Episode unit :=
  λ episode,
    let info := last_info_for episode in
    for_each info (λ '(a_key, inner),
      for_each inner (λ '(b_key, value),
        try_except_KeyError
          (let+ metric := user_data_getitem (metric_key a_key b_key) in
           user_data_setitem (metric_key a_key b_key) (metric ++ [value]))
          (user_data_setitem (metric_key a_key b_key) [value])))
      episode.

(** [np.sum(np.array(metric)).item()]: the sum as NumPy computes it, in
    the type NumPy gives the array. *)
Context (np_sum : list V → V).

Definition on_episode_end : P Episode unit :=
  λ episode,
    let info := last_info_for episode in
    for_each info (λ '(a_key, inner),
      for_each inner (λ '(b_key, _),
        let+ metric := user_data_getitem (metric_key a_key b_key) in
        custom_metrics_setitem (metric_key a_key b_key) (np_sum metric)))
      episode.

End callbacks.

(** * [evaluate_resilience] of [evaluate_resiliance.py] *)

Inductive ResilencePlottinMode := VIOLIN | PERFORMANCE_MAINTEINED.

(** A computation on arrays among those on dictionaries. *)
Definition lift_M {S A} (c : M S A) : P S A :=
  λ σ, match c σ with
       | (Ret a, σ') => (Returns a, σ')
       | (Raise e, σ') => (Raises e, σ')
       end.

(** The outcome of a function that touches no store. *)
Definition lift_outcome {S A} (o : outcome A) : P S A := λ σ, (o, σ).

(** [assert b] *)
Definition passert {S} (b : bool) : P S unit :=
  if b then returns () else raises AssertionError.

Section resilience.
Context {E Frame Info Path : Type}.

Definition plift_ext {A} (c : P (state * E) A) : P (@world E) A :=
  λ w, let '(r, (σ, e)) := c (py w, ext w) in (r, World σ e (trace w)).

(** The collaborators: the restoring of a checkpoint, with the
    configuration it read; Python's [==] on two pairs of a title and a
    name; and the plotting, which is what lines 109 to 152 and lines 154
    to 181 do with the rewards. *)
Context (get_config_trainer_and_env_from_checkpoint :
           Path → P (state * E) (pyval * @Trainer E * @Env E Frame Info))
        (names_equal : pyval * string → pyval * string → bool)
        (violin : nat → bool → list Qc → P (@world E) unit)
        (performance_maintained : nat → list (list Qc) → P (@world E) unit).

Section checkpoints.
Context (n_episodes_per_model : nat) (agents_to_inject : list Z)
        (inject_mode : InjectMode) (noise_delta : Qc)
        (plotting_mode : ResilencePlottinMode)
        (compute_also_non_injected : bool) (fuel : nat).

(** [for inject in ...], lines 93 to 152: the call of [rollout_episodes]
    names ten parameters, not [action_callback]. *)
Fixpoint for_injects (model_num : nat) (trainer : @Trainer E)
    (the_env : @Env E Frame Info) (injects : list bool)
    (rewards_bef_and_after : list (list Qc)) : P (@world E) (list (list Qc)) :=
  match injects with
  | [] => returns rewards_bef_and_after
  | inject :: injects =>
      let+ (rewards, _, _, _) :=
        lift_M (call_rollout_episodes
                  {| kw_n_episodes := Some n_episodes_per_model;
                     kw_render := Some false;
                     kw_get_obs := Some false;
                     kw_get_actions := Some false;
                     kw_trainer := Some (Some trainer);
                     kw_action_callback := None;
                     kw_env := Some the_env;
                     kw_inject := Some inject;
                     kw_inject_mode := Some inject_mode;
                     kw_agents_to_inject := Some agents_to_inject;
                     kw_noise_delta := Some noise_delta |} fuel) in
      let rewards_bef_and_after := rewards_bef_and_after ++ [rewards] in
      let+ _ :=
        match plotting_mode with
        | VIOLIN => violin model_num inject rewards
        | PERFORMANCE_MAINTEINED => returns ()
        end in
      for_injects model_num trainer the_env injects rewards_bef_and_after
  end.

(** [for model_num, checkpoint_path in enumerate(checkpoint_paths)],
    lines 68 to 183.  [figure] is [None] while [figure_title] is. *)
Fixpoint for_checkpoints (items : list (nat * Path))
    (figure : option (pyval * string)) (x_tick_lkabels : list string)
  : P (@world E) (option (pyval * string) * list string) :=
  match items with
  | [] => returns (figure, x_tick_lkabels)
  | (model_num, checkpoint_path) :: items =>
      let+ (config, trainer, the_env) :=
        plift_ext (get_config_trainer_and_env_from_checkpoint checkpoint_path) in
      let+ _ :=
        match figure with
        | Some figure =>
            let+ (_, _, env_title, env_name) :=
              lift_outcome (get_model_name config) in
            passert (names_equal figure (env_title, env_name))
        | None => returns ()
        end in
      let+ (model_title, model_name, env_title, env_name) :=
        lift_outcome (get_model_name config) in
      let figure := Some (env_title, env_name) in
      let+ rewards_bef_and_after :=
        for_injects model_num trainer the_env
          (if compute_also_non_injected then [false; true] else [true]) [] in
      let+ _ :=
        match plotting_mode with
        | VIOLIN => returns ()
        | PERFORMANCE_MAINTEINED =>
            performance_maintained model_num rewards_bef_and_after
        end in
      for_checkpoints items figure (x_tick_lkabels ++ [model_title])
  end.

End checkpoints.

(** [evaluate_resilience] up to the end of its loop: the title and the
    name of the figure and the labels of the models. *)
Definition evaluate_resilience (checkpoint_paths : list Path)
    (n_episodes_per_model : nat) (agents_to_inject : list Z)
    (inject_mode : InjectMode) (noise_delta : Qc)
    (plotting_mode : ResilencePlottinMode) (compute_also_non_injected : bool)
    (fuel : nat)
  : P (@world E) (option (pyval * string) * list string) :=
  for_checkpoints n_episodes_per_model agents_to_inject inject_mode
    noise_delta plotting_mode compute_also_non_injected fuel
    (enumerate checkpoint_paths) None [].

End resilience.

(** The toy loader with a configuration: every checkpoint restores the
    toy trainer and the toy environment, configured by [demo_config]. *)
Definition toy_restore (checkpoint_path : nat)
  : P (state * nat) (pyval * @Trainer nat * @Env nat unit unit) :=
  returns (demo_config, toy_trainer, toy_env).

(** * Restoring a checkpoint *)

(** ** [TrainingUtils.env_creator] *)

(** The keyword arguments of a call [f(k1=v1, ..., **mapping)]: the
    mapping must be a dictionary, and none of its keys may be one of the
    keywords the call names. *)
Definition keywords (named : gmap string pyval) (mapping : pyval)
  : outcome (gmap string pyval) :=
  match mapping with
  | PyDict d =>
      if bool_decide (named ##ₘ d) then Returns (named ∪ d)
      else Raises TypeError
  | _ => Raises TypeError
  end.

(** [env_params] as [env_creator] passes it to [make_env]. *)
Definition env_params (config : pyval) : outcome (gmap string pyval) :=
  scenario ← subscript config "scenario";
  num_envs ← subscript config "num_envs";
  device ← subscript config "device";
  continuous_actions ← subscript config "continuous_actions";
  max_steps ← subscript config "max_steps";
  scenario_config ← subscript config "scenario_config";
  kwargs ← keywords {[ "scenario" := scenario;
                        "num_envs" := num_envs;
                        "device" := device;
                        "continuous_actions" := continuous_actions;
                        "wrapper" := PyEnum "Wrapper.RLLIB";
                        "max_steps" := max_steps ]} scenario_config;
  mret (kwargs ∪ ∅).

(** [d.update(other)]: only a dictionary has the method here. *)
Definition update_method (d : pyval) (other : gmap string pyval) : outcome pyval :=
  match d with
  | PyDict d => Returns (PyDict (other ∪ d))
  | _ => Raises AttributeError
  end.

Section restoring.
(** The framework is a collaborator: [X] is its state, [Path] a path,
    [Trainer'] a trainer and [Env'] an environment as it makes them. *)
Context {X Path Trainer' Env' : Type}.

(** The calls into the framework, as a ghost of the model. *)
Inductive call :=
  | PickleLoad (path : Path)                 (* pickle.load(open(path, "rb")) *)
  | InitRay (scenario_name : pyval)          (* TrainingUtils.init_ray *)
  | NewTrainer (scenario_name config : pyval) (* MultiPPOTrainer(env=..., config=...) *)
  | Restore (path : Path)                    (* trainer.restore *)
  | MakeEnv (params : gmap string pyval)     (* make_env, on env_params *)
  | Seed (seed : pyval).                     (* env.seed *)

Record framework := Framework {
  fw : X;
  calls : list call
}.

(** A call into the framework: it is recorded, then made. *)
Definition called {A} (ev : call) (c : P X A) : P framework A :=
  λ s, let '(r, x) := c (fw s) in (r, Framework x (calls s ++ [ev])).

Context (params_path : Path → Path)   (* Path(checkpoint_path).parent / "params.pkl" *)
        (pickle_load : Path → P X pyval)
        (init_ray : pyval → P X unit)
        (MultiPPOTrainer : pyval → pyval → P X Trainer')
        (restore : Trainer' → Path → P X unit)
        (make_env : gmap string pyval → P X Env')
        (seed : Env' → pyval → P X unit).

Definition env_creator (config : pyval) : P framework Env' :=
  let+ env_params := lift_outcome (env_params config) in
  called (MakeEnv env_params) (make_env env_params).

Definition get_checkpoint_config (checkpoint_path : Path) : P framework pyval :=
  let params_path := params_path checkpoint_path in
  called (PickleLoad params_path) (pickle_load params_path).

Definition get_config_trainer_and_env_from_checkpoint (checkpoint_path : Path)
    (for_evaluation : bool) (config_update_fn : option (pyval → P framework pyval))
  : P framework (pyval * Trainer' * Env') :=
  let+ config := get_checkpoint_config checkpoint_path in
  let+ scenario_name := lift_outcome (subscript config "env") in
  let+ _ := called (InitRay scenario_name) (init_ray scenario_name) in
  let+ config :=
    if for_evaluation then
      let+ env_config := lift_outcome (subscript config "env_config") in
      let+ env_config :=
        lift_outcome (update_method env_config {[ "num_envs" := PyInt 1 ]}) in
      let eval_config : gmap string pyval :=
        {[ "in_evaluation" := PyBool true;
           "num_workers" := PyInt 0;
           "num_gpus" := PyInt 0;
           "num_envs_per_worker" := PyInt 1;
           "env_config" := env_config ]} in
      lift_outcome (update_method config eval_config)
    else returns config in
  let+ config :=
    match config_update_fn with
    | Some config_update_fn => config_update_fn config
    | None => returns config
    end in
  let+ trainer :=
    called (NewTrainer scenario_name config) (MultiPPOTrainer scenario_name config) in
  let+ _ := called (Restore checkpoint_path) (restore trainer checkpoint_path) in
  let+ env_config := lift_outcome (subscript config "env_config") in
  let+ the_env := env_creator env_config in
  let+ the_seed := lift_outcome (subscript config "seed") in
  let+ _ := called (Seed the_seed) (seed the_env the_seed) in
  returns (config, trainer, the_env).

End restoring.

(** * The vocabulary of the properties *)

(** ** Tuples and target sets *)

(** Every reference of the tuple denotes an array. *)
Definition wf (σ : state) (t : list loc) : Prop :=
  ∀ l, l ∈ t → is_Some (heap σ !! l).

(** The subscript [i] denotes a position of a sequence of length [n]. *)
Definition resolves (n : nat) (i : Z) : Prop := is_Some (py_index n i).

(** The target set fits the tuple and every subscript denotes a position
    of the tuple (and, for actions, an agent of the environment). *)
Definition valid_targets (mode : InjectMode) (idx : list Z) (env : VectorEnv)
    (t : list loc) : Prop :=
  (length idx ≤ length t)%nat
  ∧ Forall (resolves (length t)) idx
  ∧ (mode = ACTION_NOISE → Forall (resolves (length (agents env))) idx).

(** Every element of the array lies within [-b, b]. *)
Definition within (b : Qc) (a : ndarray) : Prop := Forall (λ x, - b ≤ x ≤ b) a.

(** Every targeted action already lies within the control range of its
    agent. *)
Definition targets_within (env : VectorEnv) (idx : list Z) (σ : state)
    (t : list loc) : Prop :=
  ∀ i p k ag a,
    i ∈ idx → py_index (length t) i = Some p →
    py_index (length (agents env)) i = Some k → agents env !! k = Some ag →
    contents σ t !! p = Some (Some a) → within (u_range ag) a.

(** Position [p] of the tuple holds an array of its own, clipped to the
    control range of agent [p]. *)
Definition clipped_at (env : VectorEnv) (σ : state) (xs : list loc) (p : nat)
  : Prop :=
  ∃ l a ag,
    xs !! p = Some l ∧ heap σ !! l = Some a ∧ agents env !! p = Some ag
    ∧ within (u_range ag) a ∧ ∀ p', p' ≠ p → xs !! p' ≠ Some l.

#[global] Instance InjectMode_eq_dec : EqDecision InjectMode.
Proof. solve_decision. Defined.

(** ** The store after a pass of an injector loop *)

(** The store after [xs[i] += noise] on the array [a] at reference [l]. *)
Definition added (l : loc) (a : ndarray) (low high : Qc) (σ : state) : state :=
  State (<[l := zip_with Qcplus a (draw low high (length a) σ)]> (heap σ))
        (rng_stream σ) (rng_pos σ + length a).

(** The store after the clipped copy of the array [a] is allocated. *)
Definition clipped (a : ndarray) (lo hi : Qc) (σ : state) : state :=
  set_heap (<[fresh (dom (heap σ)) := map (λ x, clip x lo hi) a]> (heap σ)) σ.

(** ** Traces of episodes *)

(** No event of the stretch is a reset. *)
Definition no_reset (tr : list event) : Prop := Forall (λ ev, ev ≠ Reset) tr.

(** The trace of a run of episodes: each begins with a reset. *)
Definition episodes_trace (eps : list (list event)) : list event :=
  concat ((λ ep, Reset :: ep) <$> eps).

(** ** What the sweep records *)

(** The call of line 246 with the keyword [action_callback=None] added. *)
Definition call_with_callback_None {E Frame Info} (n_episodes : nat)
    (inject_mode : InjectMode) (agents_to_inject : list Z) (fuel : nat)
    (trainer : @Trainer E) (the_env : @Env E Frame Info) (noise : Qc)
  : M (@world E) (list Qc * option (list Frame)
                  * option (list (list (list loc)))
                  * option (list (list (list loc)))) :=
  call_rollout_episodes
    {| kw_n_episodes := Some n_episodes;
       kw_render := Some false;
       kw_get_obs := Some true;
       kw_get_actions := Some false;
       kw_trainer := Some (Some trainer);
       kw_action_callback := Some None;
       kw_env := Some the_env;
       kw_inject := Some true;
       kw_inject_mode := Some inject_mode;
       kw_agents_to_inject := Some agents_to_inject;
       kw_noise_delta := Some noise |} fuel.

(** The early-termination flag of an episode. *)
Definition early {E} (trainer : @Trainer E) (ep : list event) : Qc :=
  if bool_decide (steps ep < max_steps trainer)%nat then 1 else 0.

(** What the loops have recorded for a run of episodes at [i, j]. *)
Definition recorded {E} (n_episodes : nat) (R D : tensor) (i j : nat)
    (trainer : @Trainer E) (eps : list (list event)) : Prop :=
  length eps = n_episodes
  ∧ Forall (λ ep, no_reset ep ∧ (1 ≤ steps ep)%nat) eps
  ∧ row R i j = Some (total_reward <$> eps)
  ∧ row D i j = Some (early trainer <$> eps).

(** ** Shapes, references and samples *)

(** The number of elements of each entry of a tuple. *)
Definition shapes (σ : state) (t : list loc) : list (option nat) :=
  (λ l, length <$> heap σ !! l) <$> t.

(** Every array of [σ] is still there in [σ'], with as many elements. *)
Definition keeps_shapes (σ σ' : state) : Prop :=
  ∀ l a, heap σ !! l = Some a →
         ∃ a', heap σ' !! l = Some a' ∧ length a' = length a.

(** Position [p] of the tuple holds an array that the store [σ0] does
    not have, and to which no other position of the tuple refers. *)
Definition new_at (σ0 σ : state) (xs : list loc) (p : nat) : Prop :=
  ∃ l, xs !! p = Some l ∧ is_Some (heap σ !! l) ∧ heap σ0 !! l = None
       ∧ ∀ p', p' ≠ p → xs !! p' ≠ Some l.

(** The samples a call of the injector needs: one for every element of
    the entry each subscript denotes. *)
Definition samples_needed (σ : state) (t : list loc) (idx : list Z) : nat :=
  sum_list_with
    (λ i, default 0%nat (py_index (length t) i ≫= λ p, mjoin (shapes σ t !! p)))
    idx.

(** ** The best episode of a rollout *)

(** Episode [k] is the first of the run with the highest total reward. *)
Definition first_best (rews : list Qc) (k : nat) : Prop :=
  ∃ r, rews !! k = Some r
       ∧ (∀ j r', rews !! j = Some r' → r' ≤ r)
       ∧ (∀ j r', (j < k)%nat → rews !! j = Some r' → r' < r).

(** The collaborators keep a record of the frames rendered: [rendered e]
    is the list of the frames that the environment has rendered up to the
    state [e].  Rendering adds the frame it returns to the record; a reset,
    a step and the policy leave the record as it is. *)
Definition records_frames {E Frame Info} (rendered : E → list Frame)
    (trainer : option (@Trainer E))
    (action_callback : option (list loc → M (state * E) (list loc)))
    (the_env : @Env E Frame Info) : Prop :=
  (∀ σ e frame σ' e',
     try_render_at the_env (σ, e) = (Ret frame, (σ', e')) →
     rendered e' = rendered e ++ [frame])
  ∧ (∀ σ e obss σ' e',
       vector_reset the_env (σ, e) = (Ret obss, (σ', e')) →
       rendered e' = rendered e)
  ∧ (∀ actions σ e r σ' e',
       vector_step the_env actions (σ, e) = (Ret r, (σ', e')) →
       rendered e' = rendered e)
  ∧ (∀ tr observation σ e action σ' e',
       trainer = Some tr →
       compute_single_action tr observation (σ, e) = (Ret action, (σ', e')) →
       rendered e' = rendered e)
  ∧ (∀ callback observation σ e action σ' e',
       action_callback = Some callback →
       callback observation (σ, e) = (Ret action, (σ', e')) →
       rendered e' = rendered e).

(** ** The metrics of an episode *)

(** The items the callbacks meet in an info, each under the key it is
    filed under, in the order of the two loops. *)
Definition items_of {V} (info : list (string * list (string * V)))
  : list (string * V) :=
  '(a_key, inner) ← info; '(b_key, value) ← inner;
  [(metric_key a_key b_key, value)].

(** The keys of an info, and the values it reports under one key. *)
Definition keys_of {V} (info : list (string * list (string * V))) : list string :=
  (items_of info).*1.

Definition values_for {V} (key : string)
    (info : list (string * list (string * V))) : list V :=
  (filter (λ item, item.1 = key) (items_of info)).*2.

(** The framework before a step callback: the info of the step is the
    episode's last info. *)
Definition with_info {V} (info : list (string * list (string * V)))
    (episode : @Episode V) : @Episode V :=
  {| last_info_for := info;
     user_data := user_data episode;
     custom_metrics := custom_metrics episode |}.

(** The step callbacks of an episode, one for the info of each step. *)
Definition episode_steps {V} (infos : list (list (string * list (string * V))))
  : P (@Episode V) unit :=
  for_each infos (λ info episode, on_episode_step (with_info info episode)).

(** The character occurs in the string. *)
Fixpoint occurs (c : ascii) (s : string) : Prop :=
  match s with
  | EmptyString => False
  | String c' s => c = c' ∨ occurs c s
  end.

(** ** Restoring *)

(** The keywords that [env_creator] names in its call of [update]. *)
Definition fixed_keywords : list string :=
  ["scenario"; "num_envs"; "device"; "continuous_actions"; "wrapper";
   "max_steps"].


(** * Properties *)

(** ** Subscripts *)

Lemma py_index_lt n i p : py_index n i = Some p → (p < n)%nat.
Proof. unfold py_index. repeat case_decide; intros [= <-]; lia. Qed.

Lemma py_index_nonneg n i :
  (0 ≤ i)%Z → py_index n i = if decide (i < Z.of_nat n)%Z then Some (Z.to_nat i) else None.
Proof. intros Hi. unfold py_index. repeat case_decide; auto; lia. Qed.

Lemma getitem_ret {S A} (xs : list A) i (σ : S) :
  ∀ p x, py_index (length xs) i = Some p → xs !! p = Some x →
  getitem xs i σ = (Ret x, σ).
Proof. intros p x Hp Hx. unfold getitem. rewrite Hp. simpl. by rewrite Hx. Qed.

Lemma getitem_inv {S A} (xs : list A) i (σ σ' : S) r :
  getitem xs i σ = (r, σ') →
  σ' = σ ∧
  ((∃ p x, py_index (length xs) i = Some p ∧ xs !! p = Some x ∧ r = Ret x)
   ∨ (py_index (length xs) i = None ∧ r = Raise IndexError)).
Proof.
  unfold getitem. destruct (py_index (length xs) i) as [p|] eqn:Hp; simpl.
  - destruct (xs !! p) as [x|] eqn:Hx.
    + intros [= <- <-]. split; [done|]. left. eauto.
    + apply py_index_lt in Hp. apply lookup_lt_is_Some_2 in Hp.
      rewrite Hx in Hp. by destruct Hp.
  - intros [= <- <-]. split; [done|]. by right.
Qed.

Lemma setitem_inv {S A} (xs : list A) i x (σ σ' : S) r :
  setitem xs i x σ = (r, σ') →
  σ' = σ ∧
  ((∃ p, py_index (length xs) i = Some p ∧ r = Ret (<[p := x]> xs))
   ∨ (py_index (length xs) i = None ∧ r = Raise IndexError)).
Proof.
  unfold setitem. destruct (py_index (length xs) i) as [p|] eqn:Hp.
  - intros [= <- <-]. split; [done|]. left. eauto.
  - intros [= <- <-]. split; [done|]. by right.
Qed.

(** ** One pass of each injector loop, as an equation *)

Ltac run_step :=
  cbv [bind ret raise getitem setitem load store alloc uniform iadd iadd_item
       np_clip added clipped set_heap mbind option_bind draw];
  cbn [heap rng_stream rng_pos].

Lemma inject_noise_in_observation_for_cons xs i rest d σ :
  inject_noise_in_observation_for xs (i :: rest) d σ =
  match py_index (length xs) i with
  | None => (Raise IndexError, σ)
  | Some p =>
      match xs !! p with
      | None => (Raise IndexError, σ)
      | Some l =>
          match heap σ !! l with
          | None => (Raise NoObject, σ)
          | Some a =>
              inject_noise_in_observation_for xs rest d (added l a (- d) d σ)
          end
      end
  end.
Proof.
  cbn [inject_noise_in_observation_for].
  destruct (py_index (length xs) i) as [p|] eqn:Hp; [|by run_step; rewrite Hp].
  destruct (xs !! p) as [l|] eqn:Hl; [|by run_step; rewrite Hp, Hl].
  destruct (heap σ !! l) as [a|] eqn:Ha; [|by run_step; rewrite Hp, Hl, Ha].
  run_step. rewrite Hp, Hl, Ha. cbn [heap]. rewrite Ha, list_insert_id by done.
  done.
Qed.

Lemma inject_noise_in_action_for_cons xs i rest d env σ :
  inject_noise_in_action_for xs (i :: rest) d env σ =
  match py_index (length xs) i with
  | None => (Raise IndexError, σ)
  | Some p =>
      match xs !! p with
      | None => (Raise IndexError, σ)
      | Some l =>
          match heap σ !! l with
          | None => (Raise NoObject, σ)
          | Some a =>
              let σ1 := added l a (- d) d σ in
              match py_index (length (agents env)) i ≫= λ k, agents env !! k with
              | None => (Raise IndexError, σ1)
              | Some ag =>
                  inject_noise_in_action_for
                    (<[p := fresh (dom (heap σ1))]> xs) rest d env
                    (clipped (zip_with Qcplus a (draw (- d) d (length a) σ))
                             (- u_range ag) (u_range ag) σ1)
              end
          end
      end
  end.
Proof.
  cbn [inject_noise_in_action_for].
  destruct (py_index (length xs) i) as [p|] eqn:Hp; [|by run_step; rewrite Hp].
  destruct (xs !! p) as [l|] eqn:Hl; [|by run_step; rewrite Hp, Hl].
  destruct (heap σ !! l) as [a|] eqn:Ha; [|by run_step; rewrite Hp, Hl, Ha].
  run_step. rewrite Hp, Hl, Ha. cbn [heap]. rewrite Ha.
  rewrite list_insert_id, Hp, Hl by done. cbn [heap rng_stream rng_pos].
  destruct (py_index (length (agents env)) i) as [k|]; [|done].
  destruct (agents env !! k) as [ag|]; [|done].
  cbn [heap]. rewrite lookup_insert_eq. cbn [heap]. by rewrite ?Hp.
Qed.

(** ** The assertion is the only source of [AssertionError] *)

Lemma inject_noise_in_observation_for_no_assert idx xs d σ :
  (inject_noise_in_observation_for xs idx d σ).1 ≠ Raise AssertionError.
Proof.
  revert σ. induction idx as [|i rest IH]; intros σ; [done|].
  rewrite inject_noise_in_observation_for_cons.
  repeat case_match; simpl; try done; apply IH.
Qed.

Lemma inject_noise_in_action_for_no_assert idx xs d env σ :
  (inject_noise_in_action_for xs idx d env σ).1 ≠ Raise AssertionError.
Proof.
  revert xs σ. induction idx as [|i rest IH]; intros xs σ; [done|].
  rewrite inject_noise_in_action_for_cons.
  repeat case_match; simpl; try done; apply IH.
Qed.

Lemma assert_true {S A} (b : bool) (k : unit → M S A) σ :
  b = true → (let* u := assert b in k u) σ = k () σ.
Proof. by intros ->. Qed.

Lemma assert_false {S A} (b : bool) (k : unit → M S A) σ :
  b = false → (let* u := assert b in k u) σ = (Raise AssertionError, σ).
Proof. by intros ->. Qed.

(** The injector on a call that passes the assertion. *)
Lemma get_inject_function_pass mode d idx env t σ :
  (length idx ≤ length t)%nat →
  get_inject_function mode d idx env t σ =
  match mode with
  | ACTION_NOISE => inject_noise_in_action_for t idx d env σ
  | OBS_NOISE => inject_noise_in_observation_for t idx d σ
  end.
Proof.
  intros Hlen. unfold get_inject_function.
  destruct mode; cbn [is_];
    unfold inject_noise_in_action, inject_noise_in_observation;
    by rewrite assert_true by by apply bool_decide_eq_true.
Qed.

Lemma get_inject_function_ret mode d idx env t σ t' σ' :
  get_inject_function mode d idx env t σ = (Ret t', σ') →
  (length idx ≤ length t)%nat.
Proof.
  intros Hrun. destruct (decide (length idx ≤ length t)%nat) as [|Hn]; [done|].
  unfold get_inject_function in Hrun.
  destruct mode; cbn [is_] in Hrun;
    unfold inject_noise_in_action, inject_noise_in_observation in Hrun;
    by rewrite assert_false in Hrun by by apply bool_decide_eq_false.
Qed.

(** C5: a target set longer than the tuple makes the injector raise the
    assertion's error (the specification's [InvalidTargetSet]) with the
    store, hence every entry of the input, exactly as it was before the
    call; a target set that fits never raises that error.  Both noise modes. *)
Theorem invalid_target_set mode d idx env t σ :
  ((length t < length idx)%nat →
     get_inject_function mode d idx env t σ = (Raise AssertionError, σ))
  ∧ ((length idx ≤ length t)%nat →
     (get_inject_function mode d idx env t σ).1 ≠ Raise AssertionError).
Proof.
  split.
  - intros Hlen. unfold get_inject_function.
    destruct mode; cbn [is_];
      unfold inject_noise_in_action, inject_noise_in_observation;
      apply assert_false, bool_decide_eq_false; lia.
  - intros Hlen. rewrite get_inject_function_pass by done. destruct mode.
    + apply inject_noise_in_action_for_no_assert.
    + apply inject_noise_in_observation_for_no_assert.
Qed.

Lemma invalid_target_set_witness :
  get_inject_function OBS_NOISE 1 [0; 1; 2]%Z demo_env [0; 1]%nat
    (demo_state [1] [1]) = (Raise AssertionError, demo_state [1] [1])
  ∧ (get_inject_function ACTION_NOISE 1 [0; 1]%Z demo_env [0; 1]%nat
       (demo_state [1] [1])).1 ≠ Raise AssertionError.
Proof.
  split.
  - apply (invalid_target_set OBS_NOISE 1 [0; 1; 2]%Z demo_env [0; 1]%nat).
    cbn. lia.
  - apply (invalid_target_set ACTION_NOISE 1 [0; 1]%Z demo_env [0; 1]%nat).
    cbn. lia.
Defined.

(** ** Well-formed tuples, and when the injectors return *)

Lemma wf_added σ t l a low high : wf σ t → wf (added l a low high σ) t.
Proof.
  intros Hwf l' Hl'. unfold added; cbn [heap].
  destruct (decide (l = l')) as [->|Hne].
  - rewrite lookup_insert_eq. eauto.
  - rewrite lookup_insert_ne by done. by apply Hwf.
Qed.

Lemma wf_lookup σ t p l : wf σ t → t !! p = Some l → is_Some (heap σ !! l).
Proof. intros Hwf Hl. apply Hwf. by eapply list_elem_of_lookup_2. Qed.

Lemma inject_noise_in_observation_for_returns idx xs d σ :
  Forall (resolves (length xs)) idx → wf σ xs →
  ∃ σ', inject_noise_in_observation_for xs idx d σ = (Ret xs, σ').
Proof.
  revert σ. induction idx as [|i rest IH]; intros σ Hres Hwf.
  - by exists σ.
  - apply Forall_cons_1 in Hres as [[p Hp] Hres].
    rewrite inject_noise_in_observation_for_cons, Hp.
    destruct (lookup_lt_is_Some_2 xs p (py_index_lt _ _ _ Hp)) as [l Hl].
    rewrite Hl. destruct (wf_lookup _ _ _ _ Hwf Hl) as [a Ha]. rewrite Ha.
    apply IH; [done|]. by apply wf_added.
Qed.

(** ** The observation injector: what it leaves alone *)

Lemma inject_noise_in_observation_for_frame idx xs d σ r σ' :
  inject_noise_in_observation_for xs idx d σ = (r, σ') →
  (∀ t', r = Ret t' → t' = xs)
  ∧ (∀ l, (∀ i p, i ∈ idx → py_index (length xs) i = Some p → xs !! p ≠ Some l) →
          heap σ' !! l = heap σ !! l).
Proof.
  revert σ. induction idx as [|i rest IH]; intros σ.
  - intros [= <- <-]. split; [by intros t' [= <-]|done].
  - rewrite inject_noise_in_observation_for_cons.
    destruct (py_index (length xs) i) as [p|] eqn:Hp; [|by intros [= <- <-]].
    destruct (xs !! p) as [l0|] eqn:Hl0; [|by intros [= <- <-]].
    destruct (heap σ !! l0) as [a|] eqn:Ha; [|by intros [= <- <-]].
    intros Hrun. apply IH in Hrun as [Hret Hframe]. split; [done|].
    intros l Hl. rewrite Hframe.
    + unfold added; cbn [heap]. apply lookup_insert_ne.
      intros ->. exact (Hl i p (list_elem_of_here _ _) Hp Hl0).
    + intros i' p' Hi'. apply Hl. by apply list_elem_of_further.
Qed.

(** ** Zero magnitude: the noise is the zero array *)

Lemma draw_zero n σ : draw (- 0) 0 n σ = replicate n 0.
Proof.
  unfold draw. generalize 0%nat. induction n as [|n IH]; intros s; [done|].
  cbn [seq map replicate]. rewrite IH. f_equal; ring.
Qed.

Lemma zip_with_plus_zero (a : ndarray) :
  zip_with Qcplus a (replicate (length a) 0) = a.
Proof.
  induction a as [|x a IH]; [done|]. cbn. rewrite IH. f_equal. ring.
Qed.

Lemma added_zero l a σ :
  heap σ !! l = Some a →
  added l a (- 0) 0 σ = State (heap σ) (rng_stream σ) (rng_pos σ + length a).
Proof.
  intros Ha. unfold added. rewrite draw_zero, zip_with_plus_zero.
  by rewrite insert_id.
Qed.

Lemma inject_noise_in_observation_for_zero idx xs σ r σ' :
  inject_noise_in_observation_for xs idx 0 σ = (r, σ') → heap σ' = heap σ.
Proof.
  revert σ. induction idx as [|i rest IH]; intros σ.
  - by intros [= <- <-].
  - rewrite inject_noise_in_observation_for_cons.
    destruct (py_index (length xs) i) as [p|] eqn:Hp; [|by intros [= <- <-]].
    destruct (xs !! p) as [l0|] eqn:Hl0; [|by intros [= <- <-]].
    destruct (heap σ !! l0) as [a|] eqn:Ha; [|by intros [= <- <-]].
    rewrite added_zero by done. intros Hrun. by apply IH in Hrun.
Qed.

(** ** The action injector, one targeted agent at a time *)

(** One pass of the action loop that does not raise: the tuple and the
    store it hands to the next pass. *)
Lemma inject_noise_in_action_for_cons_ret xs i rest d env σ xs' σ' :
  inject_noise_in_action_for xs (i :: rest) d env σ = (Ret xs', σ') →
  ∃ p l a ag,
    py_index (length xs) i = Some p ∧ xs !! p = Some l ∧ heap σ !! l = Some a
    ∧ (py_index (length (agents env)) i ≫= λ k, agents env !! k) = Some ag
    ∧ let σ1 := added l a (- d) d σ in
      inject_noise_in_action_for
        (<[p := fresh (dom (heap σ1))]> xs) rest d env
        (clipped (zip_with Qcplus a (draw (- d) d (length a) σ))
                 (- u_range ag) (u_range ag) σ1) = (Ret xs', σ').
Proof.
  rewrite inject_noise_in_action_for_cons.
  destruct (py_index (length xs) i) as [p|] eqn:Hp; [|done].
  destruct (xs !! p) as [l|] eqn:Hl; [|done].
  destruct (heap σ !! l) as [a|] eqn:Ha; [|done].
  cbn zeta.
  destruct (py_index (length (agents env)) i ≫= _) as [ag|] eqn:Hag; [|done].
  intros Hrun. by exists p, l, a, ag.
Qed.

Lemma fresh_not_allocated (h : gmap loc ndarray) l :
  is_Some (h !! l) → l ≠ fresh (dom h).
Proof.
  intros Hl ->. apply elem_of_dom in Hl. by apply is_fresh in Hl.
Qed.

(** The heap after one pass, seen from a reference other than the one
    that was targeted and allocated before the pass. *)
Lemma lookup_pass σ l a a' low high lo hi l' :
  is_Some (heap σ !! l') → l' ≠ l →
  heap (clipped a' lo hi (added l a low high σ)) !! l' = heap σ !! l'.
Proof.
  intros Hl' Hne. unfold clipped, added, set_heap; cbn [heap].
  rewrite lookup_insert_ne.
  - by rewrite lookup_insert_ne.
  - intros Heq. symmetry in Heq. revert Heq. apply fresh_not_allocated.
    by rewrite lookup_insert_ne.
Qed.

Lemma lookup_pass_new σ l a a' low high lo hi :
  heap (clipped a' lo hi (added l a low high σ))
    !! fresh (dom (heap (added l a low high σ)))
  = Some (map (λ x, clip x lo hi) a').
Proof. unfold clipped, set_heap; cbn [heap]. by rewrite lookup_insert_eq. Qed.

Lemma wf_pass σ xs p l a a' low high lo hi :
  wf σ xs → heap σ !! l = Some a →
  wf (clipped a' lo hi (added l a low high σ))
     (<[p := fresh (dom (heap (added l a low high σ)))]> xs).
Proof.
  intros Hwf Ha l' Hl'.
  apply list_elem_of_lookup in Hl' as [p' Hp'].
  destruct (decide (p = p')) as [<-|Hne].
  - destruct (decide (p < length xs)%nat).
    + rewrite list_lookup_insert_eq in Hp' by done.
      assert (l' = fresh (dom (heap (added l a low high σ)))) as ->
        by congruence.
      rewrite lookup_pass_new. eauto.
    + rewrite list_insert_ge in Hp' by lia.
      apply lookup_lt_Some in Hp'. lia.
  - rewrite list_lookup_insert_ne in Hp' by done.
    pose proof (wf_lookup _ _ _ _ Hwf Hp') as Hsome.
    destruct (decide (l' = l)) as [->|Hl].
    + unfold clipped, added, set_heap; cbn [heap].
      rewrite lookup_insert_ne, lookup_insert_eq; [eauto|].
      intros Heq. symmetry in Heq. revert Heq. apply fresh_not_allocated.
      rewrite lookup_insert_eq. eauto.
    + by rewrite lookup_pass.
Qed.

Lemma inject_noise_in_action_for_returns idx xs d env σ :
  Forall (resolves (length xs)) idx →
  Forall (resolves (length (agents env))) idx → wf σ xs →
  ∃ xs' σ', inject_noise_in_action_for xs idx d env σ = (Ret xs', σ').
Proof.
  revert xs σ. induction idx as [|i rest IH]; intros xs σ Hres Hag Hwf.
  - by exists xs, σ.
  - apply Forall_cons_1 in Hres as [[p Hp] Hres].
    apply Forall_cons_1 in Hag as [[k Hk] Hag].
    rewrite inject_noise_in_action_for_cons, Hp.
    destruct (lookup_lt_is_Some_2 xs p (py_index_lt _ _ _ Hp)) as [l Hl].
    rewrite Hl. destruct (wf_lookup _ _ _ _ Hwf Hl) as [a Ha]. rewrite Ha.
    cbn zeta. rewrite Hk. cbn.
    destruct (lookup_lt_is_Some_2 (agents env) k (py_index_lt _ _ _ Hk))
      as [ag Hagk].
    rewrite Hagk. apply IH.
    + by rewrite length_insert.
    + done.
    + by apply wf_pass.
Qed.

(** What the action injector leaves alone: positions no subscript
    denotes keep their reference, and an array allocated before the call
    that no targeted position refers to keeps its elements. *)
Lemma inject_noise_in_action_for_frame idx xs d env σ xs' σ' :
  inject_noise_in_action_for xs idx d env σ = (Ret xs', σ') →
  length xs' = length xs
  ∧ (∀ p, ¬ targeted (length xs) idx p → xs' !! p = xs !! p)
  ∧ (∀ l, is_Some (heap σ !! l) →
          (∀ i p, i ∈ idx → py_index (length xs) i = Some p → xs !! p ≠ Some l) →
          heap σ' !! l = heap σ !! l).
Proof.
  revert xs σ. induction idx as [|i rest IH]; intros xs σ.
  - by intros [= <- <-].
  - intros (p & l0 & a & ag & Hp & Hl0 & Ha & Hag & Hrun)
      %inject_noise_in_action_for_cons_ret.
    cbn zeta in Hrun. apply IH in Hrun as (Hlen & Hpos & Hheap).
    rewrite length_insert in Hlen, Hpos, Hheap.
    split; [done|]. split.
    + intros p' Hp'. rewrite Hpos.
      * apply list_lookup_insert_ne. intros <-. apply Hp'.
        exists i. split; [apply list_elem_of_here|done].
      * intros (i' & Hi' & Hi'p). apply Hp'. exists i'.
        split; [by apply list_elem_of_further|done].
    + intros l Hl Hfar.
      assert (l ≠ l0) as Hne.
      { intros ->. exact (Hfar i p (list_elem_of_here _ _) Hp Hl0). }
      rewrite Hheap.
      * by apply lookup_pass.
      * by rewrite lookup_pass.
      * intros i' p' Hi' Hi'p. destruct (decide (p = p')) as [<-|Hpp].
        -- rewrite list_lookup_insert_eq by exact (py_index_lt _ _ _ Hp).
           intros [= Heq]. revert Heq. unfold added; cbn [heap].
           intros Heq. symmetry in Heq. revert Heq. apply fresh_not_allocated.
           by rewrite lookup_insert_ne.
        -- rewrite list_lookup_insert_ne by done.
           apply (Hfar i'); [by apply list_elem_of_further|done].
Qed.

(** ** Clipping *)

Lemma maximum_ge x lo : lo ≤ maximum x lo.
Proof.
  unfold maximum. case_decide as H; [done|].
  destruct (Qc_le_total x lo); [done|tauto].
Qed.

Lemma minimum_le m hi : minimum m hi ≤ hi.
Proof.
  unfold minimum. case_decide as H; [done|]. apply Qcle_refl.
Qed.

Lemma clip_le x lo hi : clip x lo hi ≤ hi.
Proof. apply minimum_le. Qed.

Lemma clip_ge x lo hi : lo ≤ hi → lo ≤ clip x lo hi.
Proof.
  intros Hlohi. unfold clip, minimum. case_decide; [apply maximum_ge|done].
Qed.

Lemma clip_id x lo hi : lo ≤ x ≤ hi → clip x lo hi = x.
Proof.
  intros [Hlo Hhi]. unfold clip, maximum.
  case_decide as H1.
  - assert (x = lo) as -> by by apply Qcle_antisym.
    unfold minimum. by case_decide.
  - unfold minimum. by case_decide.
Qed.

Lemma opp_le_self b : 0 ≤ b → - b ≤ b.
Proof.
  intros Hb. apply Qcle_trans with 0; [|done].
  replace 0 with (- 0) by ring. by apply Qcopp_le_compat.
Qed.

Lemma within_clip a b : 0 ≤ b → within b (map (λ x, clip x (- b) b) a).
Proof.
  intros Hb. apply Forall_map, Forall_forall. intros x _. cbn. split.
  - apply clip_ge. by apply opp_le_self.
  - apply clip_le.
Qed.

Lemma clip_within_id a b : within b a → map (λ x, clip x (- b) b) a = a.
Proof.
  intros Ha. induction Ha as [|x a Hx _ IH]; [done|].
  cbn. by rewrite IH, clip_id.
Qed.

(** ** The action injector: clipped entries *)

Section action_bounds.
Context (env : VectorEnv) (d : Qc).
Hypothesis u_range_nonneg : ∀ ag, ag ∈ agents env → 0 ≤ u_range ag.

Local Abbreviation clipped_at := (clipped_at env).

Lemma inject_noise_in_action_for_clipped idx xs σ xs' σ' :
  Forall (λ i, 0 ≤ i)%Z idx → wf σ xs →
  inject_noise_in_action_for xs idx d env σ = (Ret xs', σ') →
  (∀ p, clipped_at σ xs p → clipped_at σ' xs' p)
  ∧ (∀ i, i ∈ idx → clipped_at σ' xs' (Z.to_nat i)).
Proof.
  revert xs σ. induction idx as [|i rest IH]; intros xs σ Hnn Hwf.
  - intros [= <- <-]. split; [done|]. intros i Hi. by apply elem_of_nil in Hi.
  - apply Forall_cons_1 in Hnn as [Hi Hnn].
    intros (p & l0 & a & ag & Hp & Hl0 & Ha & Hag & Hrun)
      %inject_noise_in_action_for_cons_ret.
    cbn zeta in Hrun.
    rewrite py_index_nonneg in Hp, Hag by done.
    destruct (decide (i < Z.of_nat (length xs))%Z) as [_|]; [|done].
    injection Hp as <-.
    destruct (decide (i < Z.of_nat (length (agents env)))%Z) as [_|]; [|done].
    cbn in Hag.
    set (σ1 := added l0 a (- d) d σ) in *.
    set (a1 := zip_with Qcplus a (draw (- d) d (length a) σ)) in *.
    set (σ2 := clipped a1 (- u_range ag) (u_range ag) σ1) in *.
    set (p := Z.to_nat i) in *.
    set (xs1 := <[p := fresh (dom (heap σ1))]> xs) in *.
    assert (p < length xs)%nat as Hplt by (by eapply lookup_lt_Some).
    assert (wf σ2 xs1) as Hwf2 by by apply wf_pass.
    assert (∀ p', p' ≠ p → xs1 !! p' ≠ Some (fresh (dom (heap σ1)))) as Huniq.
    { intros p' Hne. unfold xs1. rewrite list_lookup_insert_ne by done.
      intros Hp'. apply (wf_lookup _ _ _ _ Hwf) in Hp'.
      revert Hp'. unfold σ1, added; cbn [heap]. intros Hp'.
      eapply fresh_not_allocated; [|reflexivity].
      destruct (decide (l0 = fresh (dom (<[l0:=a1]> (heap σ))))) as [<-|Hne'].
      - rewrite lookup_insert_eq. eauto.
      - by rewrite lookup_insert_ne. }
    assert (clipped_at σ2 xs1 p) as Hnew.
    { exists (fresh (dom (heap σ1))), (map (λ x, clip x (- u_range ag) (u_range ag)) a1), ag.
      split; [by apply list_lookup_insert_eq|].
      split; [apply lookup_pass_new|]. split; [done|].
      split; [|done]. apply within_clip, u_range_nonneg.
      by eapply list_elem_of_lookup_2. }
    assert (∀ q, clipped_at σ xs q → clipped_at σ2 xs1 q) as Hkeep.
    { intros q0 (l & b & ag' & Hl & Hb & Hag' & Hwithin & Hq).
      destruct (decide (q0 = p)) as [->|Hne]; [done|].
      exists l, b, ag'. split; [by unfold xs1; rewrite list_lookup_insert_ne|].
      split.
      { unfold σ2, σ1. rewrite lookup_pass; [done|by eauto|].
        intros ->. by apply (Hq p). }
      split; [done|]. split; [done|].
      intros p' Hp'. destruct (decide (p' = p)) as [->|Hne'].
      - unfold xs1. rewrite list_lookup_insert_eq by done.
        intros [= Heq]. apply (Huniq q0 Hne).
        unfold xs1. rewrite list_lookup_insert_ne, Hl by done.
        f_equal. symmetry. exact Heq.
      - unfold xs1. rewrite list_lookup_insert_ne by done. by apply Hq. }
    apply IH in Hrun as [Hpres Hdone]; [|done..].
    split.
    + intros q0 Hq0. by apply Hpres, Hkeep.
    + intros i' [->|Hi']%elem_of_cons.
      * by apply Hpres.
      * by apply Hdone.
Qed.
End action_bounds.

(** ** The action injector at magnitude zero *)

Lemma contents_lookup σ t p l :
  t !! p = Some l → contents σ t !! p = Some (heap σ !! l).
Proof. intros Hl. unfold contents. by rewrite list_lookup_fmap, Hl. Qed.

Lemma inject_noise_in_action_for_zero env idx xs σ xs' σ' :
  wf σ xs →
  (∀ i p k ag a,
     i ∈ idx → py_index (length xs) i = Some p →
     py_index (length (agents env)) i = Some k → agents env !! k = Some ag →
     contents σ xs !! p = Some (Some a) → within (u_range ag) a) →
  inject_noise_in_action_for xs idx 0 env σ = (Ret xs', σ') →
  contents σ' xs' = contents σ xs
  ∧ (∀ l, is_Some (heap σ !! l) → heap σ' !! l = heap σ !! l).
Proof.
  revert xs σ. induction idx as [|i rest IH]; intros xs σ Hwf Hin.
  - by intros [= <- <-].
  - intros (p & l0 & a & ag & Hp & Hl0 & Ha & Hag & Hrun)
      %inject_noise_in_action_for_cons_ret.
    cbn zeta in Hrun.
    destruct (py_index (length (agents env)) i) as [k|] eqn:Hk; [|done].
    cbn in Hag.
    assert (within (u_range ag) a) as Hwithin.
    { apply (Hin i p k ag a); try done; [apply list_elem_of_here|].
      by rewrite (contents_lookup _ _ _ l0), Ha. }
    pose proof (wf_pass σ xs p l0 a
                  (zip_with Qcplus a (draw (- 0) 0 (length a) σ))
                  (- 0) 0 (- u_range ag) (u_range ag) Hwf Ha) as Hwf2.
    rewrite draw_zero, zip_with_plus_zero in Hrun, Hwf2.
    set (σ1 := added l0 a (- 0) 0 σ) in *.
    set (σ2 := clipped a (- u_range ag) (u_range ag) σ1) in *.
    set (z := fresh (dom (heap σ1))) in *.
    assert (∀ l, is_Some (heap σ !! l) → heap σ2 !! l = heap σ !! l) as Hsame.
    { intros l Hl. unfold σ2, clipped, set_heap; cbn [heap].
      rewrite clip_within_id by done. fold z.
      assert (heap σ1 = heap σ) as Hσ1 by (unfold σ1; by rewrite added_zero).
      rewrite lookup_insert_ne, Hσ1; [done|].
      intros Heq. symmetry in Heq. revert Heq. unfold z.
      apply fresh_not_allocated. by rewrite Hσ1. }
    assert (heap σ2 !! z = Some a) as Hz.
    { unfold σ2, clipped, set_heap; cbn [heap]. fold z.
      by rewrite lookup_insert_eq, clip_within_id. }
    assert (contents σ2 (<[p := z]> xs) = contents σ xs) as Hcont.
    { apply list_eq. intros p'. unfold contents.
      rewrite !list_lookup_fmap.
      destruct (decide (p = p')) as [<-|Hne].
      - rewrite list_lookup_insert_eq by by eapply lookup_lt_Some.
        rewrite Hl0. change (Some (heap σ2 !! z) = Some (heap σ !! l0)).
        by rewrite Hz, Ha.
      - rewrite list_lookup_insert_ne by done.
        destruct (xs !! p') as [l'|] eqn:Hl'; [|done].
        change (Some (heap σ2 !! l') = Some (heap σ !! l')). f_equal.
        apply Hsame. by eapply wf_lookup. }
    apply IH in Hrun as [Hc Hh]; [| done |].
    + split; [by rewrite Hc|]. intros l Hl. rewrite Hh; [by apply Hsame|].
      by rewrite Hsame.
    + intros i' p' k' ag' a' Hi' Hp' Hk' Hag' Ha'.
      rewrite length_insert in Hp'. rewrite Hcont in Ha'.
      apply (Hin i' p' k' ag' a'); try done. by apply list_elem_of_further.
Qed.

(** ** The injector built by [get_inject_function] *)

Lemma get_inject_function_returns mode d idx env t σ :
  valid_targets mode idx env t → wf σ t →
  ∃ t' σ', get_inject_function mode d idx env t σ = (Ret t', σ').
Proof.
  intros (Hlen & Hres & Hag) Hwf. rewrite get_inject_function_pass by done.
  destruct mode.
  - apply inject_noise_in_action_for_returns; auto.
  - exists t. apply inject_noise_in_observation_for_returns; auto.
Qed.

Lemma wf_Forall σ t : Forall (λ l, is_Some (heap σ !! l)) t → wf σ t.
Proof.
  intros H l Hl. apply list_elem_of_lookup in Hl as [p Hp].
  by eapply Forall_lookup_1 in H.
Qed.

(** C10: the predicates of [InjectMode] are total; [is_noise] holds of both
    modes, [is_obs] exactly of [OBS_NOISE], [is_action] exactly of
    [ACTION_NOISE], so exactly one of [is_obs] and [is_action] holds of
    every mode. *)
Theorem InjectMode_predicates (m : InjectMode) :
  is_noise m = true
  ∧ is_obs m = bool_decide (m = OBS_NOISE)
  ∧ is_action m = bool_decide (m = ACTION_NOISE)
  ∧ xorb (is_obs m) (is_action m) = true.
Proof. by destruct m. Qed.

(** C1, evaluated where it fails: with magnitude 1 on agent 0, the
    observation injector returns the very references it was given and the
    array behind the first has changed from [1] to [3/2]; the action
    injector returns a new clipped array for agent 0, and the array of the
    input tuple has changed from [1] to [3/2] as well. *)
Theorem injector_writes_through_input :
  contents (demo_state [1] [1]) [0; 1]%nat = [Some [1]; Some [1]]
  ∧ (get_inject_function OBS_NOISE 1 [0%Z] demo_env [0; 1]%nat
       (demo_state [1] [1])).1 = Ret [0; 1]%nat
  ∧ contents
      (get_inject_function OBS_NOISE 1 [0%Z] demo_env [0; 1]%nat
         (demo_state [1] [1])).2 [0; 1]%nat = [Some [q 3 2]; Some [1]]
  ∧ (get_inject_function ACTION_NOISE 1 [0%Z] demo_env [0; 1]%nat
       (demo_state [1] [1])).1 = Ret [2; 1]%nat
  ∧ contents
      (get_inject_function ACTION_NOISE 1 [0%Z] demo_env [0; 1]%nat
         (demo_state [1] [1])).2 [0; 1]%nat = [Some [q 3 2]; Some [1]]
  ∧ contents
      (get_inject_function ACTION_NOISE 1 [0%Z] demo_env [0; 1]%nat
         (demo_state [1] [1])).2 [2; 1]%nat = [Some [1]; Some [1]].
Proof. repeat split; vm_compute; reflexivity. Qed.

(** C2, evaluated where it fails: a tuple that holds the same array
    object twice.  The target set is valid and position 1 is not targeted,
    yet after injecting into agent 0 the entry at position 1 reads [3/2]
    instead of [1]: the addition in place shows through the alias. *)
Theorem aliased_entry_changes :
  (length [0%Z] ≤ length [0; 0]%nat)%nat
  ∧ ¬ targeted (length [0; 0]%nat) [0%Z] 1
  ∧ contents (demo_state [1] [1]) [0; 0]%nat = [Some [1]; Some [1]]
  ∧ (get_inject_function OBS_NOISE 1 [0%Z] demo_env [0; 0]%nat
       (demo_state [1] [1])).1 = Ret [0; 0]%nat
  ∧ contents
      (get_inject_function OBS_NOISE 1 [0%Z] demo_env [0; 0]%nat
         (demo_state [1] [1])).2 [0; 0]%nat = [Some [q 3 2]; Some [q 3 2]].
Proof.
  split; [cbn; lia|]. split.
  - intros (i & Hi & Hp). apply list_elem_of_singleton in Hi as ->. done.
  - repeat split; vm_compute; reflexivity.
Qed.

(** Without aliases the untargeted entries do pass through: on a tuple of
    distinct array objects whose target set is valid, the injector (either
    mode) returns a tuple of the same length whose entry at every position
    that no target denotes has exactly the elements the input entry had
    before the call. *)
Lemma untouched_entries mode d idx env t σ :
  NoDup t → wf σ t → valid_targets mode idx env t →
  ∃ t' σ',
    get_inject_function mode d idx env t σ = (Ret t', σ')
    ∧ length t' = length t
    ∧ ∀ p, ¬ targeted (length t) idx p →
           contents σ' t' !! p = contents σ t !! p.
Proof.
  intros Hnd Hwf Hvalid.
  destruct (get_inject_function_returns mode d idx env t σ Hvalid Hwf)
    as (t' & σ' & Hrun).
  exists t', σ'. split; [done|].
  destruct Hvalid as (Hlen & _ & _).
  rewrite get_inject_function_pass in Hrun by done.
  assert (∀ p l, ¬ targeted (length t) idx p → t !! p = Some l →
                 ∀ i p0, i ∈ idx → py_index (length t) i = Some p0 →
                         t !! p0 ≠ Some l) as Hfar.
  { intros p l Hp Hl i p0 Hi Hp0 Hl0. apply Hp.
    rewrite (NoDup_lookup t p p0 l Hnd Hl Hl0). by exists i. }
  destruct mode.
  - apply inject_noise_in_action_for_frame in Hrun as (Hlen' & Hpos & Hheap).
    split; [done|]. intros p Hp. unfold contents.
    rewrite !list_lookup_fmap, Hpos by done.
    destruct (t !! p) as [l|] eqn:Hl; [|done]. cbn. f_equal.
    apply Hheap; [by eapply wf_lookup|by eapply Hfar].
  - apply inject_noise_in_observation_for_frame in Hrun as [Hret Hheap].
    rewrite (Hret t') by done. split; [done|]. intros p Hp. unfold contents.
    rewrite !list_lookup_fmap.
    destruct (t !! p) as [l|] eqn:Hl; [|done]. cbn. f_equal.
    apply Hheap. by eapply Hfar.
Qed.

Example untouched_entries_demo :
  ∃ t' σ',
    get_inject_function ACTION_NOISE 1 [0%Z] demo_env [0; 1]%nat
      (demo_state [1] [1]) = (Ret t', σ')
    ∧ length t' = length [0; 1]%nat
    ∧ ∀ p, ¬ targeted (length [0; 1]%nat) [0%Z] p →
           contents σ' t' !! p = contents (demo_state [1] [1]) [0; 1]%nat !! p.
Proof.
  apply (untouched_entries ACTION_NOISE 1 [0%Z] demo_env [0; 1]%nat
           (demo_state [1] [1])).
  - apply (bool_decide_unpack _). vm_compute. exact I.
  - apply wf_Forall. repeat constructor; vm_compute; eauto.
  - split; [cbn; lia|].
    split; [|intros _]; repeat constructor; vm_compute; eauto.
Qed.

(** C3: on a valid call of the action injector whose targets are agent
    indices (counted from 0) of an environment with non-negative control
    ranges, whatever samples the generator yields, the call returns and
    every element of the returned entry of every targeted agent [i] lies
    within [- u_range, u_range] of agent [i]. *)
Theorem action_within_control_range d idx env t σ :
  (∀ ag, ag ∈ agents env → 0 ≤ u_range ag) →
  Forall (λ i, 0 ≤ i)%Z idx → wf σ t → valid_targets ACTION_NOISE idx env t →
  ∃ t' σ',
    get_inject_function ACTION_NOISE d idx env t σ = (Ret t', σ')
    ∧ ∀ i, i ∈ idx →
        ∃ l a ag,
          t' !! Z.to_nat i = Some l ∧ heap σ' !! l = Some a
          ∧ agents env !! Z.to_nat i = Some ag ∧ within (u_range ag) a.
Proof.
  intros Hrange Hnn Hwf Hvalid.
  destruct (get_inject_function_returns _ d idx env t σ Hvalid Hwf)
    as (t' & σ' & Hrun).
  exists t', σ'. split; [done|].
  destruct Hvalid as (Hlen & _ & _).
  rewrite get_inject_function_pass in Hrun by done.
  apply (inject_noise_in_action_for_clipped env d Hrange) in Hrun
    as [_ Hdone]; [|done..].
  intros i Hi. destruct (Hdone i Hi) as (l & a & ag & ? & ? & ? & ? & _).
  by exists l, a, ag.
Qed.

Lemma action_within_control_range_witness :
  ∃ t' σ',
    get_inject_function ACTION_NOISE 1 [0%Z] demo_env [0; 1]%nat
      (demo_state [1] [1]) = (Ret t', σ')
    ∧ ∀ i, i ∈ [0%Z] →
        ∃ l a ag,
          t' !! Z.to_nat i = Some l ∧ heap σ' !! l = Some a
          ∧ agents demo_env !! Z.to_nat i = Some ag ∧ within (u_range ag) a.
Proof.
  apply (action_within_control_range 1 [0%Z] demo_env [0; 1]%nat
           (demo_state [1] [1])).
  - intros ag Hag. cbn in Hag.
    repeat (apply elem_of_cons in Hag as [->|Hag]); try done.
    by apply elem_of_nil in Hag.
  - by repeat constructor.
  - apply wf_Forall. repeat constructor; vm_compute; eauto.
  - split; [cbn; lia|].
    split; [|intros _]; repeat constructor; vm_compute; eauto.
Defined.

(** C4, where it fails: at magnitude zero the action injector still clips,
    so the action [2] of an agent with control range 1 comes back as [1]. *)
Lemma zero_noise_counterexample :
  valid_targets ACTION_NOISE [0%Z] demo_env [0; 1]%nat
  ∧ ∃ t' σ',
      get_inject_function ACTION_NOISE 0 [0%Z] demo_env [0; 1]%nat
        (demo_state [q 2 1] [1]) = (Ret t', σ')
      ∧ contents σ' t' ≠ contents (demo_state [q 2 1] [1]) [0; 1]%nat.
Proof.
  split.
  - split; [cbn; lia|].
    split; [|intros _]; repeat constructor; vm_compute; eauto.
  - eexists _, _. split; [vm_compute; reflexivity|].
    vm_compute. by intros [= H].
Qed.

(** C4, amended: at magnitude zero, on a valid call, the observation
    injector returns its input tuple and leaves every array as it was; the
    action injector returns a tuple with the same contents as its input
    provided every targeted action already lies within its agent's control
    range, and leaves every array of the input as it was. *)
Theorem zero_noise_identity idx env t σ :
  wf σ t →
  (valid_targets OBS_NOISE idx env t →
   ∃ σ', get_inject_function OBS_NOISE 0 idx env t σ = (Ret t, σ')
         ∧ heap σ' = heap σ)
  ∧ (valid_targets ACTION_NOISE idx env t → targets_within env idx σ t →
     ∃ t' σ', get_inject_function ACTION_NOISE 0 idx env t σ = (Ret t', σ')
              ∧ contents σ' t' = contents σ t
              ∧ ∀ l, is_Some (heap σ !! l) → heap σ' !! l = heap σ !! l).
Proof.
  intros Hwf. split.
  - intros Hvalid.
    destruct (get_inject_function_returns _ 0 idx env t σ Hvalid Hwf)
      as (t' & σ' & Hrun).
    destruct Hvalid as (Hlen & _ & _).
    pose proof Hrun as Hrun'.
    rewrite get_inject_function_pass in Hrun' by done.
    pose proof (inject_noise_in_observation_for_frame _ _ _ _ _ _ Hrun')
      as [Hret _].
    rewrite (Hret t' eq_refl) in Hrun. exists σ'. split; [done|].
    by eapply inject_noise_in_observation_for_zero.
  - intros Hvalid Hin.
    destruct (get_inject_function_returns _ 0 idx env t σ Hvalid Hwf)
      as (t' & σ' & Hrun).
    exists t', σ'. split; [done|].
    destruct Hvalid as (Hlen & _ & _).
    rewrite get_inject_function_pass in Hrun by done.
    by eapply inject_noise_in_action_for_zero.
Qed.

Lemma zero_noise_identity_witness :
  (∃ σ', get_inject_function OBS_NOISE 0 [0%Z] demo_env [0; 1]%nat
           (demo_state [q 2 1] [1]) = (Ret [0; 1]%nat, σ')
         ∧ heap σ' = heap (demo_state [q 2 1] [1]))
  ∧ (∃ t' σ', get_inject_function ACTION_NOISE 0 [0%Z] demo_env [0; 1]%nat
                (demo_state [q 1 2] [1]) = (Ret t', σ')
              ∧ contents σ' t' = contents (demo_state [q 1 2] [1]) [0; 1]%nat
              ∧ ∀ l, is_Some (heap (demo_state [q 1 2] [1]) !! l) →
                     heap σ' !! l = heap (demo_state [q 1 2] [1]) !! l).
Proof.
  assert (∀ a, wf (demo_state a [1]) [0; 1]%nat) as Hwf.
  { intros a. apply wf_Forall. repeat constructor; vm_compute; eauto. }
  assert (∀ m, valid_targets m [0%Z] demo_env [0; 1]%nat) as Hvalid.
  { split; [cbn; lia|].
    split; [|intros _]; repeat constructor; vm_compute; eauto. }
  split.
  - by apply (zero_noise_identity [0%Z] demo_env [0; 1]%nat
                (demo_state [q 2 1] [1])).
  - apply (zero_noise_identity [0%Z] demo_env [0; 1]%nat
             (demo_state [q 1 2] [1])); [done..|].
    intros i p k ag a ->%list_elem_of_singleton [= <-] [= <-] [= <-] [= <-].
    repeat constructor; by vm_compute.
Defined.

(** * Properties of the rollouts *)

Lemma bind_Ret {S A B} (c : M S A) (k : A → M S B) w b w' :
  (let* x := c in k x) w = (Ret b, w') →
  ∃ a w1, c w = (Ret a, w1) ∧ k a w1 = (Ret b, w').
Proof.
  unfold bind. destruct (c w) as [[a|e] w1]; [|done]. intros H. by exists a, w1.
Qed.

Lemma bind_run {S A B} (c : M S A) (k : A → M S B) w a w1 :
  c w = (Ret a, w1) → (let* x := c in k x) w = k a w1.
Proof. unfold bind. by intros ->. Qed.

Lemma ret_Ret {S A} (a b : A) (w w' : S) : ret a w = (Ret b, w') → b = a ∧ w' = w.
Proof. by intros [= <- <-]. Qed.

Lemma getitem_Ret {S A} (xs : list A) k x (w w' : S) :
  getitem xs k w = (Ret x, w') → w' = w.
Proof. by intros [-> _]%getitem_inv. Qed.

Lemma getitem_0_Ret {S A} (xs : list A) x (w w' : S) :
  getitem xs 0 w = (Ret x, w') → xs !! 0%nat = Some x ∧ w' = w.
Proof.
  intros [-> [(p & y & Hp & Hy & [= <-])|[_ ?]]]%getitem_inv; [|done].
  rewrite py_index_nonneg in Hp by done. case_decide; [|done].
  by injection Hp as <-.
Qed.

Lemma steps_app tr1 tr2 : steps (tr1 ++ tr2) = (steps tr1 + steps tr2)%nat.
Proof.
  induction tr1 as [|ev tr1 IH]; [done|]. destruct ev; cbn; by rewrite ?IH.
Qed.

Lemma total_reward_from_app acc tr1 tr2 :
  total_reward_from acc (tr1 ++ tr2)
  = total_reward_from (total_reward_from acc tr1) tr2.
Proof.
  revert acc. induction tr1 as [|ev tr1 IH]; intros acc; [done|].
  destruct ev; cbn; by rewrite ?IH.
Qed.

Section rollout_properties.
Context {E Frame Info : Type}.
Implicit Types (w : @world E) (s : @locals Frame).

Lemma lift_py_Ret {A} (c : M state A) w a w' :
  lift_py c w = (Ret a, w') →
  ∃ σ, c (py w) = (Ret a, σ) ∧ w' = World σ (ext w) (trace w).
Proof.
  unfold lift_py. destruct (c (py w)) as [r σ]. intros [= -> <-]. by exists σ.
Qed.

Lemma lift_ext_Ret {A} (c : M (state * E) A) w a w' :
  lift_ext c w = (Ret a, w') → trace w' = trace w.
Proof.
  unfold lift_ext. destruct (c (py w, ext w)) as [r [σ e]]. by intros [= -> <-].
Qed.

Lemma emit_Ret ev w u w' :
  emit ev w = (Ret u, w') → trace w' = trace w ++ [ev] ∧ py w' = py w.
Proof. by intros [= <- <-]. Qed.

Lemma lift_ext_run {A} (c : M (state * E) A) w a w' :
  lift_ext c w = (Ret a, w') →
  ∃ σ e, c (py w, ext w) = (Ret a, (σ, e)) ∧ w' = World σ e (trace w).
Proof.
  unfold lift_ext. destruct (c (py w, ext w)) as [r [σ e]].
  intros [= -> <-]. by exists σ, e.
Qed.

Lemma emit_run ev w u w' :
  emit ev w = (Ret u, w') → w' = World (py w) (ext w) (trace w ++ [ev]).
Proof. by intros [= <-]. Qed.

Section episodes_properties.
Context (render get_obs get_actions : bool)
        (trainer : option (@Trainer E))
        (action_callback : option (list loc → M (state * E) (list loc)))
        (the_env : @Env E Frame Info)
        (inject : bool) (inject_mode : InjectMode)
        (agents_to_inject : list Z) (noise_delta : Qc).

Ltac unfold_while_body H := unfold while_body in H.

Local Abbreviation inject_function :=
  (inject_function the_env inject_mode agents_to_inject noise_delta).
Local Abbreviation choose_action := (choose_action trainer action_callback).
Local Abbreviation while_body :=
  (while_body render get_obs get_actions trainer action_callback the_env
     inject inject_mode agents_to_inject noise_delta).
Local Abbreviation while_not_done :=
  (while_not_done render get_obs get_actions trainer action_callback the_env
     inject inject_mode agents_to_inject noise_delta).
Local Abbreviation episode :=
  (episode render get_obs get_actions trainer action_callback the_env
     inject inject_mode agents_to_inject noise_delta).
Local Abbreviation for_episodes :=
  (for_episodes render get_obs get_actions trainer action_callback the_env
     inject inject_mode agents_to_inject noise_delta).

(** The blocks of the loop body. *)

Lemma inject_block (b : bool) (mk : list loc → list loc → event) x w o w1 :
  (if b then
     let* o := lift_py (inject_function x) in
     let* _ := emit (mk x o) in ret o
   else ret x) w = (Ret o, w1) →
  trace w1 = trace w ++ (if b then [mk x o] else [])
  ∧ (if b then ∃ σ, inject_function x (py w) = (Ret o, σ) else o = x).
Proof.
  destruct b.
  - intros (o' & w2 & (σ & Hinj & ->)%lift_py_Ret & Hrest)%bind_Ret.
    apply bind_Ret in Hrest as (u & w3 & [Htr _]%emit_Ret & [-> ->]%ret_Ret).
    split; [done|]. by exists σ.
  - intros [-> ->]%ret_Ret. by rewrite app_nil_r.
Qed.

Lemma log_block (b : bool) (mk : list loc → event) (log : list (list loc)) x w log' w1 :
  (if b then let* _ := emit (mk x) in ret (log ++ [x]) else ret log) w
  = (Ret log', w1) →
  trace w1 = trace w ++ (if b then [mk x] else [])
  ∧ log' = log ++ (if b then [x] else []) ∧ py w1 = py w.
Proof.
  destruct b.
  - intros (u & w2 & [Htr Hpy]%emit_Ret & [-> ->]%ret_Ret)%bind_Ret. done.
  - intros [-> ->]%ret_Ret. by rewrite !app_nil_r.
Qed.

Lemma query_block x w act w1 :
  choose_action x w = (Ret act, w1) → trace w1 = trace w.
Proof.
  unfold choose_action. destruct trainer as [tr|]; [apply lift_ext_Ret|].
  destruct action_callback as [cb|]; [apply lift_ext_Ret|done].
Qed.

Lemma render_block (frames : list Frame) w frames' w1 :
  (if render then
     let* frame := lift_ext (try_render_at the_env) in
     let* _ := emit Render in ret (frames ++ [frame])
   else ret frames) w = (Ret frames', w1) →
  trace w1 = trace w ++ (if render then [Render] else []).
Proof.
  destruct render.
  - intros (f & w2 & Htr%lift_ext_Ret & Hrest)%bind_Ret.
    apply bind_Ret in Hrest as (u & w3 & [Htr' _]%emit_Ret & [-> ->]%ret_Ret).
    by rewrite Htr', Htr.
  - intros [-> ->]%ret_Ret. by rewrite app_nil_r.
Qed.

(** The operations of one completed pass of the loop body, in order. *)
Ltac pass_inversion H :=
  let Hobs := fresh "Hobs" in
  let Hact := fresh "Hact" in
  let Hquery := fresh "Hquery" in
  let Hstep := fresh "Hstep" in
  unfold_while_body H;
  apply bind_Ret in H as (?obs & ?w1 & Hobs & H);
  apply bind_Ret in H as (?olog & ?w2 & (?Htr2 & ?Holog & _)%log_block & H);
  apply bind_Ret in H as (?act0 & ?w3 & Hquery & H);
  apply bind_Ret in H as (?u & ?w4 & [?Htr4 _]%emit_Ret & H);
  apply bind_Ret in H as (?act & ?w5 & Hact & H);
  apply bind_Ret in H as (?alog & ?w6 & (?Htr6 & ?Halog & _)%log_block & H);
  apply bind_Ret in H as ([[[?obss ?rews] ?ds] ?infos] & ?w7 & Hstep & H);
  apply bind_Ret in H as (?u & ?w8 & [?Htr8 _]%emit_Ret & H);
  apply bind_Ret in H as (?obs' & ?w9 & [?Hobs' ->]%getitem_0_Ret & H);
  apply bind_Ret in H as (?reward & ?w10 & [?Hreward ->]%getitem_0_Ret & H);
  apply bind_Ret in H as (?d & ?w11 & [?Hd ->]%getitem_0_Ret & H);
  apply bind_Ret in H as (?info & ?w12 & ->%getitem_Ret & H);
  apply bind_Ret in H as (?u & ?w13 & [?Htr13 _]%emit_Ret & H);
  apply bind_Ret in H as (?frames & ?w14 & ?Htr14%render_block & [-> ->]%ret_Ret);
  pose proof (inject_block _ _ _ _ _ _ Hobs) as [?Htr1 ?Hinj1];
  pose proof (inject_block _ _ _ _ _ _ Hact) as [?Htr5 ?Hinj5];
  pose proof (query_block _ _ _ _ Hquery) as ?Htr3;
  pose proof (lift_ext_Ret _ _ _ _ Hstep) as ?Htr7.

(** The blocks of the loop body, with the world each leaves. *)

Lemma inject_pass (b : bool) (mk : list loc → list loc → event) x w o w1 :
  (if b then
     let* o := lift_py (inject_function x) in
     let* _ := emit (mk x o) in ret o
   else ret x) w = (Ret o, w1) →
  ∃ σ1,
    w1 = World σ1 (ext w) (trace w ++ (if b then [mk x o] else []))
    ∧ (if b then inject_function x (py w) = (Ret o, σ1)
       else o = x ∧ σ1 = py w).
Proof.
  destruct b.
  - intros (o' & w2 & (σ & Hinj & ->)%lift_py_Ret & Hrest)%bind_Ret.
    apply bind_Ret in Hrest as (u & w3 & ->%emit_run & [-> ->]%ret_Ret).
    by exists σ.
  - intros [-> ->]%ret_Ret. exists (py w). rewrite app_nil_r. by destruct w.
Qed.

Lemma log_pass (b : bool) (mk : list loc → event) (log : list (list loc)) x w log' w1 :
  (if b then let* _ := emit (mk x) in ret (log ++ [x]) else ret log) w
  = (Ret log', w1) →
  w1 = World (py w) (ext w) (trace w ++ (if b then [mk x] else []))
  ∧ log' = log ++ (if b then [x] else []).
Proof.
  destruct b.
  - by intros (u & w2 & ->%emit_run & [-> ->]%ret_Ret)%bind_Ret.
  - intros [-> ->]%ret_Ret. rewrite !app_nil_r. by destruct w.
Qed.

Lemma query_pass x w act w1 :
  choose_action x w = (Ret act, w1) →
  ∃ σ e,
    w1 = World σ e (trace w)
    ∧ match trainer, action_callback with
      | Some tr, _ => compute_single_action tr x (py w, ext w) = (Ret act, (σ, e))
      | None, Some callback => callback x (py w, ext w) = (Ret act, (σ, e))
      | None, None => False
      end.
Proof.
  unfold choose_action. destruct trainer as [tr|].
  { intros (σ & e & ? & ->)%lift_ext_run. by exists σ, e. }
  destruct action_callback as [callback|]; [|done].
  intros (σ & e & ? & ->)%lift_ext_run. by exists σ, e.
Qed.

Lemma render_pass (frames : list Frame) w frames' w1 :
  (if render then
     let* frame := lift_ext (try_render_at the_env) in
     let* _ := emit Render in ret (frames ++ [frame])
   else ret frames) w = (Ret frames', w1) →
  trace w1 = trace w ++ (if render then [Render] else [])
  ∧ if render
    then ∃ frame,
           try_render_at the_env (py w, ext w) = (Ret frame, (py w1, ext w1))
           ∧ frames' = frames ++ [frame]
    else py w1 = py w ∧ ext w1 = ext w ∧ frames' = frames.
Proof.
  destruct render.
  - intros (f & w2 & (σ & e & Hf & ->)%lift_ext_run & Hrest)%bind_Ret.
    apply bind_Ret in Hrest as (u & w3 & ->%emit_run & [-> ->]%ret_Ret).
    split; [done|]. by exists f.
  - intros [-> ->]%ret_Ret. by rewrite app_nil_r.
Qed.

(** C6: a pass of the episode loop that completes is this chain of
    operations, each in the store and the collaborators' state that the
    one before it left, from those of the start of the pass to those of its
    end.  (1) When injection is on and the mode targets observations, the
    injector runs on the observation, in the store of the start.  (3) The
    trainer, or without a trainer the callback, computes the action on the
    observation that (1) gave, in the store that (1) left.  (4) When
    injection is on and the mode targets actions, the injector runs on that
    action, in the store the policy left.  (6) The environment is stepped
    with the action that (4) gave, in the store that (4) left, and the
    reward it returns is added to the sum.  The environment renders last,
    when asked to.  (2), (5) The logs, when collected, grow by the
    observation that (1) gave and by the action that (4) gave; the trace
    has the operations in the order (1) to (6). *)
Theorem while_body_order s w s' w' :
  while_body s w = (Ret s', w') →
  ∃ obs σ1 act0 σ2 e2 act σ3 obss rews ds infos σ4 e4 reward,
    (if inject && is_obs inject_mode
     then inject_function (observation s) (py w) = (Ret obs, σ1)
     else obs = observation s ∧ σ1 = py w)
    ∧ match trainer, action_callback with
      | Some tr, _ =>
          compute_single_action tr obs (σ1, ext w) = (Ret act0, (σ2, e2))
      | None, Some callback =>
          callback obs (σ1, ext w) = (Ret act0, (σ2, e2))
      | None, None => False
      end
    ∧ (if inject && is_action inject_mode
       then inject_function act0 σ2 = (Ret act, σ3)
       else act = act0 ∧ σ3 = σ2)
    ∧ vector_step the_env [act] (σ3, e2) = (Ret (obss, rews, ds, infos), (σ4, e4))
    ∧ obss !! 0%nat = Some (observation s')
    ∧ rews !! 0%nat = Some reward
    ∧ ds !! 0%nat = Some (done s')
    ∧ reward_sum s' = reward_sum s + reward
    ∧ (if render
       then ∃ frame,
              try_render_at the_env (σ4, e4) = (Ret frame, (py w', ext w'))
              ∧ frame_list s' = frame_list s ++ [frame]
       else py w' = σ4 ∧ ext w' = e4 ∧ frame_list s' = frame_list s)
    ∧ observations_this_episode s'
      = observations_this_episode s ++ (if get_obs then [obs] else [])
    ∧ actions_this_episode s'
      = actions_this_episode s ++ (if get_actions then [act] else [])
    ∧ i s' = S (i s)
    ∧ trace w' =
        trace w
        ++ (if inject && is_obs inject_mode
            then [InjectObs (observation s) obs] else [])
        ++ (if get_obs then [LogObs obs] else [])
        ++ [Query obs act0]
        ++ (if inject && is_action inject_mode then [InjectAct act0 act] else [])
        ++ (if get_actions then [LogAct act] else [])
        ++ [Step act; Accumulate reward]
        ++ (if render then [Render] else []).
Proof.
  intros H. unfold_while_body H.
  apply bind_Ret in H as (obs & w1 & (σ1 & -> & Hinj1)%inject_pass & H).
  apply bind_Ret in H as (olog & w2 & [-> ->]%log_pass & H).
  apply bind_Ret in H as (act0 & w3 & (σ2 & e2 & -> & Hquery)%query_pass & H).
  apply bind_Ret in H as (u4 & w4 & ->%emit_run & H).
  apply bind_Ret in H as (act & w5 & (σ3 & -> & Hinj2)%inject_pass & H).
  apply bind_Ret in H as (alog & w6 & [-> ->]%log_pass & H).
  apply bind_Ret in H
    as ([[[obss rews] ds] infos] & w7 & (σ4 & e4 & Hstep & ->)%lift_ext_run & H).
  apply bind_Ret in H as (u8 & w8 & ->%emit_run & H).
  apply bind_Ret in H as (obs' & w9 & [Hobs' ->]%getitem_0_Ret & H).
  apply bind_Ret in H as (reward & w10 & [Hreward ->]%getitem_0_Ret & H).
  apply bind_Ret in H as (d & w11 & [Hd ->]%getitem_0_Ret & H).
  apply bind_Ret in H as (info & w12 & ->%getitem_Ret & H).
  apply bind_Ret in H as (u13 & w13 & ->%emit_run & H).
  apply bind_Ret in H as (frames & w14 & [Htr Hrender]%render_pass & [-> ->]%ret_Ret).
  cbn [py ext trace] in *.
  exists obs, σ1, act0, σ2, e2, act, σ3, obss, rews, ds, infos, σ4, e4, reward.
  cbn [observations_this_episode actions_this_episode reward_sum i done
       observation frame_list].
  repeat (split; [done|]).
  rewrite Htr. by rewrite <- !app_assoc.
Qed.

(** ** The trajectory logs grow with the steps *)

Lemma while_body_summary s w s' w' :
  while_body s w = (Ret s', w') →
  ∃ tr,
    trace w' = trace w ++ tr ∧ no_reset tr ∧ steps tr = 1%nat
    ∧ i s' = S (i s)
    ∧ reward_sum s' = total_reward_from (reward_sum s) tr
    ∧ length (observations_this_episode s')
      = (length (observations_this_episode s) + if get_obs then 1 else 0)%nat
    ∧ length (actions_this_episode s')
      = (length (actions_this_episode s) + if get_actions then 1 else 0)%nat.
Proof.
  intros H. pass_inversion H. subst.
  cbn [observations_this_episode actions_this_episode reward_sum i].
  eexists. split.
  { rewrite Htr14, Htr13, Htr8, Htr7, Htr6, Htr5, Htr4, Htr3, Htr2, Htr1.
    rewrite <- !app_assoc. reflexivity. }
  rewrite !length_app.
  destruct (inject && is_obs inject_mode), get_obs,
    (inject && is_action inject_mode), get_actions, render;
    (split; [repeat constructor; done|done]).
Qed.

Lemma while_not_done_summary fuel s w s' w' :
  while_not_done fuel s w = (Ret s', w') →
  ∃ tr,
    trace w' = trace w ++ tr ∧ no_reset tr
    ∧ (done s = false → 1 ≤ steps tr)%nat
    ∧ i s' = (i s + steps tr)%nat
    ∧ reward_sum s' = total_reward_from (reward_sum s) tr
    ∧ length (observations_this_episode s')
      = (length (observations_this_episode s) + if get_obs then steps tr else 0)%nat
    ∧ length (actions_this_episode s')
      = (length (actions_this_episode s) + if get_actions then steps tr else 0)%nat.
Proof.
  revert s w. induction fuel as [|fuel IH]; intros s w; cbn [while_not_done].
  - destruct (done s) eqn:Hd; [|done]. intros [-> ->]%ret_Ret.
    exists []. rewrite app_nil_r. repeat split; try done; try constructor;
      try (cbn; lia); destruct get_obs, get_actions; cbn; lia.
  - destruct (done s) eqn:Hd.
    + intros [-> ->]%ret_Ret.
      exists []. rewrite app_nil_r. repeat split; try done; try constructor;
        try (cbn; lia); destruct get_obs, get_actions; cbn; lia.
    + intros (s1 & w1 & Hbody & Hloop)%bind_Ret.
      apply while_body_summary in Hbody
        as (tr1 & Htr1 & Hnr1 & Hst1 & Hi1 & Hsum1 & Hobs1 & Hact1).
      apply IH in Hloop
        as (tr2 & Htr2 & Hnr2 & _ & Hi2 & Hsum2 & Hobs2 & Hact2).
      exists (tr1 ++ tr2).
      rewrite Htr2, Htr1, Hi2, Hi1, Hsum2, Hsum1, Hobs2, Hobs1, Hact2, Hact1.
      rewrite steps_app, Hst1, total_reward_from_app, app_assoc.
      repeat split; try done; try (by apply Forall_app); try lia;
        destruct get_obs, get_actions; lia.
Qed.

Lemma episode_summary fuel acc w acc' w' :
  episode fuel acc w = (Ret acc', w') →
  ∃ ep,
    trace w' = trace w ++ Reset :: ep ∧ no_reset ep ∧ (1 ≤ steps ep)%nat
    ∧ rewards acc' = rewards acc ++ [total_reward ep]
    ∧ (if get_obs
       then ∃ log, observations acc' = observations acc ++ [log]
                   ∧ length log = steps ep
       else observations acc' = observations acc)
    ∧ (if get_actions
       then ∃ log, actions acc' = actions acc ++ [log] ∧ length log = steps ep
       else actions acc' = actions acc).
Proof.
  unfold episode.
  intros (obss & w1 & Htr1%lift_ext_Ret & H)%bind_Ret.
  apply bind_Ret in H as (u & w2 & [Htr2 _]%emit_Ret & H).
  apply bind_Ret in H as (obs & w3 & ->%getitem_Ret & H).
  apply bind_Ret in H as (frames & w4 & Hrender & H).
  apply bind_Ret in H as (s & w5 & Hloop & [-> ->]%ret_Ret).
  assert (trace w4 = trace w2 ++ (if render then [Render] else [])) as Htr4.
  { destruct render.
    - apply bind_Ret in Hrender as (f & w6 & Htr6%lift_ext_Ret & Hrender).
      apply bind_Ret in Hrender as (u' & w7 & [Htr7 _]%emit_Ret & [-> ->]%ret_Ret).
      by rewrite Htr7, Htr6.
    - apply ret_Ret in Hrender as [-> ->]. by rewrite app_nil_r. }
  apply while_not_done_summary in Hloop
    as (tr & Htr & Hnr & Hst & Hi & Hsum & Hobs & Hact).
  cbn [done i reward_sum observations_this_episode actions_this_episode length]
    in Hst, Hi, Hsum, Hobs, Hact.
  exists ((if render then [Render] else []) ++ tr).
  cbn [rewards observations actions].
  split. { rewrite Htr, Htr4, Htr2, Htr1. by rewrite <- !app_assoc. }
  split. { apply Forall_app. split; [|done]. destruct render; by repeat constructor. }
  assert (steps ((if render then [Render] else []) ++ tr) = steps tr) as ->.
  { by destruct render. }
  assert (total_reward ((if render then [Render] else []) ++ tr)
          = total_reward_from 0 tr) as ->.
  { by destruct render. }
  split; [by apply Hst|]. split; [by rewrite Hsum|]. split.
  - destruct get_obs; [|done]. eexists. split; [done|]. by rewrite Hobs.
  - destruct get_actions; [|done]. eexists. split; [done|]. by rewrite Hact.
Qed.

Lemma episodes_trace_app eps1 eps2 :
  episodes_trace (eps1 ++ eps2) = episodes_trace eps1 ++ episodes_trace eps2.
Proof. unfold episodes_trace. by rewrite fmap_app, concat_app. Qed.

Lemma for_episodes_summary n fuel acc w acc' w' :
  for_episodes n fuel acc w = (Ret acc', w') →
  ∃ eps,
    trace w' = trace w ++ episodes_trace eps ∧ length eps = n
    ∧ Forall (λ ep, no_reset ep ∧ (1 ≤ steps ep)%nat) eps
    ∧ rewards acc' = rewards acc ++ (total_reward <$> eps)
    ∧ (if get_obs
       then ∃ logs, observations acc' = observations acc ++ logs
                    ∧ length <$> logs = steps <$> eps
       else observations acc' = observations acc)
    ∧ (if get_actions
       then ∃ logs, actions acc' = actions acc ++ logs
                    ∧ length <$> logs = steps <$> eps
       else actions acc' = actions acc).
Proof.
  revert acc w. induction n as [|n IH]; intros acc w; cbn [for_episodes].
  - intros [-> ->]%ret_Ret. exists []. cbn. rewrite !app_nil_r.
    repeat split; try done.
    + destruct get_obs; [|done]. exists []. by rewrite app_nil_r.
    + destruct get_actions; [|done]. exists []. by rewrite app_nil_r.
  - intros (acc1 & w1 & Hep & Hrest)%bind_Ret.
    apply episode_summary in Hep as (ep & Htr1 & Hnr & Hst & Hrew1 & Hobs1 & Hact1).
    apply IH in Hrest as (eps & Htr2 & Hlen & Hall & Hrew2 & Hobs2 & Hact2).
    exists (ep :: eps). rewrite Htr2, Htr1, Hrew2, Hrew1.
    split. { change (ep :: eps) with ([ep] ++ eps).
             rewrite episodes_trace_app, <- !app_assoc. cbn.
             by rewrite app_nil_r. }
    split; [by cbn; rewrite Hlen|]. split; [by constructor|].
    split; [by rewrite <- app_assoc|]. split.
    + destruct get_obs; [|congruence].
      destruct Hobs1 as (log & Ho1 & Hlog). destruct Hobs2 as (logs & Ho2 & Hlogs).
      exists (log :: logs). split; [by rewrite Ho2, Ho1, <- app_assoc|].
      cbn. by rewrite Hlog, Hlogs.
    + destruct get_actions; [|congruence].
      destruct Hact1 as (log & Ha1 & Hlog). destruct Hact2 as (logs & Ha2 & Hlogs).
      exists (log :: logs). split; [by rewrite Ha2, Ha1, <- app_assoc|].
      cbn. by rewrite Hlog, Hlogs.
Qed.

(** ** The bound on the loop is no restriction *)

Lemma while_not_done_fuel fuel fuel' s w s' w' :
  while_not_done fuel s w = (Ret s', w') → (fuel ≤ fuel')%nat →
  while_not_done fuel' s w = (Ret s', w').
Proof.
  revert fuel' s w. induction fuel as [|fuel IH]; intros fuel' s w.
  - cbn [while_not_done]. destruct (done s) eqn:Hd; [|done].
    intros Hrun _. destruct fuel'; cbn [while_not_done]; by rewrite Hd.
  - cbn [while_not_done]. destruct (done s) eqn:Hd.
    + intros Hrun _. destruct fuel'; cbn [while_not_done]; by rewrite Hd.
    + intros (s1 & w1 & Hbody & Hloop)%bind_Ret Hle.
      destruct fuel' as [|fuel']; [lia|]. cbn [while_not_done]. rewrite Hd.
      rewrite (bind_run _ _ _ _ _ Hbody). apply IH; [done|lia].
Qed.

Lemma episode_fuel fuel fuel' acc w acc' w' :
  episode fuel acc w = (Ret acc', w') → (fuel ≤ fuel')%nat →
  episode fuel' acc w = (Ret acc', w').
Proof.
  unfold episode. intros H Hle.
  apply bind_Ret in H as (obss & w1 & H1 & H). rewrite (bind_run _ _ _ _ _ H1).
  apply bind_Ret in H as (u & w2 & H2 & H). rewrite (bind_run _ _ _ _ _ H2).
  apply bind_Ret in H as (obs & w3 & H3 & H). rewrite (bind_run _ _ _ _ _ H3).
  apply bind_Ret in H as (frames & w4 & H4 & H). rewrite (bind_run _ _ _ _ _ H4).
  apply bind_Ret in H as (s & w5 & H5 & H).
  by rewrite (bind_run _ _ _ _ _ (while_not_done_fuel _ _ _ _ _ _ H5 Hle)).
Qed.

Lemma for_episodes_fuel n fuel fuel' acc w acc' w' :
  for_episodes n fuel acc w = (Ret acc', w') → (fuel ≤ fuel')%nat →
  for_episodes n fuel' acc w = (Ret acc', w').
Proof.
  revert acc w. induction n as [|n IH]; intros acc w; cbn [for_episodes]; [done|].
  intros (acc1 & w1 & Hep & Hrest)%bind_Ret Hle.
  rewrite (bind_run _ _ _ _ _ (episode_fuel _ _ _ _ _ _ Hep Hle)). by apply IH.
Qed.

(** ** The frames of an episode *)

Section frames.
Context (rendered : E → list Frame).
Hypothesis recorded_frames :
  records_frames rendered trainer action_callback the_env.

Lemma while_body_rendered s w s' w' :
  while_body s w = (Ret s', w') →
  ∃ frames,
    frame_list s' = frame_list s ++ frames
    ∧ rendered (ext w') = rendered (ext w) ++ frames
    ∧ length frames = (if render then 1 else 0)%nat.
Proof.
  destruct recorded_frames as (Hrender & _ & Hstep & Htrainer & Hcallback).
  intros H. unfold_while_body H.
  apply bind_Ret in H as (obs & w1 & (σ1 & -> & _)%inject_pass & H).
  apply bind_Ret in H as (olog & w2 & [-> _]%log_pass & H).
  apply bind_Ret in H as (act0 & w3 & (σ2 & e2 & -> & Hquery)%query_pass & H).
  apply bind_Ret in H as (u4 & w4 & ->%emit_run & H).
  apply bind_Ret in H as (act & w5 & (σ3 & -> & _)%inject_pass & H).
  apply bind_Ret in H as (alog & w6 & [-> _]%log_pass & H).
  apply bind_Ret in H
    as ([[[obss rews] ds] infos] & w7 & (σ4 & e4 & Hs & ->)%lift_ext_run & H).
  apply bind_Ret in H as (u8 & w8 & ->%emit_run & H).
  apply bind_Ret in H as (obs' & w9 & ->%getitem_Ret & H).
  apply bind_Ret in H as (reward & w10 & ->%getitem_Ret & H).
  apply bind_Ret in H as (d & w11 & ->%getitem_Ret & H).
  apply bind_Ret in H as (info & w12 & ->%getitem_Ret & H).
  apply bind_Ret in H as (u13 & w13 & ->%emit_run & H).
  apply bind_Ret in H as (frames & w14 & [_ Hr]%render_pass & [-> ->]%ret_Ret).
  cbn [py ext trace frame_list] in *.
  assert (rendered e2 = rendered (ext w)) as He2.
  { destruct trainer as [tr|]; [by eapply Htrainer|].
    destruct action_callback as [callback|]; [by eapply Hcallback|done]. }
  apply Hstep in Hs. destruct render.
  - destruct Hr as (frame & Hframe%Hrender & ->). exists [frame].
    by rewrite Hframe, Hs, He2.
  - destruct Hr as (_ & -> & ->). exists []. by rewrite !app_nil_r, Hs, He2.
Qed.

Lemma while_not_done_rendered fuel s w s' w' :
  while_not_done fuel s w = (Ret s', w') →
  ∃ frames,
    frame_list s' = frame_list s ++ frames
    ∧ rendered (ext w') = rendered (ext w) ++ frames
    ∧ (length frames + (if render then i s else 0)
       = if render then i s' else 0)%nat.
Proof.
  revert s w. induction fuel as [|fuel IH]; intros s w; cbn [while_not_done].
  - destruct (done s); [|done]. intros [-> ->]%ret_Ret.
    exists []. by rewrite !app_nil_r.
  - destruct (done s).
    { intros [-> ->]%ret_Ret. exists []. by rewrite !app_nil_r. }
    intros (s1 & w1 & Hbody & Hloop)%bind_Ret.
    pose proof (while_body_summary _ _ _ _ Hbody) as (_ & _ & _ & _ & Hi & _).
    apply while_body_rendered in Hbody as (frames1 & Hf1 & Hr1 & Hlen1).
    apply IH in Hloop as (frames2 & Hf2 & Hr2 & Hlen2).
    exists (frames1 ++ frames2). rewrite Hf2, Hf1, Hr2, Hr1, <- !app_assoc.
    split; [done|]. split; [done|].
    rewrite length_app. rewrite Hi in Hlen2. destruct render; lia.
Qed.

(** One episode: its stretch of the trace, its total reward, the frames
    the environment rendered in it, and what becomes of the best episode
    so far. *)
Lemma episode_best fuel acc w acc' w' :
  episode fuel acc w = (Ret acc', w') →
  ∃ ep frames,
    trace w' = trace w ++ Reset :: ep
    ∧ rewards acc' = rewards acc ++ [total_reward ep]
    ∧ rendered (ext w') = rendered (ext w) ++ frames
    ∧ length frames = (if render then S (steps ep) else 0%nat)
    ∧ (best_reward acc', best_gif acc')
      = if match best_reward acc with
           | None => true
           | Some best => bool_decide (best < total_reward ep)
           end
        then (Some (total_reward ep), Some frames)
        else (best_reward acc, best_gif acc).
Proof.
  destruct recorded_frames as (Hrender & Hreset & _).
  unfold episode.
  intros (obss & w1 & (σ1 & e1 & Hr1%Hreset & ->)%lift_ext_run & H)%bind_Ret.
  apply bind_Ret in H as (u & w2 & ->%emit_run & H).
  apply bind_Ret in H as (obs & w3 & ->%getitem_Ret & H).
  apply bind_Ret in H as (frames0 & w4 & [Htr4 Hr4]%(render_pass []) & H).
  apply bind_Ret in H as (s & w5 & Hloop & [-> ->]%ret_Ret).
  cbn [py ext trace] in *.
  assert (rendered (ext w4) = rendered (ext w) ++ frames0
          ∧ length frames0 = if render then 1%nat else 0%nat) as [Hr0 Hlen0].
  { destruct render.
    - destruct Hr4 as (frame & Hframe%Hrender & ->). by rewrite Hframe, Hr1.
    - destruct Hr4 as (_ & -> & ->). by rewrite app_nil_r, Hr1. }
  pose proof (while_not_done_rendered _ _ _ _ _ Hloop)
    as (frames & Hfr & Hrd & Hlen).
  apply while_not_done_summary in Hloop
    as (tr & Htr & Hnr & Hst & Hi & Hsum & Hobs & Hact).
  cbn [done i reward_sum frame_list] in Hi, Hsum, Hfr, Hlen.
  exists ((if render then [Render] else []) ++ tr), (frame_list s).
  cbn [rewards best_reward best_gif].
  assert (steps ((if render then [Render] else []) ++ tr) = steps tr) as ->.
  { by destruct render. }
  assert (total_reward ((if render then [Render] else []) ++ tr)
          = reward_sum s) as ->.
  { rewrite Hsum. by destruct render. }
  split. { rewrite Htr, Htr4. by rewrite <- !app_assoc. }
  split; [done|]. split; [by rewrite Hrd, Hr0, Hfr, app_assoc|]. split.
  { rewrite Hfr, length_app, Hlen0. rewrite Hi in Hlen. destruct render; lia. }
  by destruct (match best_reward acc with None => _ | Some _ => _ end).
Qed.

(** The best episode so far is the first with the highest reward, and
    the frames kept are those rendered in it. *)
Lemma for_episodes_best n fuel acc w acc' w'
    (runs0 : list (list event * list Frame)) :
  rewards acc = (total_reward ∘ fst) <$> runs0 →
  match best_reward acc with
  | None => runs0 = []
  | Some b =>
      ∃ k ep frames,
        first_best (rewards acc) k ∧ rewards acc !! k = Some b
        ∧ runs0 !! k = Some (ep, frames) ∧ best_gif acc = Some frames
  end →
  for_episodes n fuel acc w = (Ret acc', w') →
  ∃ runs,
    length runs = n
    ∧ rewards acc' = (total_reward ∘ fst) <$> (runs0 ++ runs)
    ∧ (∀ j ep frames,
         runs !! j = Some (ep, frames) →
         ∃ acc_j w_j acc_j' w_j',
           for_episodes j fuel acc w = (Ret acc_j, w_j)
           ∧ episode fuel acc_j w_j = (Ret acc_j', w_j')
           ∧ trace w_j' = trace w_j ++ Reset :: ep
           ∧ rendered (ext w_j') = rendered (ext w_j) ++ frames
           ∧ length frames = (if render then S (steps ep) else 0%nat))
    ∧ match best_reward acc' with
      | None => runs0 ++ runs = []
      | Some b =>
          ∃ k ep frames,
            first_best (rewards acc') k ∧ rewards acc' !! k = Some b
            ∧ (runs0 ++ runs) !! k = Some (ep, frames)
            ∧ best_gif acc' = Some frames
      end.
Proof.
  revert acc w runs0. induction n as [|n IH]; intros acc w runs0 Hrews Hbest;
    cbn [for_episodes].
  - intros [-> ->]%ret_Ret. exists []. rewrite !app_nil_r. by repeat split.
  - intros (acc1 & w1 & Hep & Hrest)%bind_Ret.
    pose proof (episode_best _ _ _ _ _ Hep)
      as (ep & frames & Htr1 & Hrew1 & Hrd1 & Hfr & Hnew).
    assert (rewards acc1 = (total_reward ∘ fst) <$> (runs0 ++ [(ep, frames)]))
      as Hrews1 by by rewrite Hrew1, Hrews, fmap_app.
    assert (match best_reward acc1 with
            | None => runs0 ++ [(ep, frames)] = []
            | Some b =>
                ∃ k ep0 frames0,
                  first_best (rewards acc1) k ∧ rewards acc1 !! k = Some b
                  ∧ (runs0 ++ [(ep, frames)]) !! k = Some (ep0, frames0)
                  ∧ best_gif acc1 = Some frames0
            end) as Hbest1.
    { assert (length (rewards acc) = length runs0) as Hlen0.
      { by rewrite Hrews, length_fmap. }
      destruct (best_reward acc) as [b|] eqn:Hb.
      - destruct Hbest as (k & ep0 & frames0 & (r & Hr & Hmax & Hfirst) & Hk
                           & Hep0 & Hgif).
        assert (r = b) as -> by congruence.
        case_bool_decide as Hlt; injection Hnew as -> ->.
        + exists (length runs0), ep, frames. rewrite Hrew1.
          assert ((rewards acc ++ [total_reward ep]) !! length runs0
                  = Some (total_reward ep)) as Hlast.
          { rewrite <- Hlen0. by apply list_lookup_middle. }
          split; [|by rewrite (list_lookup_middle runs0 [] (ep, frames))].
          exists (total_reward ep). split; [done|]. split.
          * intros j r' [Hj|[_ [_ <-]%list_lookup_singleton_Some]]
              %lookup_app_Some; [|apply Qcle_refl].
            apply Qclt_le_weak. eapply Qcle_lt_trans; [by eapply Hmax|done].
          * intros j r' Hjlt Hj. rewrite lookup_app_l in Hj by lia.
            eapply Qcle_lt_trans; [by eapply Hmax|done].
        + exists k, ep0, frames0. rewrite Hrew1.
          pose proof (lookup_lt_Some _ _ _ Hk) as Hklt.
          split; [|by rewrite !lookup_app_l by lia].
          exists b. split; [by rewrite lookup_app_l by lia|]. split.
          * intros j r' [Hj|[_ [_ <-]%list_lookup_singleton_Some]]
              %lookup_app_Some; [by eapply Hmax|].
            by apply Qcnot_lt_le.
          * intros j r' Hjlt Hj. rewrite lookup_app_l in Hj by lia.
            by eapply Hfirst.
      - subst runs0. injection Hnew as -> ->. cbn in Hrews. rewrite Hrews in Hrew1.
        exists 0%nat, ep, frames. rewrite Hrew1. cbn.
        split; [|done]. exists (total_reward ep). split; [done|]. split.
        + intros [|j] r' [= <-]. apply Qcle_refl.
        + intros j r' Hj. lia. }
    destruct (IH _ _ _ Hrews1 Hbest1 Hrest)
      as (runs & Hlen & Hrew2 & Hchain & Hbest2).
    exists ((ep, frames) :: runs). rewrite <- app_assoc in Hrew2, Hbest2.
    split; [by cbn; rewrite Hlen|]. split; [done|]. split; [|done].
    intros [|j] ep' frames' Hj.
    + injection Hj as <- <-. exists acc, w, acc1, w1. by repeat split.
    + destruct (Hchain j ep' frames' Hj)
        as (acc_j & w_j & acc_j' & w_j' & Hrun & ?).
      exists acc_j, w_j, acc_j', w_j'. split; [|done].
      cbn [for_episodes]. by rewrite (bind_run _ _ _ _ _ Hep).
Qed.

End frames.

End episodes_properties.

Lemma run_outcome_Ret {S A} (o : outcome A) (w w' : S) a :
  run_outcome o w = (Ret a, w') → o = Returns a ∧ w' = w.
Proof. destruct o; [|done]. by intros [= -> ->]. Qed.

(** A rollout that returns: the assertion held, the names of the model
    were found, the episodes ran from the world of the call, and there was
    a reward. *)
Lemma rollout_episodes_Ret n_episodes render get_obs get_actions trainer
    action_callback (the_env : @Env E Frame Info) inject inject_mode
    agents_to_inject noise_delta fuel w r w' :
  rollout_episodes n_episodes render get_obs get_actions trainer
    action_callback the_env inject inject_mode agents_to_inject noise_delta
    fuel w = (Ret r, w') →
  is_None trainer ≠ is_None action_callback
  ∧ (∀ tr, trainer = Some tr → ∃ names, get_model_name (config tr) = Returns names)
  ∧ ∃ acc,
      for_episodes render get_obs get_actions trainer action_callback the_env
        inject inject_mode agents_to_inject noise_delta n_episodes fuel
        (Totals None None [] [] []) w = (Ret acc, w')
      ∧ rewards acc ≠ []
      ∧ r = (rewards acc,
             if render then best_gif acc else None,
             if get_obs then Some (observations acc) else None,
             if get_actions then Some (actions acc) else None).
Proof.
  unfold rollout_episodes.
  intros (u & w1 & Hassert & H)%bind_Ret.
  assert (w1 = w ∧ is_None trainer ≠ is_None action_callback) as [-> Hone].
  { unfold assert in Hassert.
    destruct (is_None trainer), (is_None action_callback); try done;
      by apply ret_Ret in Hassert as [_ ->]. }
  apply bind_Ret in H as (u0 & w1 & Hnames & H).
  assert (w1 = w ∧ ∀ tr, trainer = Some tr →
                         ∃ names, get_model_name (config tr) = Returns names)
    as [-> Hfound].
  { destruct trainer as [tr|].
    - apply bind_Ret in Hnames as (names & w2 & [Hn ->]%run_outcome_Ret & Hnames).
      apply bind_Ret in Hnames as (names' & w3 & [_ ->]%run_outcome_Ret & Hnames).
      apply ret_Ret in Hnames as [_ ->]. split; [done|].
      intros tr' [= <-]. by exists names.
    - apply ret_Ret in Hnames as [_ ->]. by split. }
  apply bind_Ret in H as (acc & w2 & Hfor & H).
  apply bind_Ret in H as (u' & w3 & Hmax & [-> ->]%ret_Ret).
  case_bool_decide as Hempty; [done|]. apply ret_Ret in Hmax as [_ ->].
  split; [done|]. split; [done|]. by exists acc.
Qed.

(** What a rollout that returns has done and what it returns. *)
Lemma rollout_episodes_summary n_episodes render get_obs get_actions trainer
    action_callback (the_env : @Env E Frame Info) inject inject_mode
    agents_to_inject noise_delta fuel w rews gif obs acts w' :
  rollout_episodes n_episodes render get_obs get_actions trainer
    action_callback the_env inject inject_mode agents_to_inject noise_delta
    fuel w = (Ret (rews, gif, obs, acts), w') →
  ∃ eps,
    trace w' = trace w ++ episodes_trace eps ∧ length eps = n_episodes
    ∧ Forall (λ ep, no_reset ep ∧ (1 ≤ steps ep)%nat) eps
    ∧ rews = total_reward <$> eps
    ∧ (if get_obs
       then ∃ logs, obs = Some logs ∧ length <$> logs = steps <$> eps
       else obs = None)
    ∧ (if get_actions
       then ∃ logs, acts = Some logs ∧ length <$> logs = steps <$> eps
       else acts = None).
Proof.
  intros (_ & _ & acc & Hfor & _ & [= -> -> -> ->])%rollout_episodes_Ret.
  apply for_episodes_summary in Hfor
    as (eps & Htr & Hlen & Hall & Hrew & Hobs & Hact).
  exists eps. cbn [rewards observations actions app] in Hrew, Hobs, Hact.
  repeat split; try done.
  - destruct get_obs; [|done]. destruct Hobs as (logs & -> & Hlogs). by exists logs.
  - destruct get_actions; [|done]. destruct Hact as (logs & -> & Hlogs). by exists logs.
Qed.


(** A rollout that returns with some bound on its loops returns the same
    with any larger bound. *)
Lemma rollout_episodes_fuel n_episodes render get_obs get_actions trainer
    action_callback (the_env : @Env E Frame Info) inject inject_mode
    agents_to_inject noise_delta fuel fuel' w r w' :
  rollout_episodes n_episodes render get_obs get_actions trainer
    action_callback the_env inject inject_mode agents_to_inject noise_delta
    fuel w = (Ret r, w') →
  (fuel ≤ fuel')%nat →
  rollout_episodes n_episodes render get_obs get_actions trainer
    action_callback the_env inject inject_mode agents_to_inject noise_delta
    fuel' w = (Ret r, w').
Proof.
  unfold rollout_episodes. intros H Hle.
  apply bind_Ret in H as (u & w1 & H1 & H). rewrite (bind_run _ _ _ _ _ H1).
  apply bind_Ret in H as (u0 & w0 & H0 & H). rewrite (bind_run _ _ _ _ _ H0).
  apply bind_Ret in H as (acc & w2 & H2 & H).
  by rewrite (bind_run _ _ _ _ _ (for_episodes_fuel _ _ _ _ _ _ _ _ _ _ _ _ _ _ _ _ _ H2 Hle)).
Qed.

End rollout_properties.

Lemma while_body_order_witness :
  ∃ s' w',
    while_body true true true None (Some (λ obs, ret (reverse obs))) toy_env
      true ACTION_NOISE [0%Z] 1 (Locals 0 false [0; 1]%nat 0 [] [] [])
      toy_world = (Ret s', w')
    ∧ observations_this_episode s' = [[0; 1]%nat]
    ∧ actions_this_episode s' = [[2; 0]%nat]
    ∧ ∃ obs σ1 act0 σ2 e2 act σ3 obss rews ds infos σ4 e4 reward,
        (obs = [0; 1]%nat ∧ σ1 = py toy_world)
        ∧ ret (reverse obs) (σ1, ext toy_world) = (Ret act0, (σ2, e2))
        ∧ inject_function toy_env ACTION_NOISE [0%Z] 1 act0 σ2 = (Ret act, σ3)
        ∧ vector_step toy_env [act] (σ3, e2)
          = (Ret (obss, rews, ds, infos), (σ4, e4))
        ∧ obss !! 0%nat = Some (observation s')
        ∧ rews !! 0%nat = Some reward
        ∧ ds !! 0%nat = Some (done s')
        ∧ reward_sum s' = 0 + reward
        ∧ (∃ frame,
             try_render_at toy_env (σ4, e4) = (Ret frame, (py w', ext w'))
             ∧ frame_list s' = [] ++ [frame])
        ∧ observations_this_episode s' = [] ++ [obs]
        ∧ actions_this_episode s' = [] ++ [act]
        ∧ i s' = 1%nat
        ∧ trace w' =
            trace toy_world ++ [] ++ [LogObs obs] ++ [Query obs act0]
            ++ [InjectAct act0 act] ++ [LogAct act]
            ++ [Step act; Accumulate reward] ++ [Render].
Proof.
  eexists _, _. split; [vm_compute; reflexivity|].
  split; [reflexivity|]. split; [reflexivity|].
  eapply (while_body_order true true true None
            (Some (λ obs, ret (reverse obs))) toy_env true ACTION_NOISE [0%Z] 1
            (Locals 0 false [0; 1]%nat 0 [] [] []) toy_world).
  vm_compute. reflexivity.
Defined.


(** * Properties of the statistics *)

Lemma StronglySorted_lookup_le (a : list Qc) j k x y :
  StronglySorted Qcle a → (j ≤ k)%nat → a !! j = Some x → a !! k = Some y →
  x ≤ y.
Proof.
  intros Hs. revert j k. induction Hs as [|z a Hs IH Hall]; intros j k Hjk Hj Hk.
  - done.
  - destruct j as [|j], k as [|k]; cbn in Hj, Hk.
    + injection Hj as <-. injection Hk as <-. apply Qcle_refl.
    + injection Hj as <-. eapply Forall_lookup_1 in Hall; [exact Hall|done].
    + lia.
    + apply (IH j k); [lia|done..].
Qed.

Lemma fraction_le_1 (v : Qc) : v - Qc_of_Z (Qfloor v) ≤ 1.
Proof.
  apply (Qcplus_le_mono_r _ _ (Qc_of_Z (Qfloor v))).
  replace (v - Qc_of_Z (Qfloor v) + Qc_of_Z (Qfloor v)) with v by ring.
  replace (1 + Qc_of_Z (Qfloor v)) with (Qc_of_Z (Qfloor v + 1)).
  - unfold Qcle. cbn. apply Qlt_le_weak, Qlt_floor.
  - rewrite Z2Qc_inj_add. rewrite Z2Qc_inj_1. ring.
Qed.

Lemma interpolation_le x y g : x ≤ y → g ≤ 1 → x + (y - x) * g ≤ y.
Proof.
  intros Hxy Hg.
  replace y with (x + (y - x) * 1) at 2 by ring.
  apply Qcplus_le_mono_l.
  rewrite !(Qcmult_comm (y - x)). apply Qcmult_le_compat_r; [done|].
  apply (Qcplus_le_mono_r _ _ x). by replace (y - x + x) with y by ring;
    rewrite Qcplus_0_l.
Qed.

Lemma percentile_le_last a p v l :
  StronglySorted Qcle a → percentile a p = Some v → last a = Some l → v ≤ l.
Proof.
  intros Hs Hp Hl. unfold percentile in Hp.
  set (vi := Qc_of_Z (Z.of_nat (length a) - 1) * p / q 100 1) in *.
  destruct (a !! Z.to_nat (Qfloor vi)) as [x|] eqn:Hx; [|done].
  destruct (a !! Z.to_nat (Z.min (Qfloor vi + 1) (Z.of_nat (length a) - 1)))
    as [y|] eqn:Hy; [|done].
  injection Hp as <-.
  pose proof (lookup_lt_Some _ _ _ Hx) as Hxlt.
  pose proof (lookup_lt_Some _ _ _ Hy) as Hylt.
  rewrite last_lookup in Hl.
  apply Qcle_trans with y.
  - apply interpolation_le; [|apply fraction_le_1].
    eapply (StronglySorted_lookup_le a); [done| |done..]. lia.
  - eapply (StronglySorted_lookup_le a); [done| |done..]. lia.
Qed.

(** C9: on a sorted, non-empty list of rewards with [q1] and [q3] its 25th
    and 75th percentiles, [adjacent_values] returns the pair
    [clip (q1 - 1.5 (q3 - q1)) vals[0] q1],
    [clip (q3 + 1.5 (q3 - q1)) q3 vals[-1]], whose first component is at
    most [q1] and whose second is at least [q3]; and the percentiles 25, 50
    and 75 of the rewards 10, 20, 30, 40, 50 are 20, 30 and 40. *)
Theorem adjacent_values_whiskers :
  (∀ S (σ : S) vals q1 q3,
     vals ≠ [] → StronglySorted Qcle vals →
     percentile vals (q 25 1) = Some q1 → percentile vals (q 75 1) = Some q3 →
     ∃ first last lower upper,
       head vals = Some first ∧ list.last vals = Some last
       ∧ lower = clip (q1 - (q3 - q1) * q 3 2) first q1
       ∧ upper = clip (q3 + (q3 - q1) * q 3 2) q3 last
       ∧ adjacent_values vals q1 q3 σ = (Ret (lower, upper), σ)
       ∧ lower ≤ q1 ∧ q3 ≤ upper)
  ∧ percentile [q 10 1; q 20 1; q 30 1; q 40 1; q 50 1] (q 25 1) = Some (q 20 1)
  ∧ percentile [q 10 1; q 20 1; q 30 1; q 40 1; q 50 1] (q 50 1) = Some (q 30 1)
  ∧ percentile [q 10 1; q 20 1; q 30 1; q 40 1; q 50 1] (q 75 1) = Some (q 40 1).
Proof.
  split; [|by vm_compute].
  intros S σ vals q1 q3 Hne Hs Hq1 Hq3.
  destruct vals as [|first rest]; [done|].
  destruct (last (first :: rest)) as [l|] eqn:Hl.
  2:{ by apply last_None in Hl. }
  exists first, l. eexists _, _.
  split; [done|]. split; [done|]. split; [done|]. split; [done|].
  split; [|split].
  - unfold adjacent_values.
    erewrite bind_run; [erewrite bind_run; [done|]|].
    + by apply (getitem_ret _ _ _ 0%nat).
    + rewrite last_lookup in Hl.
      apply (getitem_ret _ _ _ (Nat.pred (length (first :: rest)))); [|done].
      unfold py_index. cbn [length]. repeat case_decide; try lia. f_equal. lia.
  - apply clip_le.
  - apply clip_ge. by eapply percentile_le_last.
Qed.

Lemma adjacent_values_whiskers_witness :
  ∃ first last lower upper,
    head [q 10 1; q 20 1; q 30 1; q 40 1; q 50 1] = Some first
    ∧ list.last [q 10 1; q 20 1; q 30 1; q 40 1; q 50 1] = Some last
    ∧ lower = clip (q 20 1 - (q 40 1 - q 20 1) * q 3 2) first (q 20 1)
    ∧ upper = clip (q 40 1 + (q 40 1 - q 20 1) * q 3 2) (q 40 1) last
    ∧ adjacent_values [q 10 1; q 20 1; q 30 1; q 40 1; q 50 1] (q 20 1) (q 40 1) ()
      = (Ret (lower, upper), ())
    ∧ lower ≤ q 20 1 ∧ q 40 1 ≤ upper.
Proof.
  apply (proj1 adjacent_values_whiskers).
  - done.
  - apply (bool_decide_unpack _). vm_compute. exact I.
  - vm_compute. reflexivity.
  - vm_compute. reflexivity.
Defined.

(** * Properties of the noise sweep *)

Section sweep_properties.
Context {E Frame Info Path Config : Type}.
Context (get_config_trainer_and_env_from_checkpoint :
           Path → M (state * E) (Config * @Trainer E * @Env E Frame Info)).
Implicit Types (w : @world E).

Lemma lift_ext_trace {A} (c : M (state * E) A) w r w' :
  lift_ext c w = (r, w') → trace w' = trace w.
Proof.
  unfold lift_ext. destruct (c (py w, ext w)) as [r' [σ e]]. by intros [= _ <-].
Qed.

Lemma comprehension_spec {A B} (f : A → M (@world E) B) xs w r w' :
  (∀ x w r w', f x w = (r, w') → trace w' = trace w) →
  comprehension f xs w = (r, w') →
  trace w' = trace w ∧ ∀ ys, r = Ret ys → length ys = length xs.
Proof.
  intros Hf. revert w r w'.
  induction xs as [|x xs IH]; intros w r w'; cbn [comprehension].
  - intros [= <- <-]. split; [done|]. by intros ys [= <-].
  - unfold bind at 1. destruct (f x w) as [[y|e] w1] eqn:Hfx.
    + apply Hf in Hfx. unfold bind at 1.
      destruct (comprehension f xs w1) as [[ys|e] w2] eqn:Hxs.
      * apply IH in Hxs as [Htr Hlen]. intros [= <- <-].
        split; [congruence|]. intros ys' [= <-]. cbn. by rewrite (Hlen ys).
      * apply IH in Hxs as [Htr _]. intros [= <- <-]. split; [congruence|done].
    + apply Hf in Hfx. intros [= <- <-]. done.
Qed.

Lemma load_trace {B} (g : Config * @Trainer E * @Env E Frame Info → B)
    (x : Path) w r w' :
  (let* cte := lift_ext (get_config_trainer_and_env_from_checkpoint x) in
   ret (g cte)) w = (r, w') →
  trace w' = trace w.
Proof.
  unfold bind. destruct (lift_ext _ w) as [[cte|e] w1] eqn:Hload.
  - apply lift_ext_trace in Hload. by intros [= _ <-].
  - apply lift_ext_trace in Hload. by intros [= _ <-].
Qed.

Lemma comprehension_Raise {A B} (f : A → M (@world E) B) xs w e w' :
  comprehension f xs w = (Raise e, w') →
  ∃ x w0 w1, f x w0 = (Raise e, w1).
Proof.
  revert w. induction xs as [|x xs IH]; intros w; cbn [comprehension]; [done|].
  unfold bind at 1. destruct (f x w) as [[y|e0] w1] eqn:Hfx.
  - unfold bind at 1.
    destruct (comprehension f xs w1) as [[ys|e1] w2] eqn:Hxs; [done|].
    intros [= <- <-]. by eapply IH.
  - intros [= <- <-]. by exists x, w, w1.
Qed.

Lemma load_Raise {B} (g : Config * @Trainer E * @Env E Frame Info → B)
    (x : Path) w e w' :
  (let* cte := lift_ext (get_config_trainer_and_env_from_checkpoint x) in
   ret (g cte)) w = (Raise e, w') →
  ∃ s s', get_config_trainer_and_env_from_checkpoint x s = (Raise e, s').
Proof.
  unfold bind, lift_ext.
  destruct (get_config_trainer_and_env_from_checkpoint x (py w, ext w))
    as [[cte|e0] [σ ext']] eqn:Hload; [done|].
  intros [= <- <-]. by exists (py w, ext w), (σ, ext').
Qed.

(** C8, evaluated where it fails: with at least one checkpoint the sweep
    never returns its result arrays.  It raises, and no episode has run;
    the exception is [TypeError], unless restoring a checkpoint raised
    before: the first call of [rollout_episodes] names no
    [action_callback]. *)
Theorem evaluate_increasing_noise_raises checkpoint_paths n_episodes_per_model
    agents_to_inject inject_mode fuel w :
  checkpoint_paths ≠ [] →
  ∃ e w',
    evaluate_increasing_noise get_config_trainer_and_env_from_checkpoint
      checkpoint_paths n_episodes_per_model agents_to_inject inject_mode fuel w
    = (Raise e, w')
    ∧ trace w' = trace w
    ∧ (e = TypeError
       ∨ ∃ path s s',
           get_config_trainer_and_env_from_checkpoint path s = (Raise e, s')).
Proof.
  intros Hne. unfold evaluate_increasing_noise, noise_sweep.
  unfold bind at 1.
  destruct (comprehension _ checkpoint_paths w) as [[trainers|e] w1] eqn:Htrainers.
  2:{ exists e, w1. split; [done|]. split.
      - eapply comprehension_spec in Htrainers as [Htr _]; [done|].
        intros x w0 r w0'. apply load_trace.
      - right. apply comprehension_Raise in Htrainers as (x & w0 & w0' & Hx).
        apply load_Raise in Hx as (s & s' & Hx). by exists x, s, s'. }
  eapply comprehension_spec in Htrainers as [Htr1 Hlen1].
  2:{ intros x w0 r w0'. apply load_trace. }
  unfold bind at 1.
  destruct (comprehension _ checkpoint_paths w1) as [[envs|e] w2] eqn:Henvs.
  2:{ exists e, w2. split; [done|]. split.
      - eapply comprehension_spec in Henvs as [Htr _]; [congruence|].
        intros x w0 r w0'. apply load_trace.
      - right. apply comprehension_Raise in Henvs as (x & w0 & w0' & Hx).
        apply load_Raise in Hx as (s & s' & Hx). by exists x, s, s'. }
  eapply comprehension_spec in Henvs as [Htr2 Hlen2].
  2:{ intros x w0 r w0'. apply load_trace. }
  specialize (Hlen1 _ eq_refl). specialize (Hlen2 _ eq_refl).
  destruct checkpoint_paths as [|path paths]; [done|].
  destruct trainers as [|trainer trainers]; [done|].
  destruct envs as [|the_env envs]; [done|].
  exists TypeError, w2. split; [reflexivity|]. split; [congruence|by left].
Qed.

End sweep_properties.

Lemma evaluate_increasing_noise_raises_witness :
  ∃ e w',
    evaluate_increasing_noise toy_load [0; 1]%nat 100 [0; 1]%Z OBS_NOISE 5
      toy_world = (Raise e, w')
    ∧ trace w' = trace toy_world
    ∧ (e = TypeError ∨ ∃ path s s', toy_load path s = (Raise e, s')).
Proof.
  by apply (evaluate_increasing_noise_raises toy_load [0; 1]%nat 100 [0; 1]%Z
              OBS_NOISE 5 toy_world).
Defined.

(** The sweep of [evaluate_het_test] on the toy collaborators: two
    checkpoints, 100 episodes each, agents 0 and 1, observation noise. *)
Example evaluate_increasing_noise_toy :
  evaluate_increasing_noise toy_load [0; 1]%nat 100 [0; 1]%Z OBS_NOISE 5
    toy_world = (Raise TypeError, toy_world).
Proof. vm_compute. reflexivity. Qed.

(** ** The sweep, had the call named [action_callback=None] *)

Lemma row_alter_eq (T : tensor) i j xs :
  is_Some (row T i j) →
  row (alter (λ plane, <[j := xs]> plane) i T) i j = Some xs.
Proof.
  unfold row. destruct (T !! i) as [plane|] eqn:Hplane; [|by intros [? ?]].
  cbn. intros [old Hold]. rewrite list_lookup_alter_eq, Hplane. cbn.
  apply list_lookup_insert_eq. by eapply lookup_lt_Some.
Qed.

Lemma row_alter_ne (T : tensor) i j xs i' j' :
  (i, j) ≠ (i', j') →
  row (alter (λ plane, <[j := xs]> plane) i T) i' j' = row T i' j'.
Proof.
  intros Hne. unfold row. destruct (decide (i = i')) as [<-|Hi].
  - rewrite list_lookup_alter_eq.
    destruct (T !! i) as [plane|]; [|done]. cbn.
    apply list_lookup_insert_ne. congruence.
  - by rewrite list_lookup_alter_ne.
Qed.

Lemma set_row_Ret {S} (T : tensor) i j xs (w : S) T' w' :
  set_row T i j xs w = (Ret T', w') →
  w' = w ∧ is_Some (row T i j) ∧ T' = alter (λ plane, <[j := xs]> plane) i T.
Proof.
  unfold set_row. destruct (row T i j) as [old|]; [|done].
  case_bool_decide; [|done]. intros [= <- <-]. eauto.
Qed.

Lemma enumerate_lookup {A} (xs : list A) i k x :
  enumerate xs !! i = Some (k, x) ↔ k = i ∧ xs !! i = Some x.
Proof.
  unfold enumerate. rewrite lookup_zip_Some, lookup_seq. split.
  - intros [[-> _] Hx]. done.
  - intros [-> Hx]. split; [|done]. split; [done|]. by eapply lookup_lt_Some.
Qed.

Lemma enumerate_fst {A} (xs : list A) : (enumerate xs).*1 = seq 0 (length xs).
Proof. unfold enumerate. apply fst_zip. by rewrite length_seq. Qed.

Lemma enumerate_length {A} (xs : list A) : length (enumerate xs) = length xs.
Proof. unfold enumerate. rewrite length_zip, length_seq. lia. Qed.

Section sweep_records.
Context {E Frame Info : Type}.
Context (n_episodes : nat) (inject_mode : InjectMode)
        (agents_to_inject : list Z) (fuel : nat).
Context (envs : list (@Env E Frame Info)).
Implicit Types (w : @world E) (R D : tensor).

Local Abbreviation call_with_callback_None :=
  (call_with_callback_None n_episodes inject_mode agents_to_inject fuel).
Local Abbreviation recorded := (recorded n_episodes).

Lemma sweep_body_records j noise i trainer R D w R' D' w' :
  sweep_body call_with_callback_None envs j noise i trainer (R, D) w
  = (Ret (R', D'), w') →
  ∃ eps,
    trace w' = trace w ++ episodes_trace eps
    ∧ recorded R' D' i j trainer eps
    ∧ ∀ i' j', (i, j) ≠ (i', j') →
               row R' i' j' = row R i' j' ∧ row D' i' j' = row D i' j'.
Proof.
  unfold sweep_body.
  intros (the_env & w1 & ->%getitem_Ret & H)%bind_Ret.
  apply bind_Ret in H as ([[[rews gif] obs] acts] & w2 & Hcall & H).
  apply rollout_episodes_summary in Hcall
    as (eps & Htr & Hlen & Hall & -> & (logs & -> & Hlogs) & _).
  apply bind_Ret in H as (len_obs & w3 & [-> ->]%ret_Ret & H).
  apply bind_Ret in H as (R1 & w4 & (-> & HR & ->)%set_row_Ret & H).
  apply bind_Ret in H as (D1 & w5 & (-> & HD & ->)%set_row_Ret & H).
  apply ret_Ret in H as [[= -> ->] ->].
  exists eps. split; [done|]. split.
  - split; [done|]. split; [done|]. split; [by apply row_alter_eq|].
    rewrite row_alter_eq by done. f_equal. rewrite Hlogs.
    by rewrite <- list_fmap_compose.
  - intros i' j' Hne. by rewrite !row_alter_ne.
Qed.

Lemma for_trainers_records j noise its R D w R' D' w' :
  NoDup its.*1 →
  for_trainers call_with_callback_None envs j noise its (R, D) w
  = (Ret (R', D'), w') →
  ∃ run : list (list (list event)),
    length run = length its
    ∧ trace w' = trace w ++ concat (episodes_trace <$> run)
    ∧ (∀ m i trainer eps,
         its !! m = Some (i, trainer) → run !! m = Some eps →
         recorded R' D' i j trainer eps)
    ∧ (∀ i' j', j' ≠ j ∨ i' ∉ its.*1 →
                row R' i' j' = row R i' j' ∧ row D' i' j' = row D i' j').
Proof.
  revert R D w. induction its as [|[i trainer] its IH]; intros R D w Hnd;
    cbn [for_trainers].
  - intros [[= -> ->] ->]%ret_Ret. exists []. cbn. rewrite app_nil_r.
    repeat split; done.
  - apply NoDup_cons in Hnd as [Hi Hnd].
    intros ([R1 D1] & w1 & Hbody & Hrest)%bind_Ret.
    apply sweep_body_records in Hbody as (eps & Htr1 & Hrec & Hframe1).
    apply IH in Hrest as (run & Hlen & Htr2 & Hrecs & Hframe2); [|done].
    exists (eps :: run). split; [by cbn; rewrite Hlen|]. split.
    { rewrite Htr2, Htr1. cbn. by rewrite <- app_assoc. }
    split.
    + intros [|m] i0 tr0 eps0; cbn.
      * intros [= <- <-] [= <-].
        destruct Hrec as (? & ? & HR & HD).
        destruct (Hframe2 i j) as [HR2 HD2]; [by right|].
        split; [done|]. split; [done|]. by rewrite HR2, HD2.
      * apply Hrecs.
    + intros i' j' Hfar.
      destruct (Hframe2 i' j') as [HR2 HD2].
      { destruct Hfar as [?|Hfar]; [by left|]. right.
        intros ?. apply Hfar. cbn. by apply list_elem_of_further. }
      destruct (Hframe1 i' j') as [HR1 HD1].
      { intros [= <- <-]. destruct Hfar as [?|Hfar]; [done|].
        apply Hfar. cbn. apply list_elem_of_here. }
      by rewrite HR2, HD2.
Qed.

Lemma for_noises_records jns trainers R D w R' D' w' :
  NoDup jns.*1 →
  for_noises call_with_callback_None envs jns trainers (R, D) w
  = (Ret (R', D'), w') →
  ∃ runs : list (list (list (list event))),
    length runs = length jns
    ∧ trace w' = trace w ++ concat ((λ run, concat (episodes_trace <$> run)) <$> runs)
    ∧ (∀ m j noise run,
         jns !! m = Some (j, noise) → runs !! m = Some run →
         length run = length trainers
         ∧ ∀ i trainer eps,
             trainers !! i = Some trainer → run !! i = Some eps →
             recorded R' D' i j trainer eps)
    ∧ (∀ i' j', j' ∉ jns.*1 →
                row R' i' j' = row R i' j' ∧ row D' i' j' = row D i' j').
Proof.
  revert R D w. induction jns as [|[j noise] jns IH]; intros R D w Hnd;
    cbn [for_noises].
  - intros [[= -> ->] ->]%ret_Ret. exists []. cbn. rewrite app_nil_r.
    repeat split; done.
  - apply NoDup_cons in Hnd as [Hj Hnd].
    intros ([R1 D1] & w1 & Hinner & Hrest)%bind_Ret.
    apply for_trainers_records in Hinner as (run & Hlen1 & Htr1 & Hrecs1 & Hframe1).
    2:{ rewrite enumerate_fst. apply NoDup_seq. }
    apply IH in Hrest as (runs & Hlen & Htr2 & Hrecs & Hframe2); [|done].
    exists (run :: runs). split; [by cbn; rewrite Hlen|]. split.
    { rewrite Htr2, Htr1. cbn. by rewrite <- app_assoc. }
    split.
    + intros [|m] j0 noise0 run0; cbn.
      * intros [= <- <-] [= <-]. split; [by rewrite Hlen1, enumerate_length|].
        intros i trainer eps Htrainer Heps.
        destruct (Hrecs1 i i trainer eps) as (? & ? & HR & HD);
          [by apply enumerate_lookup|done|].
        destruct (Hframe2 i j) as [HR2 HD2]; [done|].
        split; [done|]. split; [done|]. by rewrite HR2, HD2.
      * apply Hrecs.
    + intros i' j' Hfar.
      destruct (Hframe2 i' j') as [HR2 HD2].
      { intros ?. apply Hfar. cbn. by apply list_elem_of_further. }
      destruct (Hframe1 i' j') as [HR1 HD1].
      { left. intros ->. apply Hfar. cbn. apply list_elem_of_here. }
      by rewrite HR2, HD2.
Qed.

End sweep_records.

Section noise_sweep_records.
Context {E Frame Info Path Config : Type}.
Context (get_config_trainer_and_env_from_checkpoint :
           Path → M (state * E) (Config * @Trainer E * @Env E Frame Info)).

(** With [action_callback=None] in the call, a sweep that returns has run,
    for every magnitude index [j] and every policy index [i], the
    [n_episodes_per_model] episodes of the rollout (injection on); and row
    [i, j] of the first array holds the episodes' total rewards, row
    [i, j] of the second holds 1 for an episode with fewer steps than the
    trainer's [max_steps] and 0 for the others. *)
Lemma noise_sweep_records checkpoint_paths n_episodes_per_model
    agents_to_inject inject_mode fuel (w : @world E) rewards done w' :
  noise_sweep get_config_trainer_and_env_from_checkpoint
    (call_with_callback_None n_episodes_per_model inject_mode agents_to_inject
       fuel)
    checkpoint_paths n_episodes_per_model w = (Ret (rewards, done), w') →
  ∃ (trainers : list (@Trainer E)) (runs : list (list (list (list event)))),
    length trainers = length checkpoint_paths ∧ length runs = 50%nat
    ∧ trace w' = trace w ++ concat ((λ run, concat (episodes_trace <$> run)) <$> runs)
    ∧ ∀ j run i trainer eps,
        runs !! j = Some run → trainers !! i = Some trainer →
        run !! i = Some eps →
        recorded n_episodes_per_model rewards done i j trainer eps.
Proof.
  unfold noise_sweep.
  intros (trainers & w1 & Htrainers & H)%bind_Ret.
  apply bind_Ret in H as (envs & w2 & Henvs & Hloops).
  eapply comprehension_spec in Htrainers as [Htr1 Hlen1].
  2:{ intros x w0 r w0'. apply load_trace. }
  eapply comprehension_spec in Henvs as [Htr2 _].
  2:{ intros x w0 r w0'. apply load_trace. }
  apply for_noises_records in Hloops as (runs & Hlen & Htr & Hrecs & _).
  2:{ rewrite enumerate_fst. apply NoDup_seq. }
  exists trainers, runs. split; [by apply Hlen1|].
  split; [by rewrite Hlen, enumerate_length; unfold linspace; rewrite length_fmap, length_seq|].
  split; [by rewrite Htr, Htr2, Htr1|].
  intros j run i trainer eps Hrun Htrainer Heps.
  destruct (lookup_lt_is_Some_2 (enumerate (linspace 0 (q 2 1) 50)) j)
    as [[j0 noise] Hj].
  { rewrite <- Hlen. by eapply lookup_lt_Some. }
  pose proof Hj as [-> _]%enumerate_lookup.
  destruct (Hrecs j j noise run Hj Hrun) as [_ Hrec]. by eapply Hrec.
Qed.

End noise_sweep_records.

(** The toy sweep with the keyword added: two checkpoints, two episodes
    each.  Every episode earns 3 in 3 steps; the first trainer has
    [max_steps] 3, the second 4, so only the second's episodes are flagged. *)
Example noise_sweep_toy :
  (noise_sweep toy_load (call_with_callback_None 2 OBS_NOISE [0%Z] 5)
     [0; 1]%nat 2 toy_world).1
  = Ret (replicate 2 (replicate 50 [q 3 1; q 3 1]),
         [replicate 50 [0; 0]; replicate 50 [1; 1]]).
Proof. vm_compute. reflexivity. Qed.

(** * More about the injectors *)

(** ** Subscripts out of range *)

Lemma inject_noise_in_observation_for_outcome idx xs d σ :
  wf σ xs →
  ∃ σ', (inject_noise_in_observation_for xs idx d σ = (Ret xs, σ')
         ∧ Forall (resolves (length xs)) idx)
        ∨ (inject_noise_in_observation_for xs idx d σ = (Raise IndexError, σ')
           ∧ ¬ Forall (resolves (length xs)) idx).
Proof.
  revert σ. induction idx as [|i rest IH]; intros σ Hwf.
  - exists σ. left. by split.
  - rewrite inject_noise_in_observation_for_cons.
    destruct (py_index (length xs) i) as [p|] eqn:Hp.
    + destruct (lookup_lt_is_Some_2 xs p (py_index_lt _ _ _ Hp)) as [l Hl].
      rewrite Hl. destruct (wf_lookup _ _ _ _ Hwf Hl) as [a Ha]. rewrite Ha.
      destruct (IH (added l a (- d) d σ)) as (σ' & [[Hrun Hres]|[Hrun Hres]]);
        [by apply wf_added|..]; exists σ'.
      * left. split; [done|]. constructor; [|done]. unfold resolves. by rewrite Hp.
      * right. split; [done|]. by intros [_ ?]%Forall_cons_1.
    + exists σ. right. split; [done|]. intros [[p' Hp'] _]%Forall_cons_1.
      congruence.
Qed.

Lemma inject_noise_in_action_for_outcome idx xs d env σ :
  wf σ xs →
  ∃ σ', (∃ xs', inject_noise_in_action_for xs idx d env σ = (Ret xs', σ')
          ∧ Forall (resolves (length xs)) idx
          ∧ Forall (resolves (length (agents env))) idx)
        ∨ (inject_noise_in_action_for xs idx d env σ = (Raise IndexError, σ')
           ∧ ¬ (Forall (resolves (length xs)) idx
                ∧ Forall (resolves (length (agents env))) idx)).
Proof.
  revert xs σ. induction idx as [|i rest IH]; intros xs σ Hwf.
  - exists σ. left. by exists xs.
  - rewrite inject_noise_in_action_for_cons.
    destruct (py_index (length xs) i) as [p|] eqn:Hp.
    2:{ exists σ. right. split; [done|].
        intros [[[p' Hp'] _]%Forall_cons_1 _]. congruence. }
    destruct (lookup_lt_is_Some_2 xs p (py_index_lt _ _ _ Hp)) as [l Hl].
    rewrite Hl. destruct (wf_lookup _ _ _ _ Hwf Hl) as [a Ha]. rewrite Ha.
    cbn zeta.
    destruct (py_index (length (agents env)) i) as [k|] eqn:Hk; cbn.
    2:{ eexists. right. split; [done|].
        intros [_ [[k' Hk'] _]%Forall_cons_1]. congruence. }
    destruct (lookup_lt_is_Some_2 (agents env) k (py_index_lt _ _ _ Hk))
      as [ag Hag].
    rewrite Hag.
    edestruct IH as (σ' & [(xs' & Hrun & Hres & Hres')|[Hrun Hres]]);
      [by apply wf_pass|..]; exists σ'.
    + left. exists xs'. split; [exact Hrun|]. rewrite length_insert in Hres.
      split; (constructor; [|done]); unfold resolves; by rewrite ?Hp, ?Hk.
    + right. split; [exact Hrun|]. rewrite length_insert in Hres.
      intros [[_ ?]%Forall_cons_1 [_ ?]%Forall_cons_1]. by apply Hres.
Qed.

(** A target set that fits the tuple but holds a subscript that denotes
    no position of the tuple (for actions: no agent of the environment)
    passes the assertion and makes the injector raise [IndexError]. *)
Theorem target_out_of_range mode d idx env t σ :
  (length idx ≤ length t)%nat → wf σ t → ¬ valid_targets mode idx env t →
  ∃ σ', get_inject_function mode d idx env t σ = (Raise IndexError, σ').
Proof.
  intros Hlen Hwf Hinvalid. rewrite get_inject_function_pass by done.
  destruct mode.
  - destruct (inject_noise_in_action_for_outcome idx t d env σ Hwf)
      as (σ' & [(xs' & Hrun & Hres & Hres')|[Hrun Hres]]).
    + destruct Hinvalid. by repeat split.
    + by exists σ'.
  - destruct (inject_noise_in_observation_for_outcome idx t d σ Hwf)
      as (σ' & [[Hrun Hres]|[Hrun Hres]]).
    + destruct Hinvalid. by repeat split.
    + by exists σ'.
Qed.

Lemma target_out_of_range_witness :
  ∃ σ', get_inject_function OBS_NOISE 1 [0; 5]%Z demo_env [0; 1]%nat
          (demo_state [1] [1]) = (Raise IndexError, σ').
Proof.
  apply (target_out_of_range OBS_NOISE 1 [0; 5]%Z demo_env [0; 1]%nat
           (demo_state [1] [1])).
  - cbn. lia.
  - apply wf_Forall. repeat constructor; vm_compute; eauto.
  - intros (_ & Hres & _). apply Forall_cons_1 in Hres as [_ Hres].
    apply Forall_cons_1 in Hres as [[p Hp] _]. by vm_compute in Hp.
Defined.

(** ** Shapes *)

Lemma keeps_shapes_refl σ : keeps_shapes σ σ.
Proof. intros l a Ha. by exists a. Qed.

Lemma keeps_shapes_trans σ1 σ2 σ3 :
  keeps_shapes σ1 σ2 → keeps_shapes σ2 σ3 → keeps_shapes σ1 σ3.
Proof.
  intros H12 H23 l a Ha. destruct (H12 l a Ha) as (a' & Ha' & Hlen).
  destruct (H23 l a' Ha') as (a'' & Ha'' & Hlen'). exists a''.
  split; [done|]. by rewrite Hlen'.
Qed.

Lemma length_draw low high n σ : length (draw low high n σ) = n.
Proof. unfold draw. by rewrite length_map, length_seq. Qed.

Lemma length_added_array (a : ndarray) low high σ :
  length (zip_with Qcplus a (draw low high (length a) σ)) = length a.
Proof. rewrite length_zip_with, length_draw. lia. Qed.

Lemma keeps_shapes_added σ l a low high :
  heap σ !! l = Some a → keeps_shapes σ (added l a low high σ).
Proof.
  intros Ha l' a' Ha'. unfold added; cbn [heap].
  destruct (decide (l = l')) as [<-|Hne].
  - rewrite lookup_insert_eq. eexists. split; [done|].
    rewrite length_added_array. congruence.
  - rewrite lookup_insert_ne by done. by exists a'.
Qed.

Lemma keeps_shapes_clipped σ a lo hi : keeps_shapes σ (clipped a lo hi σ).
Proof.
  intros l' a' Ha'. unfold clipped, set_heap; cbn [heap].
  rewrite lookup_insert_ne; [by exists a'|].
  intros Heq. symmetry in Heq. revert Heq. apply fresh_not_allocated. eauto.
Qed.

Lemma inject_noise_in_observation_for_shapes idx xs d σ r σ' :
  inject_noise_in_observation_for xs idx d σ = (r, σ') → keeps_shapes σ σ'.
Proof.
  revert σ. induction idx as [|i rest IH]; intros σ.
  - intros [= <- <-]. apply keeps_shapes_refl.
  - rewrite inject_noise_in_observation_for_cons.
    destruct (py_index (length xs) i) as [p|] eqn:Hp;
      [|intros [= <- <-]; apply keeps_shapes_refl].
    destruct (xs !! p) as [l0|] eqn:Hl0;
      [|intros [= <- <-]; apply keeps_shapes_refl].
    destruct (heap σ !! l0) as [a|] eqn:Ha;
      [|intros [= <- <-]; apply keeps_shapes_refl].
    intros Hrun. eapply keeps_shapes_trans; [|by eapply IH].
    by apply keeps_shapes_added.
Qed.

Lemma shapes_lookup σ t p l :
  t !! p = Some l → shapes σ t !! p = Some (length <$> heap σ !! l).
Proof. intros Hl. unfold shapes. by rewrite list_lookup_fmap, Hl. Qed.

Lemma shapes_keeps σ σ' t : wf σ t → keeps_shapes σ σ' → shapes σ' t = shapes σ t.
Proof.
  intros Hwf Hkeep. apply list_eq. intros p. unfold shapes.
  rewrite !list_lookup_fmap. destruct (t !! p) as [l|] eqn:Hl; [|done].
  cbn. destruct (wf_lookup _ _ _ _ Hwf Hl) as [a Ha].
  destruct (Hkeep l a Ha) as (a' & Ha' & Hlen). by rewrite Ha, Ha'; cbn; rewrite Hlen.
Qed.

Lemma shapes_pass σ xs p l a low high lo hi :
  wf σ xs → xs !! p = Some l → heap σ !! l = Some a →
  shapes (clipped (zip_with Qcplus a (draw low high (length a) σ)) lo hi
            (added l a low high σ))
         (<[p := fresh (dom (heap (added l a low high σ)))]> xs)
  = shapes σ xs.
Proof.
  intros Hwf Hl Ha.
  set (σ1 := added l a low high σ).
  set (a1 := zip_with Qcplus a (draw low high (length a) σ)).
  set (σ2 := clipped a1 lo hi σ1).
  assert (keeps_shapes σ σ2) as Hkeep.
  { eapply keeps_shapes_trans; [by apply keeps_shapes_added|].
    apply keeps_shapes_clipped. }
  apply list_eq. intros p'. unfold shapes. rewrite !list_lookup_fmap.
  destruct (decide (p = p')) as [<-|Hne].
  - rewrite list_lookup_insert_eq by by eapply lookup_lt_Some.
    rewrite Hl.
    change (Some (length <$> heap σ2 !! fresh (dom (heap σ1)))
            = Some (length <$> heap σ !! l)).
    pose proof (lookup_pass_new σ l a a1 low high lo hi) as Hnew.
    fold σ1 σ2 in Hnew. rewrite Hnew, Ha. cbn.
    unfold a1. by rewrite length_map, length_added_array.
  - rewrite list_lookup_insert_ne by done.
    destruct (xs !! p') as [l'|] eqn:Hl'; [|done].
    change (Some (length <$> heap σ2 !! l') = Some (length <$> heap σ !! l')).
    destruct (wf_lookup _ _ _ _ Hwf Hl') as [b Hb].
    destruct (Hkeep l' b Hb) as (b' & Hb' & Hlen).
    by rewrite Hb, Hb'; cbn; rewrite Hlen.
Qed.

Lemma inject_noise_in_action_for_shapes idx xs d env σ r σ' :
  inject_noise_in_action_for xs idx d env σ = (r, σ') →
  keeps_shapes σ σ'
  ∧ ∀ xs', r = Ret xs' → wf σ xs → shapes σ' xs' = shapes σ xs.
Proof.
  revert xs σ. induction idx as [|i rest IH]; intros xs σ.
  - intros [= <- <-]. split; [apply keeps_shapes_refl|]. by intros xs' [= <-].
  - rewrite inject_noise_in_action_for_cons.
    destruct (py_index (length xs) i) as [p|] eqn:Hp;
      [|intros [= <- <-]; split; [apply keeps_shapes_refl|done]].
    destruct (xs !! p) as [l0|] eqn:Hl0;
      [|intros [= <- <-]; split; [apply keeps_shapes_refl|done]].
    destruct (heap σ !! l0) as [a|] eqn:Ha;
      [|intros [= <- <-]; split; [apply keeps_shapes_refl|done]].
    cbn zeta.
    destruct (py_index (length (agents env)) i ≫= _) as [ag|] eqn:Hag;
      [|intros [= <- <-]; split; [by apply keeps_shapes_added|done]].
    intros Hrun. apply IH in Hrun as [Hkeep Hshapes].
    split.
    + eapply keeps_shapes_trans; [by apply keeps_shapes_added|].
      eapply keeps_shapes_trans; [apply keeps_shapes_clipped|done].
    + intros xs' Hr Hwf. rewrite (Hshapes xs' Hr) by by apply wf_pass.
      by apply shapes_pass.
Qed.

(** Injection never changes a shape: whatever the outcome of the call
    (either mode), every array that existed before it still exists and has
    as many elements as before, and when the call returns, its result has
    as many entries as the input tuple, each with as many elements as the
    input entry at that position. *)
Theorem injection_keeps_shapes mode d idx env t σ r σ' :
  get_inject_function mode d idx env t σ = (r, σ') →
  keeps_shapes σ σ'
  ∧ ∀ t', r = Ret t' → wf σ t → shapes σ' t' = shapes σ t.
Proof.
  destruct (decide (length idx ≤ length t)%nat) as [Hlen|Hlen].
  - rewrite get_inject_function_pass by done. destruct mode.
    + apply inject_noise_in_action_for_shapes.
    + intros Hrun.
      pose proof (inject_noise_in_observation_for_shapes _ _ _ _ _ _ Hrun) as Hkeep.
      split; [done|]. intros t' -> Hwf.
      apply inject_noise_in_observation_for_frame in Hrun as [Hret _].
      rewrite (Hret t' eq_refl). by apply shapes_keeps.
  - unfold get_inject_function.
    destruct mode; cbn [is_];
      unfold inject_noise_in_action, inject_noise_in_observation;
      (rewrite assert_false by (apply bool_decide_eq_false; lia));
      intros [= <- <-]; (split; [apply keeps_shapes_refl|done]).
Qed.

Lemma injection_keeps_shapes_witness :
  ∃ t' σ',
    get_inject_function ACTION_NOISE 1 [0%Z] demo_env [0; 1]%nat
      (demo_state [1; 1] [1]) = (Ret t', σ')
    ∧ keeps_shapes (demo_state [1; 1] [1]) σ'
    ∧ shapes σ' t' = [Some 2; Some 1]%nat.
Proof.
  eexists _, _. split; [vm_compute; reflexivity|].
  edestruct (injection_keeps_shapes ACTION_NOISE 1 [0%Z] demo_env [0; 1]%nat
               (demo_state [1; 1] [1])) as [Hkeep Hshapes];
    [vm_compute; reflexivity|].
  split; [exact Hkeep|].
  rewrite (Hshapes _ eq_refl); [reflexivity|].
  apply wf_Forall. repeat constructor; vm_compute; eauto.
Defined.

(** ** References *)

(** On a tuple of distinct arrays and a valid target set, the injector of
    either mode returns a tuple that has, at every position that no target
    denotes, the very array of the input at that position, with the
    elements it had before the call.  The injector of observations returns
    the tuple it was given. *)
Theorem untargeted_entries_shared mode d idx env t σ :
  NoDup t → wf σ t → valid_targets mode idx env t →
  ∃ t' σ',
    get_inject_function mode d idx env t σ = (Ret t', σ')
    ∧ length t' = length t
    ∧ (mode = OBS_NOISE → t' = t)
    ∧ ∀ p l, ¬ targeted (length t) idx p → t !! p = Some l →
        t' !! p = Some l ∧ heap σ' !! l = heap σ !! l.
Proof.
  intros Hnd Hwf Hvalid.
  destruct (get_inject_function_returns mode d idx env t σ Hvalid Hwf)
    as (t' & σ' & Hrun).
  exists t', σ'. split; [done|].
  destruct Hvalid as (Hlen & _ & _).
  rewrite get_inject_function_pass in Hrun by done.
  assert (∀ p l, ¬ targeted (length t) idx p → t !! p = Some l →
                 ∀ i p0, i ∈ idx → py_index (length t) i = Some p0 →
                         t !! p0 ≠ Some l) as Hfar.
  { intros p l Hp Hl i p0 Hi Hp0 Hl0. apply Hp.
    rewrite (NoDup_lookup t p p0 l Hnd Hl Hl0). by exists i. }
  destruct mode.
  - apply inject_noise_in_action_for_frame in Hrun as (Hlen' & Hpos & Hheap).
    split; [done|]. split; [done|]. intros p l Hp Hl.
    split; [by rewrite Hpos|].
    apply Hheap; [by eapply wf_lookup|by eapply Hfar].
  - apply inject_noise_in_observation_for_frame in Hrun as [Hret Hheap].
    rewrite (Hret t') by done. split; [done|]. split; [done|].
    intros p l Hp Hl. split; [done|]. apply Hheap. by eapply Hfar.
Qed.

Lemma untargeted_entries_shared_witness :
  ∃ t' σ',
    get_inject_function ACTION_NOISE 1 [0%Z] demo_env [0; 1]%nat
      (demo_state [1] [1]) = (Ret t', σ')
    ∧ length t' = length [0; 1]%nat
    ∧ (ACTION_NOISE = OBS_NOISE → t' = [0; 1]%nat)
    ∧ ∀ p l, ¬ targeted (length [0; 1]%nat) [0%Z] p →
        [0; 1]%nat !! p = Some l →
        t' !! p = Some l
        ∧ heap σ' !! l = heap (demo_state [1] [1]) !! l.
Proof.
  apply (untargeted_entries_shared ACTION_NOISE 1 [0%Z] demo_env [0; 1]%nat
           (demo_state [1] [1])).
  - apply (bool_decide_unpack _). vm_compute. exact I.
  - apply wf_Forall. repeat constructor; vm_compute; eauto.
  - split; [cbn; lia|].
    split; [|intros _]; repeat constructor; vm_compute; eauto.
Defined.

Lemma pass_keeps_allocated σ l a a' low high lo hi l' :
  is_Some (heap σ !! l') →
  is_Some (heap (clipped a' lo hi (added l a low high σ)) !! l').
Proof.
  intros Hl'. unfold clipped, added, set_heap; cbn [heap].
  destruct (decide (l' = fresh (dom (<[l := zip_with Qcplus a
                                              (draw low high (length a) σ)]>
                                       (heap σ))))) as [->|Hne].
  - rewrite lookup_insert_eq. eauto.
  - rewrite lookup_insert_ne by done.
    destruct (decide (l' = l)) as [->|Hne'].
    + rewrite lookup_insert_eq. eauto.
    + by rewrite lookup_insert_ne.
Qed.

Lemma inject_noise_in_action_for_new σ0 idx xs d env σ xs' σ' :
  (∀ l, is_Some (heap σ0 !! l) → is_Some (heap σ !! l)) →
  Forall (λ i, 0 ≤ i)%Z idx → wf σ xs →
  inject_noise_in_action_for xs idx d env σ = (Ret xs', σ') →
  (∀ p, new_at σ0 σ xs p → new_at σ0 σ' xs' p)
  ∧ (∀ i, i ∈ idx → new_at σ0 σ' xs' (Z.to_nat i)).
Proof.
  revert xs σ. induction idx as [|i rest IH]; intros xs σ Hsub Hnn Hwf.
  - intros [= <- <-]. split; [done|]. intros i Hi. by apply elem_of_nil in Hi.
  - apply Forall_cons_1 in Hnn as [Hi Hnn].
    intros (p & l0 & a & ag & Hp & Hl0 & Ha & Hag & Hrun)
      %inject_noise_in_action_for_cons_ret.
    cbn zeta in Hrun.
    rewrite py_index_nonneg in Hp by done.
    destruct (decide (i < Z.of_nat (length xs))%Z) as [_|]; [|done].
    injection Hp as <-.
    set (σ1 := added l0 a (- d) d σ) in *.
    set (a1 := zip_with Qcplus a (draw (- d) d (length a) σ)) in *.
    set (σ2 := clipped a1 (- u_range ag) (u_range ag) σ1) in *.
    set (p := Z.to_nat i) in *.
    set (z := fresh (dom (heap σ1))) in *.
    set (xs1 := <[p := z]> xs) in *.
    assert (p < length xs)%nat as Hplt by (by eapply lookup_lt_Some).
    assert (wf σ2 xs1) as Hwf2 by by apply wf_pass.
    assert (∀ l, is_Some (heap σ !! l) → is_Some (heap σ2 !! l)) as Hgrow.
    { intros l Hl. by apply pass_keeps_allocated. }
    assert (∀ l, is_Some (heap σ !! l) → l ≠ z) as Hz.
    { intros l Hl. apply fresh_not_allocated.
      unfold σ1, added; cbn [heap].
      destruct (decide (l = l0)) as [->|Hne].
      - rewrite lookup_insert_eq. eauto.
      - by rewrite lookup_insert_ne. }
    assert (∀ p', p' ≠ p → xs1 !! p' ≠ Some z) as Huniq.
    { intros p' Hne. unfold xs1. rewrite list_lookup_insert_ne by done.
      intros Hp'. by apply (Hz z (wf_lookup _ _ _ _ Hwf Hp')). }
    assert (new_at σ0 σ2 xs1 p) as Hnew.
    { exists z. split; [by apply list_lookup_insert_eq|].
      assert (heap σ2 !! z
              = Some (map (λ x, clip x (- u_range ag) (u_range ag)) a1))
        as Hz2 by apply lookup_pass_new.
      split; [by rewrite Hz2|]. split; [|done].
      destruct (heap σ0 !! z) as [b|] eqn:Hb; [|done].
      destruct (Hz z); [|done]. apply Hsub. by rewrite Hb. }
    assert (∀ q, new_at σ0 σ xs q → new_at σ0 σ2 xs1 q) as Hkeep.
    { intros q0 (l & Hl & Hsome & Hnone & Hq).
      destruct (decide (q0 = p)) as [->|Hne]; [done|].
      exists l. split; [by unfold xs1; rewrite list_lookup_insert_ne|].
      split; [by apply Hgrow|]. split; [done|].
      intros p' Hp'. destruct (decide (p' = p)) as [->|Hne'].
      - unfold xs1. rewrite list_lookup_insert_eq by done.
        intros [= Heq]. by apply (Hz l Hsome).
      - unfold xs1. rewrite list_lookup_insert_ne by done. by apply Hq. }
    apply IH in Hrun as [Hpres Hdone]; [|by auto|done..].
    split.
    + intros q0 Hq0. by apply Hpres, Hkeep.
    + intros i' [->|Hi']%elem_of_cons.
      * by apply Hpres.
      * by apply Hdone.
Qed.

(** On a valid call of the action injector whose targets are agent
    indices counted from 0, the call returns, and the entry returned for
    every targeted agent is an array that the call has allocated: the
    store did not have it before the call, and no other position of the
    returned tuple refers to it. *)
Theorem action_injection_allocates d idx env t σ :
  Forall (λ i, 0 ≤ i)%Z idx → wf σ t → valid_targets ACTION_NOISE idx env t →
  ∃ t' σ',
    get_inject_function ACTION_NOISE d idx env t σ = (Ret t', σ')
    ∧ ∀ i, i ∈ idx →
        ∃ l, t' !! Z.to_nat i = Some l ∧ is_Some (heap σ' !! l)
             ∧ heap σ !! l = None
             ∧ ∀ p, p ≠ Z.to_nat i → t' !! p ≠ Some l.
Proof.
  intros Hnn Hwf Hvalid.
  destruct (get_inject_function_returns _ d idx env t σ Hvalid Hwf)
    as (t' & σ' & Hrun).
  exists t', σ'. split; [done|].
  destruct Hvalid as (Hlen & _ & _).
  rewrite get_inject_function_pass in Hrun by done.
  apply (inject_noise_in_action_for_new σ) in Hrun as [_ Hdone]; [|done..].
  intros i Hi. exact (Hdone i Hi).
Qed.

Lemma action_injection_allocates_witness :
  ∃ t' σ',
    get_inject_function ACTION_NOISE 1 [0%Z] demo_env [0; 1]%nat
      (demo_state [1] [1]) = (Ret t', σ')
    ∧ ∀ i, i ∈ [0%Z] →
        ∃ l, t' !! Z.to_nat i = Some l ∧ is_Some (heap σ' !! l)
             ∧ heap (demo_state [1] [1]) !! l = None
             ∧ ∀ p, p ≠ Z.to_nat i → t' !! p ≠ Some l.
Proof.
  apply (action_injection_allocates 1 [0%Z] demo_env [0; 1]%nat
           (demo_state [1] [1])).
  - by repeat constructor.
  - apply wf_Forall. repeat constructor; vm_compute; eauto.
  - split; [cbn; lia|].
    split; [|intros _]; repeat constructor; vm_compute; eauto.
Defined.

(** ** The samples a call consumes *)

Lemma shapes_added σ xs l a low high :
  heap σ !! l = Some a → shapes (added l a low high σ) xs = shapes σ xs.
Proof.
  intros Ha. unfold shapes. apply list_fmap_ext. intros _ l' _.
  unfold added; cbn [heap]. destruct (decide (l = l')) as [<-|Hne].
  - by rewrite lookup_insert_eq, Ha; cbn; rewrite length_added_array.
  - by rewrite lookup_insert_ne.
Qed.

Lemma samples_needed_shapes σ σ' t t' idx :
  shapes σ' t' = shapes σ t →
  samples_needed σ' t' idx = samples_needed σ t idx.
Proof.
  intros Hsh. unfold samples_needed. rewrite Hsh.
  assert (length t' = length t) as ->; [|done].
  apply (f_equal length) in Hsh. unfold shapes in Hsh.
  by rewrite !length_fmap in Hsh.
Qed.

Lemma samples_needed_cons σ xs i rest p l a :
  py_index (length xs) i = Some p → xs !! p = Some l → heap σ !! l = Some a →
  samples_needed σ xs (i :: rest) = (length a + samples_needed σ xs rest)%nat.
Proof.
  intros Hp Hl Ha. unfold samples_needed. cbn [sum_list_with].
  by rewrite Hp; cbn; rewrite (shapes_lookup _ _ _ l), Ha.
Qed.

Lemma inject_noise_in_observation_for_samples idx xs d σ xs' σ' :
  inject_noise_in_observation_for xs idx d σ = (Ret xs', σ') →
  rng_stream σ' = rng_stream σ
  ∧ rng_pos σ' = (rng_pos σ + samples_needed σ xs idx)%nat.
Proof.
  revert σ. induction idx as [|i rest IH]; intros σ.
  - intros [= <- <-]. unfold samples_needed. cbn. split; [done|lia].
  - rewrite inject_noise_in_observation_for_cons.
    destruct (py_index (length xs) i) as [p|] eqn:Hp; [|done].
    destruct (xs !! p) as [l0|] eqn:Hl0; [|done].
    destruct (heap σ !! l0) as [a|] eqn:Ha; [|done].
    intros [Hs Hpos]%IH. split; [done|].
    rewrite Hpos, (samples_needed_cons _ _ _ _ p l0 a) by done.
    rewrite (samples_needed_shapes σ (added l0 a (- d) d σ) xs xs)
      by by apply shapes_added.
    cbn [added rng_pos]. lia.
Qed.

Lemma inject_noise_in_action_for_samples idx xs d env σ xs' σ' :
  wf σ xs → inject_noise_in_action_for xs idx d env σ = (Ret xs', σ') →
  rng_stream σ' = rng_stream σ
  ∧ rng_pos σ' = (rng_pos σ + samples_needed σ xs idx)%nat.
Proof.
  revert xs σ. induction idx as [|i rest IH]; intros xs σ Hwf.
  - intros [= <- <-]. unfold samples_needed. cbn. split; [done|lia].
  - intros (p & l0 & a & ag & Hp & Hl0 & Ha & Hag & Hrun)
      %inject_noise_in_action_for_cons_ret.
    cbn zeta in Hrun. apply IH in Hrun as [Hs Hpos]; [|by apply wf_pass].
    split; [done|].
    rewrite Hpos, (samples_needed_cons _ _ _ _ p l0 a) by done.
    rewrite (samples_needed_shapes σ _ xs _ rest (shapes_pass _ _ _ _ _ _ _ _ _ Hwf Hl0 Ha)).
    cbn [clipped set_heap added rng_pos]. lia.
Qed.

(** A call of the injector that returns has consumed exactly one sample
    of the generator for every element of every targeted entry: the read
    position has advanced by that number, and the stream is unchanged. *)
Theorem injection_consumes_samples mode d idx env t σ t' σ' :
  wf σ t → get_inject_function mode d idx env t σ = (Ret t', σ') →
  rng_stream σ' = rng_stream σ
  ∧ rng_pos σ' = (rng_pos σ + samples_needed σ t idx)%nat.
Proof.
  intros Hwf Hrun. pose proof (get_inject_function_ret _ _ _ _ _ _ _ _ Hrun).
  rewrite get_inject_function_pass in Hrun by done. destruct mode.
  - by eapply inject_noise_in_action_for_samples.
  - by eapply inject_noise_in_observation_for_samples.
Qed.

Lemma injection_consumes_samples_witness :
  ∃ t' σ',
    get_inject_function ACTION_NOISE 1 [0; 1]%Z demo_env [0; 1]%nat
      (demo_state [1; 1] [1]) = (Ret t', σ')
    ∧ rng_stream σ' = rng_stream (demo_state [1; 1] [1])
    ∧ rng_pos σ'
      = Nat.add (rng_pos (demo_state [1; 1] [1]))
                (samples_needed (demo_state [1; 1] [1]) [0; 1]%nat [0; 1]%Z).
Proof.
  eexists _, _. split; [vm_compute; reflexivity|].
  eapply (injection_consumes_samples ACTION_NOISE 1 [0; 1]%Z demo_env
            [0; 1]%nat (demo_state [1; 1] [1])).
  - apply wf_Forall. repeat constructor; vm_compute; eauto.
  - vm_compute. reflexivity.
Defined.

(** * More about the rollouts *)

Section rollout_edges.
Context {E Frame Info : Type}.
Implicit Types (w : @world E).

(** [rollout_episodes] wants a trainer or an action callback, not both
    and not neither: otherwise its first statement raises
    [AssertionError], before the environment is reset or anything else
    happens. *)
Theorem rollout_wants_one_policy n_episodes render get_obs get_actions
    (trainer : option (@Trainer E)) action_callback
    (the_env : @Env E Frame Info) inject inject_mode agents_to_inject
    noise_delta fuel w :
  is_None trainer = is_None action_callback →
  rollout_episodes n_episodes render get_obs get_actions trainer
    action_callback the_env inject inject_mode agents_to_inject noise_delta
    fuel w = (Raise AssertionError, w).
Proof.
  intros Heq. unfold rollout_episodes. apply assert_false.
  rewrite Heq. by destruct (is_None action_callback).
Qed.

(** ** With injection off *)

Lemma bind_ext {S A B} (c c' : M S A) (k k' : A → M S B) (σ : S) :
  c σ = c' σ → (∀ a σ1, k a σ1 = k' a σ1) →
  (let* x := c in k x) σ = (let* x := c' in k' x) σ.
Proof.
  intros Hc Hk. unfold bind. rewrite <- Hc.
  destruct (c σ) as [[a|e] σ1]; [apply Hk|done].
Qed.

Section injection_off.
Context (render get_obs get_actions : bool)
        (trainer : option (@Trainer E))
        (action_callback : option (list loc → M (state * E) (list loc)))
        (the_env : @Env E Frame Info)
        (inject_mode inject_mode' : InjectMode)
        (agents_to_inject agents_to_inject' : list Z)
        (noise_delta noise_delta' : Qc).

Lemma while_not_done_inject_off fuel s w :
  while_not_done render get_obs get_actions trainer action_callback the_env
    false inject_mode agents_to_inject noise_delta fuel s w
  = while_not_done render get_obs get_actions trainer action_callback the_env
      false inject_mode' agents_to_inject' noise_delta' fuel s w.
Proof.
  revert s w. induction fuel as [|fuel IH]; intros s w; cbn [while_not_done];
    [done|].
  destruct (done s); [done|]. by apply bind_ext.
Qed.

Lemma episode_inject_off fuel acc w :
  episode render get_obs get_actions trainer action_callback the_env
    false inject_mode agents_to_inject noise_delta fuel acc w
  = episode render get_obs get_actions trainer action_callback the_env
      false inject_mode' agents_to_inject' noise_delta' fuel acc w.
Proof.
  unfold episode. do 4 (apply bind_ext; [done|intros ? ?]).
  apply bind_ext; [apply while_not_done_inject_off|done].
Qed.

Lemma for_episodes_inject_off n fuel acc w :
  for_episodes render get_obs get_actions trainer action_callback the_env
    false inject_mode agents_to_inject noise_delta n fuel acc w
  = for_episodes render get_obs get_actions trainer action_callback the_env
      false inject_mode' agents_to_inject' noise_delta' n fuel acc w.
Proof.
  revert acc w. induction n as [|n IH]; intros acc w; cbn [for_episodes];
    [done|].
  apply bind_ext; [apply episode_inject_off|done].
Qed.

End injection_off.

(** With injection off the injector plays no part in a rollout: whatever
    the mode, the targets and the magnitude that it is given, the rollout
    returns or raises the same and leaves the same arrays, the same
    generator and the same collaborators. *)
Theorem rollout_without_injection n_episodes render get_obs get_actions
    (trainer : option (@Trainer E)) action_callback
    (the_env : @Env E Frame Info) inject_mode agents_to_inject noise_delta
    inject_mode' agents_to_inject' noise_delta' fuel w :
  rollout_episodes n_episodes render get_obs get_actions trainer
    action_callback the_env false inject_mode agents_to_inject noise_delta
    fuel w
  = rollout_episodes n_episodes render get_obs get_actions trainer
      action_callback the_env false inject_mode' agents_to_inject'
      noise_delta' fuel w.
Proof.
  unfold rollout_episodes. do 2 (apply bind_ext; [done|intros ? ?]).
  apply bind_ext; [apply for_episodes_inject_off|done].
Qed.

(** What [rollout_episodes] raises before any episode, called with a
    trainer or else a callback.  When [get_model_name] raises on the
    configuration of the trainer, the rollout raises the same, however
    many episodes it was to run.  With no episode to run, and no trainer
    or one whose configuration names its model, it raises [ValueError]
    (the maximum of no reward).  Either way it has done nothing: the
    environment is not reset, no array and no sample is touched. *)
Theorem rollout_raises_before_episodes n_episodes render get_obs get_actions
    (trainer : option (@Trainer E)) action_callback
    (the_env : @Env E Frame Info) inject inject_mode agents_to_inject
    noise_delta fuel w :
  is_None trainer ≠ is_None action_callback →
  (∀ tr e,
     trainer = Some tr → get_model_name (config tr) = Raises e →
     rollout_episodes n_episodes render get_obs get_actions trainer
       action_callback the_env inject inject_mode agents_to_inject
       noise_delta fuel w = (Raise e, w))
  ∧ ((∀ tr, trainer = Some tr →
            ∃ names, get_model_name (config tr) = Returns names) →
     rollout_episodes 0 render get_obs get_actions trainer action_callback
       the_env inject inject_mode agents_to_inject noise_delta fuel w
     = (Raise ValueError, w)).
Proof.
  intros Hne.
  assert (xorb (is_None trainer) (is_None action_callback) = true) as Hone.
  { by destruct (is_None trainer), (is_None action_callback). }
  unfold rollout_episodes. split.
  - intros tr e -> Hnames. rewrite assert_true by done.
    unfold bind. rewrite Hnames. by destruct w.
  - intros Hnames. rewrite assert_true by done.
    destruct trainer as [tr|]; [|by destruct w].
    destruct (Hnames tr eq_refl) as [names Hfound].
    unfold bind. rewrite Hfound. by destruct w.
Qed.

(** A completed pass of the episode loop with observation noise on and
    the observations collected, over an observation of distinct arrays.
    The injector returns the tuple the environment had returned; it is
    this tuple that is logged and that the trainer, or without a trainer
    the callback, is given, in the store the injector left.  In that
    store, every array of the observation that no target denotes holds
    exactly what the environment had put there. *)
Theorem observation_seen_by_policy render get_actions
    (trainer : option (@Trainer E)) action_callback
    (the_env : @Env E Frame Info) idx d s w s' w' :
  NoDup (observation s) →
  while_body render true get_actions trainer action_callback the_env true
    OBS_NOISE idx d s w = (Ret s', w') →
  ∃ σ1 act0 σ2 e2,
    get_inject_function OBS_NOISE d idx (env the_env) (observation s) (py w)
    = (Ret (observation s), σ1)
    ∧ match trainer, action_callback with
      | Some tr, _ =>
          compute_single_action tr (observation s) (σ1, ext w)
          = (Ret act0, (σ2, e2))
      | None, Some callback =>
          callback (observation s) (σ1, ext w) = (Ret act0, (σ2, e2))
      | None, None => False
      end
    ∧ observations_this_episode s'
      = observations_this_episode s ++ [observation s]
    ∧ ∀ p l, ¬ targeted (length (observation s)) idx p →
        observation s !! p = Some l → heap σ1 !! l = heap (py w) !! l.
Proof.
  intros Hnd H. unfold while_body in H. cbn [andb is_obs is_] in H.
  apply bind_Ret in H as (obs & w1 & Hobs & H).
  apply (inject_pass the_env OBS_NOISE idx d true InjectObs) in Hobs
    as (σ1 & -> & Hinj).
  apply bind_Ret in H as (olog & w2 & [-> ->]%(log_pass true LogObs) & H).
  apply bind_Ret in H as (act0 & w3 & (σ2 & e2 & -> & Hquery)%query_pass & H).
  do 3 (apply bind_Ret in H as (? & ? & _ & H)).
  apply bind_Ret in H as ([[[obss rews] ds] infos] & ? & _ & H).
  do 7 (apply bind_Ret in H as (? & ? & _ & H)).
  apply ret_Ret in H as [-> _].
  cbn [py ext trace observations_this_episode] in *.
  unfold inject_function in Hinj. pose proof Hinj as Hlen.
  apply get_inject_function_ret in Hlen.
  pose proof Hinj as Hfor. rewrite get_inject_function_pass in Hfor by done.
  apply inject_noise_in_observation_for_frame in Hfor as [Hret Hheap].
  rewrite (Hret obs eq_refl) in *.
  exists σ1, act0, σ2, e2. split; [done|]. split; [done|]. split; [done|].
  intros p l Hp Hl. apply Hheap. intros i p0 Hi Hp0 Hl0. apply Hp.
  rewrite (NoDup_lookup _ p p0 l Hnd Hl Hl0). by exists i.
Qed.

(** When a rollout that renders returns, over collaborators that keep a
    record of the frames rendered: the frames it returns are exactly, and
    in their order, the frames that the environment rendered during one
    episode, the first whose total reward is the highest of the run.  This
    episode is the one that follows the first [k] episodes of the run; the
    environment rendered in it once after the reset and once after each
    step. *)
Theorem best_gif_of_first_best (rendered : E → list Frame) n_episodes get_obs
    get_actions (trainer : option (@Trainer E)) action_callback
    (the_env : @Env E Frame Info) inject inject_mode agents_to_inject
    noise_delta fuel w rews gif obs acts w' :
  records_frames rendered trainer action_callback the_env →
  rollout_episodes n_episodes true get_obs get_actions trainer
    action_callback the_env inject inject_mode agents_to_inject noise_delta
    fuel w = (Ret (rews, gif, obs, acts), w') →
  ∃ k ep frames acc_k w_k acc_k' w_k',
    first_best rews k
    ∧ rews !! k = Some (total_reward ep)
    ∧ gif = Some frames
    ∧ for_episodes true get_obs get_actions trainer action_callback the_env
        inject inject_mode agents_to_inject noise_delta k fuel
        (Totals None None [] [] []) w = (Ret acc_k, w_k)
    ∧ episode true get_obs get_actions trainer action_callback the_env
        inject inject_mode agents_to_inject noise_delta fuel acc_k w_k
      = (Ret acc_k', w_k')
    ∧ trace w_k' = trace w_k ++ Reset :: ep
    ∧ rendered (ext w_k') = rendered (ext w_k) ++ frames
    ∧ length frames = S (steps ep).
Proof.
  intros Hrec (_ & _ & acc & Hfor & Hempty & [= -> -> -> ->])%rollout_episodes_Ret.
  eapply (for_episodes_best _ _ _ _ _ _ _ _ _ _ rendered Hrec _ _ _ _ _ _ [])
    in Hfor as (runs & _ & Hrews & Hchain & Hbest); [|done..].
  cbn [app] in Hrews, Hbest.
  destruct (best_reward acc) as [b|].
  - destruct Hbest as (k & ep & frames & Hfirst & _ & Hk & Hgif).
    destruct (Hchain k ep frames Hk)
      as (acc_k & w_k & acc_k' & w_k' & ? & ? & ? & ? & ?).
    exists k, ep, frames, acc_k, w_k, acc_k', w_k'.
    repeat (split; [done|]). split; [|done].
    by rewrite Hrews, list_lookup_fmap, Hk.
  - subst runs. by destruct Hempty.
Qed.

End rollout_edges.

Lemma rollout_wants_one_policy_witness :
  rollout_episodes 1 false true true (Some toy_trainer)
    (Some (compute_single_action toy_trainer)) toy_env true OBS_NOISE [0%Z] 1
    5 toy_world = (Raise AssertionError, toy_world).
Proof.
  by apply (rollout_wants_one_policy 1 false true true (Some toy_trainer)
              (Some (compute_single_action toy_trainer)) toy_env).
Defined.

Lemma rollout_raises_before_episodes_witness :
  rollout_episodes 2 false true true
    (Some {| config := PyDict ∅;
             compute_single_action := compute_single_action toy_trainer;
             max_steps := 3 |})
    None toy_env true OBS_NOISE [0%Z] 1 5 toy_world
  = (Raise (KeyError "model"), toy_world)
  ∧ rollout_episodes 0 false true true (Some toy_trainer) None toy_env true
      OBS_NOISE [0%Z] 1 5 toy_world = (Raise ValueError, toy_world).
Proof.
  split.
  - destruct (rollout_raises_before_episodes 2 false true true
                (Some {| config := PyDict ∅;
                         compute_single_action :=
                           compute_single_action toy_trainer;
                         max_steps := 3 |})
                None toy_env true OBS_NOISE [0%Z] 1 5 toy_world) as [Hnames _];
      [done|].
    eapply Hnames; [reflexivity|by vm_compute].
  - destruct (rollout_raises_before_episodes 0 false true true
                (Some toy_trainer) None toy_env true OBS_NOISE [0%Z] 1 5
                toy_world) as [_ Hnone]; [done|].
    apply Hnone. intros tr [= <-]. eexists. by vm_compute.
Defined.

Lemma observation_seen_by_policy_witness :
  ∃ s' w',
    while_body false true true (Some toy_trainer) None toy_env true OBS_NOISE
      [0%Z] 1 (Locals 0 false [0; 1]%nat 0 [] [] [] : @locals unit)
      toy_world = (Ret s', w')
    ∧ ∃ σ1 act0 σ2 e2,
        get_inject_function OBS_NOISE 1 [0%Z] demo_env [0; 1]%nat
          (py toy_world) = (Ret [0; 1]%nat, σ1)
        ∧ compute_single_action toy_trainer [0; 1]%nat (σ1, ext toy_world)
          = (Ret act0, (σ2, e2))
        ∧ observations_this_episode s' = [] ++ [[0; 1]%nat]
        ∧ ∀ p l, ¬ targeted (length [0; 1]%nat) [0%Z] p →
            [0; 1]%nat !! p = Some l →
            heap σ1 !! l = heap (py toy_world) !! l.
Proof.
  eexists _, _. split; [vm_compute; reflexivity|].
  eapply (observation_seen_by_policy false true (Some toy_trainer) None
            toy_env [0%Z] 1
            (Locals 0 false [0; 1]%nat 0 [] [] [] : @locals unit) toy_world).
  - apply (bool_decide_unpack _). vm_compute. exact I.
  - vm_compute. reflexivity.
Defined.

Lemma best_gif_of_first_best_witness :
  ∃ rews gif obs acts w',
    rollout_episodes 2 true false false (Some recording_trainer) None
      recording_env false OBS_NOISE [0%Z] 1 5 recording_world
    = (Ret (rews, gif, obs, acts), w')
    ∧ gif = Some [0; 1; 2; 3]%nat
    ∧ ∃ k ep frames acc_k w_k acc_k' w_k',
        first_best rews k
        ∧ rews !! k = Some (total_reward ep)
        ∧ gif = Some frames
        ∧ for_episodes true false false (Some recording_trainer) None
            recording_env false OBS_NOISE [0%Z] 1 k 5
            (Totals None None [] [] []) recording_world = (Ret acc_k, w_k)
        ∧ episode true false false (Some recording_trainer) None
            recording_env false OBS_NOISE [0%Z] 1 5 acc_k w_k
          = (Ret acc_k', w_k')
        ∧ trace w_k' = trace w_k ++ Reset :: ep
        ∧ snd (ext w_k') = snd (ext w_k) ++ frames
        ∧ length frames = S (steps ep).
Proof.
  eexists _, _, _, _, _. split; [vm_compute; reflexivity|].
  split; [reflexivity|].
  eapply (best_gif_of_first_best snd 2 false false (Some recording_trainer)
            None recording_env false OBS_NOISE [0%Z] 1 5 recording_world).
  - repeat split.
    + by intros σ [n frames] frame σ' e' [= <- _ <-].
    + by intros σ [n frames] obss σ' e' [= _ _ <-].
    + by intros actions σ [n frames] r σ' e' [= _ _ <-].
    + by intros tr observation σ e action σ' e' [= <-] [= _ _ <-].
    + by intros callback observation σ e action σ' e' [= ].
  - vm_compute. reflexivity.
Defined.

(** * More about the statistics *)

Lemma Qcmult_nonneg (x y : Qc) : 0 ≤ x → 0 ≤ y → 0 ≤ x * y.
Proof.
  intros Hx Hy. replace 0 with (0 * y) by ring. by apply Qcmult_le_compat_r.
Qed.

Lemma fraction_ge_0 (v : Qc) : 0 ≤ v - Qc_of_Z (Qfloor v).
Proof.
  apply (Qcplus_le_mono_r _ _ (Qc_of_Z (Qfloor v))).
  replace (v - Qc_of_Z (Qfloor v) + Qc_of_Z (Qfloor v)) with v by ring.
  rewrite Qcplus_0_l. unfold Qcle. cbn. apply Qfloor_le.
Qed.

Lemma interpolation_ge x y g : x ≤ y → 0 ≤ g → x ≤ x + (y - x) * g.
Proof.
  intros Hxy Hg. replace x with (x + 0) at 1 by ring.
  apply Qcplus_le_mono_l. apply Qcmult_nonneg; [|done].
  apply (Qcplus_le_mono_r _ _ x). by replace (y - x + x) with y by ring;
    rewrite Qcplus_0_l.
Qed.

Lemma interpolation_mono x y g g' :
  x ≤ y → g ≤ g' → x + (y - x) * g ≤ x + (y - x) * g'.
Proof.
  intros Hxy Hg. apply Qcplus_le_mono_l.
  rewrite !(Qcmult_comm (y - x)). apply Qcmult_le_compat_r; [done|].
  apply (Qcplus_le_mono_r _ _ x). by replace (y - x + x) with y by ring;
    rewrite Qcplus_0_l.
Qed.

Lemma percentile_ge_first a p v f :
  StronglySorted Qcle a → percentile a p = Some v → head a = Some f → f ≤ v.
Proof.
  intros Hs Hp Hf. unfold percentile in Hp.
  set (vi := Qc_of_Z (Z.of_nat (length a) - 1) * p / q 100 1) in *.
  destruct (a !! Z.to_nat (Qfloor vi)) as [x|] eqn:Hx; [|done].
  destruct (a !! Z.to_nat (Z.min (Qfloor vi + 1) (Z.of_nat (length a) - 1)))
    as [y|] eqn:Hy; [|done].
  injection Hp as <-.
  pose proof (lookup_lt_Some _ _ _ Hx) as Hxlt.
  rewrite head_lookup in Hf.
  apply Qcle_trans with x.
  - eapply (StronglySorted_lookup_le a); [done| |done..]. lia.
  - apply interpolation_ge; [|apply fraction_ge_0].
    eapply (StronglySorted_lookup_le a); [done| |done..]. lia.
Qed.

Lemma virtual_index_mono (n : nat) (p p' : Qc) :
  (1 ≤ n)%nat → p ≤ p' →
  Qc_of_Z (Z.of_nat n - 1) * p / q 100 1
  ≤ Qc_of_Z (Z.of_nat n - 1) * p' / q 100 1.
Proof.
  intros Hn Hp. unfold Qcdiv. apply Qcmult_le_compat_r; [|by vm_compute].
  rewrite !(Qcmult_comm (Qc_of_Z _)). apply Qcmult_le_compat_r; [done|].
  unfold Qcle. cbn. rewrite Qred_correct.
  change 0%Q with (inject_Z 0). rewrite <- Zle_Qle. lia.
Qed.

(** [np.percentile] on a sorted array grows with the percentage. *)
Lemma percentile_mono a p p' v v' :
  StronglySorted Qcle a → p ≤ p' →
  percentile a p = Some v → percentile a p' = Some v' → v ≤ v'.
Proof.
  intros Hs Hpp Hp Hp'. unfold percentile in Hp, Hp'.
  assert (1 ≤ length a)%nat as Hn.
  { destruct a; cbn; [|lia]. by rewrite !lookup_nil in Hp. }
  pose proof (virtual_index_mono (length a) p p' Hn Hpp) as Hvi.
  set (vi := Qc_of_Z (Z.of_nat (length a) - 1) * p / q 100 1) in *.
  set (vi' := Qc_of_Z (Z.of_nat (length a) - 1) * p' / q 100 1) in *.
  assert (Qfloor vi ≤ Qfloor vi')%Z as Hfl by by apply Qfloor_resp_le.
  pose proof (fraction_ge_0 vi') as Hg0. pose proof (fraction_le_1 vi) as Hg1.
  assert (Qfloor vi = Qfloor vi' →
          vi - Qc_of_Z (Qfloor vi) ≤ vi' - Qc_of_Z (Qfloor vi')) as Hgg.
  { intros ->. unfold Qcminus. by apply Qcplus_le_mono_r. }
  set (g := vi - Qc_of_Z (Qfloor vi)) in *.
  set (g' := vi' - Qc_of_Z (Qfloor vi')) in *.
  set (f := Qfloor vi) in *. set (f' := Qfloor vi') in *.
  clearbody g g' f f'. clear Hvi vi vi'.
  destruct (a !! Z.to_nat f) as [x|] eqn:Hx; [|done].
  destruct (a !! Z.to_nat (Z.min (f + 1) (Z.of_nat (length a) - 1)))
    as [y|] eqn:Hy; [|done].
  destruct (a !! Z.to_nat f') as [x'|] eqn:Hx'; [|done].
  destruct (a !! Z.to_nat (Z.min (f' + 1) (Z.of_nat (length a) - 1)))
    as [y'|] eqn:Hy'; [|done].
  injection Hp as <-. injection Hp' as <-.
  pose proof (lookup_lt_Some _ _ _ Hx) as Hxlt.
  pose proof (lookup_lt_Some _ _ _ Hx') as Hxlt'.
  assert (x ≤ y) as Hxy.
  { eapply (StronglySorted_lookup_le a); [done| |done..]. lia. }
  assert (x' ≤ y') as Hxy'.
  { eapply (StronglySorted_lookup_le a); [done| |done..]. lia. }
  destruct (decide (f = f')) as [Heq|Hne].
  - subst f'. assert (x' = x) as -> by congruence.
    assert (y' = y) as -> by congruence.
    apply interpolation_mono; [done|]. by apply Hgg.
  - apply Qcle_trans with y; [by apply interpolation_le|].
    apply Qcle_trans with x'; [|by apply interpolation_ge].
    eapply (StronglySorted_lookup_le a); [done| |done..]. lia.
Qed.

Lemma maximum_l x y : y ≤ x → maximum x y = x.
Proof.
  intros Hyx. unfold maximum. case_decide; [|done]. by apply Qcle_antisym.
Qed.

Lemma minimum_l x y : x ≤ y → minimum x y = x.
Proof. intros Hxy. unfold minimum. by case_decide. Qed.

Lemma maximum_le x y z : x ≤ z → y ≤ z → maximum x y ≤ z.
Proof. intros Hx Hy. unfold maximum. by case_decide. Qed.

Lemma fences (q1 q3 : Qc) :
  q1 ≤ q3 → q1 - (q3 - q1) * q 3 2 ≤ q1 ∧ q3 ≤ q3 + (q3 - q1) * q 3 2.
Proof.
  intros Hq. assert (0 ≤ (q3 - q1) * q 3 2) as Hiqr.
  { apply Qcmult_nonneg; [|by vm_compute].
    apply (Qcplus_le_mono_r _ _ q1). by replace (q3 - q1 + q1) with q3 by ring;
      rewrite Qcplus_0_l. }
  split.
  - apply (Qcplus_le_mono_r _ _ ((q3 - q1) * q 3 2)).
    replace (q1 - (q3 - q1) * q 3 2 + (q3 - q1) * q 3 2) with (q1 + 0) by ring.
    by apply Qcplus_le_mono_l.
  - replace q3 with (q3 + 0) at 1 by ring. by apply Qcplus_le_mono_l.
Qed.

(** The whiskers of a sorted, non-empty list of rewards with [q1] and [q3]
    its 25th and 75th percentiles: [adjacent_values] returns the Tukey
    fences cut to the range of the data, the lower one the larger of
    [q1 - 1.5 (q3 - q1)] and the smallest reward, the upper one the
    smaller of [q3 + 1.5 (q3 - q1)] and the largest reward; so the
    whiskers enclose the box and never leave the range of the data:
    [vals[0] <= lower <= q1 <= q3 <= upper <= vals[-1]]. *)
Theorem whiskers_of_sorted_rewards {S} (σ : S) vals q1 q3 first final :
  StronglySorted Qcle vals →
  head vals = Some first → last vals = Some final →
  percentile vals (q 25 1) = Some q1 → percentile vals (q 75 1) = Some q3 →
  ∃ lower upper,
    adjacent_values vals q1 q3 σ = (Ret (lower, upper), σ)
    ∧ lower = maximum (q1 - (q3 - q1) * q 3 2) first
    ∧ upper = minimum (q3 + (q3 - q1) * q 3 2) final
    ∧ first ≤ lower ∧ lower ≤ q1 ∧ q1 ≤ q3 ∧ q3 ≤ upper ∧ upper ≤ final.
Proof.
  intros Hs Hfirst Hlast Hq1 Hq3.
  assert (q1 ≤ q3) as Hq.
  { apply (percentile_mono vals (q 25 1) (q 75 1) q1 q3 Hs); [|done..].
    by vm_compute. }
  assert (first ≤ q1) as Hf by by eapply percentile_ge_first.
  assert (q3 ≤ final) as Hl by by eapply percentile_le_last.
  destruct (fences q1 q3 Hq) as [Hlo Hhi].
  eexists _, _. split; [|split; [|split]].
  - unfold adjacent_values.
    erewrite bind_run; [erewrite bind_run; [done|]|].
    + destruct vals as [|x rest]; [done|]. injection Hfirst as ->.
      by apply (getitem_ret _ _ _ 0%nat).
    + rewrite last_lookup in Hlast.
      apply (getitem_ret _ _ _ (Nat.pred (length vals))); [|done].
      apply lookup_lt_Some in Hlast.
      unfold py_index. repeat case_decide; try lia. f_equal. lia.
  - unfold clip. apply minimum_l. by apply maximum_le.
  - unfold clip. by rewrite maximum_l.
  - repeat split; try done.
    + by apply clip_ge.
    + apply clip_le.
    + by apply clip_ge.
    + apply clip_le.
Qed.

Lemma whiskers_of_sorted_rewards_witness :
  ∃ lower upper,
    adjacent_values [q 1 1; q 20 1; q 30 1; q 40 1; q 50 1] (q 20 1) (q 40 1) ()
    = (Ret (lower, upper), ())
    ∧ lower = maximum (q 20 1 - (q 40 1 - q 20 1) * q 3 2) (q 1 1)
    ∧ upper = minimum (q 40 1 + (q 40 1 - q 20 1) * q 3 2) (q 50 1)
    ∧ q 1 1 ≤ lower ∧ lower ≤ q 20 1 ∧ q 20 1 ≤ q 40 1 ∧ q 40 1 ≤ upper
    ∧ upper ≤ q 50 1.
Proof.
  apply (whiskers_of_sorted_rewards ()
           [q 1 1; q 20 1; q 30 1; q 40 1; q 50 1]).
  - apply (bool_decide_unpack _). vm_compute. exact I.
  - reflexivity.
  - reflexivity.
  - vm_compute. reflexivity.
  - vm_compute. reflexivity.
Defined.

(** [adjacent_values] reads the first and the last reward: on an empty
    list it raises [IndexError]; on any other list it returns, whatever
    the order of the rewards and whatever [q1] and [q3] are. *)
Theorem adjacent_values_outcome {S} (σ : S) vals q1 q3 :
  (vals = [] → adjacent_values vals q1 q3 σ = (Raise IndexError, σ))
  ∧ (vals ≠ [] →
     ∃ lower upper, adjacent_values vals q1 q3 σ = (Ret (lower, upper), σ)).
Proof.
  split; [by intros ->|]. intros Hne.
  destruct vals as [|first rest]; [done|].
  destruct (last (first :: rest)) as [l|] eqn:Hl.
  2:{ by apply last_None in Hl. }
  eexists _, _. unfold adjacent_values.
  erewrite bind_run; [erewrite bind_run; [done|]|].
  - by apply (getitem_ret _ _ _ 0%nat).
  - rewrite last_lookup in Hl.
    apply (getitem_ret _ _ _ (Nat.pred (length (first :: rest)))); [|done].
    unfold py_index. cbn [length]. repeat case_decide; try lia. f_equal. lia.
Qed.

Lemma adjacent_values_outcome_witness :
  adjacent_values [] 0 1 () = (Raise IndexError, ())
  ∧ ∃ lower upper, adjacent_values [q 3 1; 1] 0 1 () = (Ret (lower, upper), ()).
Proof.
  split.
  - by apply (adjacent_values_outcome () [] 0 1).
  - by apply (adjacent_values_outcome () [q 3 1; 1] 0 1).
Defined.

(** * Properties of the callbacks *)

Lemma pbind_returns {S A B} (c : P S A) (k : A → P S B) σ a σ1 :
  c σ = (Returns a, σ1) → (let+ x := c in k x) σ = k a σ1.
Proof. unfold pbind. by intros ->. Qed.

Lemma pbind_raises {S A B} (c : P S A) (k : A → P S B) σ e σ1 :
  c σ = (Raises e, σ1) → (let+ x := c in k x) σ = (Raises e, σ1).
Proof. unfold pbind. by intros ->. Qed.

Lemma for_each_app {S A} (xs ys : list A) (body : A → P S unit) σ :
  for_each (xs ++ ys) body σ
  = (let+ _ := for_each xs body in for_each ys body) σ.
Proof.
  revert σ. induction xs as [|x xs IH]; intros σ; [reflexivity|].
  cbn [app for_each]. unfold pbind.
  destruct (body x σ) as [[[]|e] σ1]; [|done]. apply IH.
Qed.

Section callbacks_properties.
Context {V : Type} (np_sum : list V → V).
Implicit Types (episode : @Episode V).

Local Abbreviation on_episode_end := (on_episode_end np_sum).

(** The two nested loops of a callback are one loop over the items. *)
Lemma for_each_items {S} (f : string → V → P S unit) info σ :
  for_each info (λ '(a_key, inner),
    for_each inner (λ '(b_key, value), f (metric_key a_key b_key) value)) σ
  = for_each (items_of info) (λ '(key, value), f key value) σ.
Proof.
  revert σ. induction info as [|[a_key inner] info IH]; intros σ; [done|].
  unfold items_of. cbn [mbind list_bind]. fold (items_of info).
  cbn [for_each]. rewrite for_each_app. unfold pbind.
  assert (∀ σ, for_each inner (λ '(b_key, value), f (metric_key a_key b_key) value) σ
            = for_each (inner ≫= λ '(b_key, value), [(metric_key a_key b_key, value)])
                (λ '(key, value), f key value) σ) as ->.
  { clear. induction inner as [|[b_key value] inner IH]; intros σ; [done|].
    cbn [mbind list_bind for_each app]. unfold pbind.
    destruct (f _ _ σ) as [[[]|e] σ1]; [|done]. apply IH. }
  destruct (for_each (inner ≫= _) _ σ) as [[[]|e] σ1]; [|done]. apply IH.
Qed.

Lemma on_episode_step_item key value episode :
  try_except_KeyError
    (let+ metric := user_data_getitem key in
     user_data_setitem key (metric ++ [value]))
    (user_data_setitem key [value]) episode
  = (Returns (),
     {| last_info_for := last_info_for episode;
        user_data :=
          <[key := default [] (user_data episode !! key) ++ [value]]>
            (user_data episode);
        custom_metrics := custom_metrics episode |}).
Proof.
  unfold try_except_KeyError, pbind, user_data_getitem, user_data_setitem.
  by destruct (user_data episode !! key).
Qed.

Lemma filter_key_cons (key k : string) (v : V) items :
  (filter (λ item : string * V, item.1 = key) ((k, v) :: items)).*2
  = (if decide (k = key) then [v] else [])
    ++ (filter (λ item : string * V, item.1 = key) items).*2.
Proof.
  rewrite filter_cons. cbn [fst]. by destruct (decide (k = key)).
Qed.

Lemma step_items items episode :
  ∃ episode',
    for_each items (λ '(key, value),
      try_except_KeyError
        (let+ metric := user_data_getitem key in
         user_data_setitem key (metric ++ [value]))
        (user_data_setitem key [value])) episode = (Returns (), episode')
    ∧ last_info_for episode' = last_info_for episode
    ∧ custom_metrics episode' = custom_metrics episode
    ∧ ∀ key,
        default [] (user_data episode' !! key)
        = default [] (user_data episode !! key)
          ++ (filter (λ item, item.1 = key) items).*2
        ∧ (is_Some (user_data episode' !! key)
           ↔ is_Some (user_data episode !! key) ∨ key ∈ items.*1).
Proof.
  revert episode. induction items as [|[k v] items IH]; intros episode.
  - exists episode. repeat split; try done.
    + by rewrite app_nil_r.
    + by left.
    + intros [?|Hin]; [done|]. by apply elem_of_nil in Hin.
  - cbn [for_each]. erewrite pbind_returns by apply on_episode_step_item.
    edestruct IH as (episode' & -> & Hinfo & Hcm & Hud).
    exists episode'. split; [done|]. split; [done|]. split; [done|].
    intros key. destruct (Hud key) as [Hval Hsome].
    cbn [user_data] in Hval, Hsome. rewrite filter_key_cons.
    cbn [fmap list_fmap fst]. rewrite Hval, Hsome, elem_of_cons.
    destruct (decide (k = key)) as [->|Hne].
    + rewrite lookup_insert_eq. cbn. split; [by rewrite <- app_assoc|].
      split; [auto|]. intros _. left. eauto.
    + rewrite lookup_insert_ne by done. cbn. split; [done|].
      split; [intros [?|?]; auto|]. intros [?|[?|?]]; auto. congruence.
Qed.

Lemma on_episode_step_spec episode :
  ∃ episode',
    on_episode_step episode = (Returns (), episode')
    ∧ last_info_for episode' = last_info_for episode
    ∧ custom_metrics episode' = custom_metrics episode
    ∧ ∀ key,
        default [] (user_data episode' !! key)
        = default [] (user_data episode !! key)
          ++ values_for key (last_info_for episode)
        ∧ (is_Some (user_data episode' !! key)
           ↔ is_Some (user_data episode !! key)
             ∨ key ∈ keys_of (last_info_for episode)).
Proof.
  unfold on_episode_step.
  rewrite (for_each_items
             (λ key value,
                try_except_KeyError
                  (let+ metric := user_data_getitem key in
                   user_data_setitem key (metric ++ [value]))
                  (user_data_setitem key [value]))).
  apply step_items.
Qed.

(** A step callback never raises.  For every key, the list kept under it
    (no list counting as the empty one) grows by exactly the values the
    last info reports under that key, in the order of the info; a key is
    in [user_data] afterwards if it was there before or the info has it;
    the custom metrics are not touched. *)
Theorem on_episode_step_appends episode :
  ∃ episode',
    on_episode_step episode = (Returns (), episode')
    ∧ last_info_for episode' = last_info_for episode
    ∧ custom_metrics episode' = custom_metrics episode
    ∧ ∀ key,
        default [] (user_data episode' !! key)
        = default [] (user_data episode !! key)
          ++ values_for key (last_info_for episode)
        ∧ (is_Some (user_data episode' !! key)
           ↔ is_Some (user_data episode !! key)
             ∨ key ∈ keys_of (last_info_for episode)).
Proof. apply on_episode_step_spec. Qed.

(** ** The end of an episode *)

Lemma end_items (items : list (string * V)) episode :
  Forall (λ key, is_Some (user_data episode !! key)) items.*1 →
  ∃ episode',
    for_each items (λ '(key, _),
      let+ metric := user_data_getitem key in
      custom_metrics_setitem key (np_sum metric)) episode
    = (Returns (), episode')
    ∧ last_info_for episode' = last_info_for episode
    ∧ user_data episode' = user_data episode
    ∧ ∀ key,
        custom_metrics episode' !! key
        = if decide (key ∈ items.*1) then np_sum <$> user_data episode !! key
          else custom_metrics episode !! key.
Proof.
  revert episode. induction items as [|[k v] items IH]; intros episode Hall.
  - by exists episode.
  - cbn [fmap list_fmap fst] in Hall.
    apply Forall_cons_1 in Hall as [[m Hm] Hall].
    cbn [for_each]. unfold pbind at 1. unfold pbind at 1.
    unfold user_data_getitem at 1. rewrite Hm.
    unfold custom_metrics_setitem at 1.
    edestruct (IH {| last_info_for := last_info_for episode;
                     user_data := user_data episode;
                     custom_metrics := <[k := np_sum m]> (custom_metrics episode) |})
      as (episode' & -> & Hinfo & Hud & Hcm); [done|].
    exists episode'. split; [done|]. split; [done|]. split; [done|].
    intros key. rewrite Hcm. cbn [user_data custom_metrics fmap list_fmap fst].
    destruct (decide (key ∈ items.*1)) as [Hin|Hnin].
    + by rewrite decide_True by by apply list_elem_of_further.
    + destruct (decide (key = k)) as [->|Hne].
      * rewrite decide_True by apply list_elem_of_here.
        by rewrite lookup_insert_eq, Hm.
      * rewrite lookup_insert_ne by done. rewrite decide_False; [done|].
        by intros [?|?]%elem_of_cons.
Qed.

Lemma end_items_raise (items1 : list (string * V)) k v items2 episode :
  Forall (λ key, is_Some (user_data episode !! key)) items1.*1 →
  user_data episode !! k = None →
  ∃ episode',
    for_each (items1 ++ (k, v) :: items2) (λ '(key, _),
      let+ metric := user_data_getitem key in
      custom_metrics_setitem key (np_sum metric)) episode
    = (Raises (KeyError k), episode')
    ∧ last_info_for episode' = last_info_for episode
    ∧ user_data episode' = user_data episode
    ∧ ∀ key,
        custom_metrics episode' !! key
        = if decide (key ∈ items1.*1) then np_sum <$> user_data episode !! key
          else custom_metrics episode !! key.
Proof.
  intros Hall Hk.
  destruct (end_items items1 episode Hall) as (episode' & Hrun & Hinfo & Hud & Hcm).
  exists episode'. rewrite for_each_app. erewrite pbind_returns by exact Hrun.
  split; [|done]. cbn [for_each]. unfold pbind, user_data_getitem.
  by rewrite Hud, Hk.
Qed.

Lemma on_episode_end_items episode :
  on_episode_end episode
  = for_each (items_of (last_info_for episode)) (λ '(key, _),
      let+ metric := user_data_getitem key in
      custom_metrics_setitem key (np_sum metric)) episode.
Proof.
  unfold on_episode_end.
  exact (for_each_items
           (λ key (_ : V),
              let+ metric := user_data_getitem key in
              custom_metrics_setitem key (np_sum metric)) _ _).
Qed.

(** [on_episode_end] returns when [user_data] has a list for every key
    of the last info, and then sets the custom metric of each of these
    keys to what NumPy's sum gives of its list, leaving the other metrics
    alone.  Otherwise it raises [KeyError] for the first key of the info,
    in the order of its loops, that has no list: the metrics of the keys
    before that one are already set. *)
Theorem on_episode_end_outcome episode :
  (Forall (λ key, is_Some (user_data episode !! key))
          (keys_of (last_info_for episode)) →
   ∃ episode',
     on_episode_end episode = (Returns (), episode')
     ∧ user_data episode' = user_data episode
     ∧ ∀ key,
         custom_metrics episode' !! key
         = if decide (key ∈ keys_of (last_info_for episode))
           then np_sum <$> user_data episode !! key
           else custom_metrics episode !! key)
  ∧ (∀ keys1 k keys2,
       keys_of (last_info_for episode) = keys1 ++ k :: keys2 →
       Forall (λ key, is_Some (user_data episode !! key)) keys1 →
       user_data episode !! k = None →
       ∃ episode',
         on_episode_end episode = (Raises (KeyError k), episode')
         ∧ user_data episode' = user_data episode
         ∧ ∀ key,
             custom_metrics episode' !! key
             = if decide (key ∈ keys1)
               then np_sum <$> user_data episode !! key
               else custom_metrics episode !! key).
Proof.
  rewrite on_episode_end_items. split.
  - intros Hall.
    destruct (end_items _ episode Hall) as (episode' & ? & ? & ? & ?).
    by exists episode'.
  - intros keys1 k keys2 Hkeys Hall Hk. unfold keys_of in Hkeys.
    apply fmap_app_inv in Hkeys as (items1 & items' & -> & Hitems' & Hitems).
    symmetry in Hitems'.
    apply fmap_cons_inv in Hitems' as ([k' v] & items2 & Hk' & _ & ->).
    cbn in Hk'. subst k'. rewrite Hitems.
    destruct (end_items_raise items1 k v items2 episode Hall Hk)
      as (episode' & ? & ? & ? & ?).
    by exists episode'.
Qed.

End callbacks_properties.

Lemma on_episode_end_outcome_witness :
  (∃ episode',
     on_episode_end (foldr Z.add 0%Z)
       {| last_info_for := [("agent_0", [("rew", 1%Z)])];
          user_data := {["agent_0/rew" := [1; 1]%Z]};
          custom_metrics := ∅ |} = (Returns (), episode')
     ∧ custom_metrics episode' !! "agent_0/rew" = Some 2%Z)
  ∧ (∃ episode',
       on_episode_end (foldr Z.add 0%Z)
         {| last_info_for := [("agent_0", [("rew", 1%Z); ("pos", 1%Z)])];
            user_data := {["agent_0/rew" := [1; 1]%Z]};
            custom_metrics := ∅ |} = (Raises (KeyError "agent_0/pos"), episode')
       ∧ custom_metrics episode' !! "agent_0/rew" = Some 2%Z).
Proof.
  split.
  - edestruct (proj1 (on_episode_end_outcome (foldr Z.add 0%Z)
                        {| last_info_for := [("agent_0", [("rew", 1%Z)])];
                           user_data := {["agent_0/rew" := [1; 1]%Z]};
                           custom_metrics := ∅ |}))
      as (episode' & Hrun & _ & Hcm).
    + apply (bool_decide_unpack _). vm_compute. exact I.
    + exists episode'. split; [exact Hrun|]. rewrite Hcm. by vm_compute.
  - edestruct (proj2 (on_episode_end_outcome (foldr Z.add 0%Z)
                        {| last_info_for :=
                             [("agent_0", [("rew", 1%Z); ("pos", 1%Z)])];
                           user_data := {["agent_0/rew" := [1; 1]%Z]};
                           custom_metrics := ∅ |})
                 ["agent_0/rew"] "agent_0/pos" [])
      as (episode' & Hrun & _ & Hcm).
    + by vm_compute.
    + apply (bool_decide_unpack _). vm_compute. exact I.
    + by vm_compute.
    + exists episode'. split; [exact Hrun|]. rewrite Hcm. by vm_compute.
Defined.

(** ** The metrics of a whole episode *)

Section episode_metrics.
Context {V : Type} (np_sum : list V → V).
Implicit Types (episode : @Episode V).

Lemma episode_steps_spec infos episode :
  ∃ episode',
    episode_steps infos episode = (Returns (), episode')
    ∧ last_info_for episode' = default (last_info_for episode) (last infos)
    ∧ custom_metrics episode' = custom_metrics episode
    ∧ ∀ key,
        default [] (user_data episode' !! key)
        = default [] (user_data episode !! key) ++ (infos ≫= values_for key)
        ∧ (is_Some (user_data episode' !! key)
           ↔ is_Some (user_data episode !! key)
             ∨ ∃ info, info ∈ infos ∧ key ∈ keys_of info).
Proof.
  revert episode. induction infos as [|info infos IH]; intros episode.
  - exists episode. repeat split; try done.
    + by rewrite app_nil_r.
    + by left.
    + intros [?|(info & Hin & _)]; [done|]. by apply elem_of_nil in Hin.
  - unfold episode_steps. cbn [for_each].
    destruct (on_episode_step_spec (with_info info episode))
      as (episode1 & Hstep & Hinfo1 & Hcm1 & Hud1).
    erewrite pbind_returns by exact Hstep.
    destruct (IH episode1) as (episode' & Hrun & Hinfo & Hcm & Hud).
    exists episode'. split; [exact Hrun|]. split.
    { rewrite Hinfo, Hinfo1. cbn [with_info last_info_for].
      rewrite last_cons. by destruct (last infos). }
    split; [by rewrite Hcm, Hcm1|].
    intros key. destruct (Hud key) as [Hval Hsome].
    destruct (Hud1 key) as [Hval1 Hsome1].
    cbn [with_info last_info_for user_data] in Hval1, Hsome1.
    split.
    + rewrite Hval, Hval1. cbn [mbind list_bind]. by rewrite <- app_assoc.
    + rewrite Hsome, Hsome1. split.
      * intros [[?|?]|(info' & Hin & ?)]; [by left| |].
        -- right. exists info. split; [apply list_elem_of_here|done].
        -- right. exists info'. split; [by apply list_elem_of_further|done].
      * intros [?|(info' & [->|Hin]%elem_of_cons & ?)]; [by left; left| |].
        -- by left; right.
        -- right. by exists info'.
Qed.

(** Over a whole episode that starts with no user data: after a step
    callback for the info of each step and the end callback, which sees
    the info of the last step, no callback has raised, and the custom
    metric of every key of the last info is what NumPy's sum gives of the
    values reported under that key at all the steps of the episode, in
    their order; the other custom metrics are as they were. *)
Theorem episode_metrics_are_sums infos info episode :
  user_data episode = ∅ → last infos = Some info →
  ∃ episode1 episode2,
    episode_steps infos episode = (Returns (), episode1)
    ∧ on_episode_end np_sum episode1 = (Returns (), episode2)
    ∧ ∀ key,
        custom_metrics episode2 !! key
        = if decide (key ∈ keys_of info)
          then Some (np_sum (infos ≫= values_for key))
          else custom_metrics episode !! key.
Proof.
  intros Hempty Hlast.
  destruct (episode_steps_spec infos episode)
    as (episode1 & Hrun & Hinfo & Hcm & Hud).
  rewrite Hlast in Hinfo. cbn in Hinfo.
  assert (∀ key, key ∈ keys_of info →
                 user_data episode1 !! key = Some (infos ≫= values_for key))
    as Hkeys.
  { intros key Hkey. destruct (Hud key) as [Hval Hsome].
    rewrite Hempty, lookup_empty in Hval. cbn in Hval.
    destruct (user_data episode1 !! key) as [m|] eqn:Hm; [by rewrite <- Hval|].
    exfalso. apply (is_Some_None (A := list V)). apply Hsome. right.
    exists info. split; [|done]. rewrite last_lookup in Hlast.
    by eapply list_elem_of_lookup_2. }
  exists episode1. rewrite on_episode_end_items, Hinfo.
  destruct (end_items np_sum (items_of info) episode1)
    as (episode2 & Hend & _ & _ & Hcm2).
  { apply Forall_forall. intros key Hkey. rewrite Hkeys; [eauto|done]. }
  exists episode2. split; [done|]. split; [done|].
  intros key. rewrite Hcm2. fold (keys_of info).
  destruct (decide (key ∈ keys_of info)) as [Hkey|_]; [|by rewrite Hcm].
  by rewrite Hkeys.
Qed.

End episode_metrics.

Lemma episode_metrics_are_sums_witness :
  ∃ episode1 episode2,
    episode_steps [[("agent_0", [("rew", 1%Z)])]; [("agent_0", [("rew", 2%Z)])]]
      {| last_info_for := []; user_data := ∅; custom_metrics := ∅ |}
    = (Returns (), episode1)
    ∧ on_episode_end (foldr Z.add 0%Z) episode1 = (Returns (), episode2)
    ∧ ∀ key,
        custom_metrics episode2 !! key
        = if decide (key ∈ keys_of [("agent_0", [("rew", 2%Z)])])
          then Some (foldr Z.add 0%Z
                       ([[("agent_0", [("rew", 1%Z)])];
                         [("agent_0", [("rew", 2%Z)])]]
                        ≫= values_for key))
          else (∅ : gmap string Z) !! key.
Proof.
  by apply (episode_metrics_are_sums (foldr Z.add 0%Z)
              [[("agent_0", [("rew", 1%Z)])]; [("agent_0", [("rew", 2%Z)])]]
              [("agent_0", [("rew", 2%Z)])]
              {| last_info_for := []; user_data := ∅; custom_metrics := ∅ |}).
Defined.

(** ** Keys *)

Lemma append_nil_l (s : string) : "" +:+ s = s.
Proof. reflexivity. Qed.

Lemma append_cons (c : ascii) (s t : string) :
  String c s +:+ t = String c (s +:+ t).
Proof. reflexivity. Qed.

(** Two pairs of an agent key and a metric key are filed under the same
    key of [user_data] only if they are the same pair, provided no agent
    key contains a slash. *)
Theorem metric_key_inj a_key b_key a_key' b_key' :
  ¬ occurs "/"%char a_key → ¬ occurs "/"%char a_key' →
  metric_key a_key b_key = metric_key a_key' b_key' →
  a_key = a_key' ∧ b_key = b_key'.
Proof.
  unfold metric_key. revert a_key'.
  induction a_key as [|c a_key IH]; intros [|c' a_key'] Ha Ha' Heq;
    repeat first [rewrite append_nil_l in Heq | rewrite append_cons in Heq];
    cbn in Ha, Ha'.
  - by injection Heq as ->.
  - injection Heq as <- _. tauto.
  - injection Heq as -> _. tauto.
  - injection Heq as -> Heq. destruct (IH a_key') as [-> ->]; tauto.
Qed.

Lemma metric_key_inj_witness :
  "agent_0" = "agent_0" ∧ "rew" = "rew".
Proof.
  apply (metric_key_inj "agent_0" "rew" "agent_0" "rew").
  - cbn. intros H. repeat destruct H as [H|H]; done.
  - cbn. intros H. repeat destruct H as [H|H]; done.
  - reflexivity.
Defined.

(** * Properties of the names *)

Lemma lower_char_idemp c : lower_char (lower_char c) = lower_char c.
Proof. by destruct c as [[] [] [] [] [] [] [] []]; vm_compute. Qed.

Lemma lower_char_no_space c : lower_char c = " "%char → c = " "%char.
Proof. by destruct c as [[] [] [] [] [] [] [] []]; vm_compute. Qed.

Lemma occurs_map_string f c s :
  occurs c (map_string f s) → ∃ c0, occurs c0 s ∧ c = f c0.
Proof.
  induction s as [|c' s IH]; [done|]. cbn. intros [->|Hin].
  - exists c'. auto.
  - destruct (IH Hin) as (c0 & ? & ?). exists c0. auto.
Qed.

(** The normal form [get_model_name] gives a name: small letters, and an
    underscore for every space. *)
Lemma normalised s c :
  occurs c (replace " " "_" (lower s)) → c ≠ " "%char ∧ lower_char c = c.
Proof.
  intros (c1 & (c0 & _ & ->)%occurs_map_string & ->)%occurs_map_string.
  case_decide as Hsp.
  - split; [done|]. by vm_compute.
  - split; [done|]. apply lower_char_idemp.
Qed.

(** When [get_model_name] returns, the model title is one of [HetGIPPO],
    [HetIPPO], [GIPPO] and [IPPO], the model name is that title in small
    letters, the environment title is the scenario name of the
    configuration, a string, and the environment name is that string in
    small letters with an underscore for every space: it contains no space
    and no capital letter. *)
Theorem get_model_name_names config model_title model_name env_title env_name :
  get_model_name config
  = Returns (model_title, model_name, env_title, env_name) →
  (model_title, model_name)
    ∈ [("HetGIPPO", "hetgippo"); ("HetIPPO", "hetippo");
       ("GIPPO", "gippo"); ("IPPO", "ippo")]
  ∧ ∃ scenario_name,
      env_title = PyStr scenario_name
      ∧ env_name = replace " " "_" (lower scenario_name)
      ∧ ∀ c, occurs c env_name → c ≠ " "%char ∧ lower_char c = c.
Proof.
  unfold get_model_name.
  destruct (subscript config "model") as [model|]; [cbn|done].
  destruct (subscript model "custom_model_config") as [cmc|]; [cbn|done].
  destruct (subscript cmc "heterogeneous") as [is_hetero|]; [cbn|done].
  destruct (subscript cmc "share_observations") as [is_gippo|]; [cbn|done].
  destruct (subscript config "env_config") as [env_config|]; [cbn|done].
  destruct (subscript env_config "scenario_name") as [scenario_name|]; [cbn|done].
  destruct (subscript env_config "scenario_config") as [sc|]; [cbn|done].
  destruct scenario_name as [| | | |s| | |]; try done. cbn.
  intros [= <- <- <- <-]. split.
  - destruct (truthy is_hetero), (truthy is_gippo); vm_compute;
      repeat first [apply list_elem_of_here | apply list_elem_of_further].
  - exists s. split; [done|]. split; [done|]. apply normalised.
Qed.

Lemma get_model_name_names_witness :
  get_model_name demo_config
  = Returns ("HetGIPPO", "hetgippo", PyStr "Het Test", "het_test")
  ∧ ("HetGIPPO", "hetgippo")
      ∈ [("HetGIPPO", "hetgippo"); ("HetIPPO", "hetippo");
         ("GIPPO", "gippo"); ("IPPO", "ippo")]
  ∧ ∃ scenario_name,
      PyStr "Het Test" = PyStr scenario_name
      ∧ "het_test" = replace " " "_" (lower scenario_name)
      ∧ ∀ c, occurs c "het_test" → c ≠ " "%char ∧ lower_char c = c.
Proof.
  split; [by vm_compute|].
  apply (get_model_name_names demo_config). by vm_compute.
Defined.

(** ** The names of an injection *)

Lemma append_assoc (s1 s2 s3 : string) :
  (s1 +:+ s2) +:+ s3 = s1 +:+ (s2 +:+ s3).
Proof.
  induction s1 as [|c s1 IH]; [done|]. by rewrite !append_cons, IH.
Qed.

Section formats_properties.
Context (format_set : list Z → string) (format_float : Qc → string).

(** For a set of agents that is not empty, the title and the name of an
    injection tell the two modes apart, whatever the magnitudes: figures
    and files named after them never mix up an observation and an action
    injection on the same agents. *)
Theorem get_inject_name_tells_modes agents mode mode' d d' :
  agents ≠ [] → mode ≠ mode' →
  (get_inject_name format_set format_float (Some agents) mode d).1
  ≠ (get_inject_name format_set format_float (Some agents) mode' d').1
  ∧ (get_inject_name format_set format_float (Some agents) mode d).2
    ≠ (get_inject_name format_set format_float (Some agents) mode' d').2.
Proof.
  intros Hne Hmode. unfold get_inject_name.
  rewrite bool_decide_eq_true_2 by (destruct agents; [done|cbn; lia]).
  cbn [fst snd].
  split; intros Heq; rewrite !append_assoc in Heq;
    do 3 apply (inj (String.app _)) in Heq;
    destruct mode, mode'; try done; cbn [name] in Heq;
    by repeat first [rewrite append_nil_l in Heq | rewrite append_cons in Heq].
Qed.

End formats_properties.

Lemma get_inject_name_tells_modes_witness :
  (get_inject_name (λ _, "{0}") (λ _, "0.1") (Some [0%Z]) OBS_NOISE (q 1 10)).1
  ≠ (get_inject_name (λ _, "{0}") (λ _, "0.1") (Some [0%Z]) ACTION_NOISE
       (q 1 10)).1
  ∧ (get_inject_name (λ _, "{0}") (λ _, "0.1") (Some [0%Z]) OBS_NOISE
       (q 1 10)).2
    ≠ (get_inject_name (λ _, "{0}") (λ _, "0.1") (Some [0%Z]) ACTION_NOISE
         (q 1 10)).2.
Proof.
  by apply (get_inject_name_tells_modes (λ _, "{0}") (λ _, "0.1") [0%Z]
              OBS_NOISE ACTION_NOISE (q 1 10) (q 1 10)).
Defined.

(** * Properties of [evaluate_resilience] *)

Section resilience_properties.
Context {E Frame Info Path : Type}.
Context (get_config_trainer_and_env_from_checkpoint :
           Path → P (state * E) (pyval * @Trainer E * @Env E Frame Info))
        (names_equal : pyval * string → pyval * string → bool)
        (violin : nat → bool → list Qc → P (@world E) unit)
        (performance_maintained : nat → list (list Qc) → P (@world E) unit).
Implicit Types (w : @world E).

Lemma plift_ext_trace {A} (c : P (state * E) A) w r w' :
  plift_ext c w = (r, w') → trace w' = trace w.
Proof.
  unfold plift_ext. destruct (c (py w, ext w)) as [r' [σ e]]. by intros [= _ <-].
Qed.

(** With a checkpoint to evaluate, [evaluate_resilience] never returns
    and never runs an episode: when the first checkpoint is restored and
    its configuration has the entries [get_model_name] reads, the first
    call of [rollout_episodes] raises [TypeError], for it does not name
    the parameter [action_callback]; otherwise the exception is that of
    the restoring or of [get_model_name].  No environment is reset, with
    or without the rollouts that are not injected. *)
Theorem evaluate_resilience_raises checkpoint_path checkpoint_paths
    n_episodes_per_model agents_to_inject inject_mode noise_delta
    plotting_mode compute_also_non_injected fuel w :
  ∃ e w',
    evaluate_resilience get_config_trainer_and_env_from_checkpoint
      names_equal violin performance_maintained
      (checkpoint_path :: checkpoint_paths) n_episodes_per_model
      agents_to_inject inject_mode noise_delta plotting_mode
      compute_also_non_injected fuel w = (Raises e, w')
    ∧ trace w' = trace w
    ∧ ∀ config trainer the_env σ,
        get_config_trainer_and_env_from_checkpoint checkpoint_path
          (py w, ext w) = (Returns (config, trainer, the_env), σ) →
        (∃ names, get_model_name config = Returns names) →
        e = TypeError.
Proof.
  unfold evaluate_resilience, enumerate. cbn [length seq zip zip_with].
  cbn [for_checkpoints]. unfold pbind at 1.
  destruct (plift_ext _ w) as [[[[config trainer] the_env]|e] w1] eqn:Hload.
  2:{ exists e, w1. split; [done|]. split; [by eapply plift_ext_trace|].
      intros config trainer the_env σ Hrun. unfold plift_ext in Hload.
      rewrite Hrun in Hload. by destruct σ. }
  pose proof (plift_ext_trace _ _ _ _ Hload) as Htr.
  unfold pbind at 1. unfold returns at 1. unfold pbind at 1.
  unfold lift_outcome at 1.
  destruct (get_model_name config) as [[[[mt mn] et] en]|e] eqn:Hnames.
  2:{ exists e, w1. split; [done|]. split; [done|].
      intros config' trainer' the_env' σ Hrun [names Hn].
      unfold plift_ext in Hload. rewrite Hrun in Hload. destruct σ.
      injection Hload as -> _ _ _. congruence. }
  exists TypeError, w1. split; [|by split].
  unfold pbind at 1.
  by destruct compute_also_non_injected.
Qed.

End resilience_properties.

Lemma evaluate_resilience_raises_witness :
  ∃ e w',
    evaluate_resilience toy_restore (λ _ _, true) (λ _ _ _, returns ())
      (λ _ _, returns ()) [0%nat] 2 [0%Z] OBS_NOISE (q 1 10) VIOLIN true 5
      toy_world = (Raises e, w')
    ∧ trace w' = trace toy_world
    ∧ e = TypeError.
Proof.
  destruct (evaluate_resilience_raises toy_restore (λ _ _, true)
              (λ _ _ _, returns ()) (λ _ _, returns ()) 0%nat [] 2 [0%Z]
              OBS_NOISE (q 1 10) VIOLIN true 5 toy_world)
    as (e & w' & Hrun & Htr & He).
  exists e, w'. split; [exact Hrun|]. split; [exact Htr|].
  eapply He; [reflexivity|]. eexists. vm_compute. reflexivity.
Defined.

(** * Properties of the restoring *)

Lemma named_lookup (scenario num_envs device continuous_actions max_steps : pyval)
    (k : string) :
  ({[ "scenario" := scenario;
      "num_envs" := num_envs;
      "device" := device;
      "continuous_actions" := continuous_actions;
      "wrapper" := PyEnum "Wrapper.RLLIB";
      "max_steps" := max_steps ]} : gmap string pyval) !! k
  = if decide (k = "scenario") then Some scenario
    else if decide (k = "num_envs") then Some num_envs
    else if decide (k = "device") then Some device
    else if decide (k = "continuous_actions") then Some continuous_actions
    else if decide (k = "wrapper") then Some (PyEnum "Wrapper.RLLIB")
    else if decide (k = "max_steps") then Some max_steps
    else None.
Proof.
  rewrite !lookup_insert, lookup_singleton.
  repeat case_decide; congruence.
Qed.

Lemma fixed_keywords_spec k :
  k ∈ fixed_keywords
  ↔ k = "scenario" ∨ k = "num_envs" ∨ k = "device"
    ∨ k = "continuous_actions" ∨ k = "wrapper" ∨ k = "max_steps".
Proof.
  unfold fixed_keywords. rewrite !elem_of_cons, elem_of_nil. tauto.
Qed.

Lemma named_disjoint (scenario num_envs device continuous_actions max_steps : pyval)
    (sc : gmap string pyval) :
  ({[ "scenario" := scenario;
      "num_envs" := num_envs;
      "device" := device;
      "continuous_actions" := continuous_actions;
      "wrapper" := PyEnum "Wrapper.RLLIB";
      "max_steps" := max_steps ]} : gmap string pyval) ##ₘ sc
  ↔ ∀ k, k ∈ fixed_keywords → sc !! k = None.
Proof.
  rewrite map_disjoint_alt. split.
  - intros Hdis k Hk. destruct (Hdis k) as [Hnone|Hnone]; [|done].
    rewrite named_lookup in Hnone. apply fixed_keywords_spec in Hk.
    repeat case_decide; try done. naive_solver.
  - intros Hsc k. destruct (decide (k ∈ fixed_keywords)) as [Hk|Hk]; [auto|].
    left. rewrite named_lookup. rewrite fixed_keywords_spec in Hk.
    repeat case_decide; try done; naive_solver.
Qed.

Ltac fixed_keyword := unfold fixed_keywords; repeat constructor.

Lemma params_lookup (scenario num_envs device continuous_actions max_steps : pyval)
    (c sc : gmap string pyval) (k : string) :
  c !! "scenario" = Some scenario → c !! "num_envs" = Some num_envs →
  c !! "device" = Some device →
  c !! "continuous_actions" = Some continuous_actions →
  c !! "max_steps" = Some max_steps →
  (∀ k, k ∈ fixed_keywords → sc !! k = None) →
  (({[ "scenario" := scenario;
       "num_envs" := num_envs;
       "device" := device;
       "continuous_actions" := continuous_actions;
       "wrapper" := PyEnum "Wrapper.RLLIB";
       "max_steps" := max_steps ]} : gmap string pyval) ∪ sc ∪ ∅) !! k
  = if decide (k = "wrapper") then Some (PyEnum "Wrapper.RLLIB")
    else if decide (k ∈ fixed_keywords) then c !! k
    else sc !! k.
Proof.
  intros H1 H2 H3 H4 H5 Hdis.
  rewrite (right_id_L ∅ (∪)), lookup_union.
  destruct (decide (k ∈ fixed_keywords)) as [Hk|Hk].
  - rewrite (Hdis k Hk). apply fixed_keywords_spec in Hk.
    destruct Hk as [-> | [-> | [-> | [-> | [-> | ->]]]]];
      rewrite ?lookup_insert_ne by done;
      first [rewrite lookup_insert_eq | rewrite lookup_singleton_eq];
      first [ by rewrite decide_True by done
            | rewrite decide_False by done;
              by rewrite ?H1, ?H2, ?H3, ?H4, ?H5 ].
  - assert (∀ x, x ∈ fixed_keywords → x ≠ k) as Hne.
    { intros x Hx ->. by apply Hk. }
    rewrite !lookup_insert_ne, lookup_singleton_ne by (apply Hne; fixed_keyword).
    rewrite decide_False by (intros ->; apply Hk; fixed_keyword).
    by destruct (sc !! k).
Qed.


(** [env_creator] on a configuration that has the five entries it reads
    and a dictionary [scenario_config]: when no key of [scenario_config] is
    one of the six keywords of the call, the parameters for [make_env] are
    these five entries, the wrapper, and every entry of [scenario_config];
    when a key of [scenario_config] is one of the six, the call raises
    [TypeError] and no environment is made. *)
Theorem env_creator_keywords (c sc : gmap string pyval) :
  (∀ k, k ∈ ["scenario"; "num_envs"; "device"; "continuous_actions";
             "max_steps"] → is_Some (c !! k)) →
  c !! "scenario_config" = Some (PyDict sc) →
  ((∀ k, k ∈ fixed_keywords → sc !! k = None) →
   ∃ params,
     env_params (PyDict c) = Returns params
     ∧ ∀ k, params !! k
            = if decide (k = "wrapper") then Some (PyEnum "Wrapper.RLLIB")
              else if decide (k ∈ fixed_keywords) then c !! k
              else sc !! k)
  ∧ (∀ k, k ∈ fixed_keywords → is_Some (sc !! k) →
     env_params (PyDict c) = Raises TypeError).
Proof.
  intros Hc Hsc.
  destruct (Hc "scenario") as [scenario H1]; [set_solver|].
  destruct (Hc "num_envs") as [num_envs H2]; [set_solver|].
  destruct (Hc "device") as [device H3]; [set_solver|].
  destruct (Hc "continuous_actions") as [continuous_actions H4]; [set_solver|].
  destruct (Hc "max_steps") as [max_steps H5]; [set_solver|].
  assert (env_params (PyDict c)
          = kwargs ← keywords {[ "scenario" := scenario;
                                  "num_envs" := num_envs;
                                  "device" := device;
                                  "continuous_actions" := continuous_actions;
                                  "wrapper" := PyEnum "Wrapper.RLLIB";
                                  "max_steps" := max_steps ]} (PyDict sc);
            mret (kwargs ∪ ∅)) as Hrun.
  { unfold env_params. cbn. rewrite H1. cbn. rewrite H2. cbn. rewrite H3. cbn.
    rewrite H4. cbn. rewrite H5. cbn. by rewrite Hsc. }
  split.
  - intros Hdis. pose proof Hdis as Hdis'.
    apply (named_disjoint scenario num_envs device continuous_actions max_steps)
      in Hdis'.
    eexists. split.
    { rewrite Hrun. unfold keywords. by rewrite bool_decide_eq_true_2. }
    intros k. by apply params_lookup.
  - intros k Hk [v Hv]. rewrite Hrun. unfold keywords.
    rewrite bool_decide_eq_false_2; [done|].
    rewrite named_disjoint. intros Hdis. by rewrite (Hdis k Hk) in Hv.
Qed.

Lemma env_creator_keywords_witness :
  (∃ params,
     env_params (PyDict demo_env_config) = Returns params
     ∧ ∀ k, params !! k
            = if decide (k = "wrapper") then Some (PyEnum "Wrapper.RLLIB")
              else if decide (k ∈ fixed_keywords) then demo_env_config !! k
              else demo_scenario_config !! k)
  ∧ env_params
      (PyDict (<["scenario_config" := PyDict {[ "device" := PyStr "cuda" ]}]>
                 demo_env_config))
    = Raises TypeError.
Proof.
  assert (∀ c : gmap string pyval,
            c !! "scenario" = Some (PyStr "het_test") →
            c !! "num_envs" = Some (PyInt 32) →
            c !! "device" = Some (PyStr "cpu") →
            c !! "continuous_actions" = Some (PyBool true) →
            c !! "max_steps" = Some (PyInt 200) →
            ∀ k, k ∈ ["scenario"; "num_envs"; "device"; "continuous_actions";
                      "max_steps"] → is_Some (c !! k)) as Hfive.
  { intros c H1 H2 H3 H4 H5 k Hk.
    repeat (apply elem_of_cons in Hk as [->|Hk]); eauto.
    by apply elem_of_nil in Hk. }
  split.
  - apply (proj1 (env_creator_keywords demo_env_config demo_scenario_config
                    (Hfive demo_env_config eq_refl eq_refl eq_refl eq_refl
                       eq_refl) eq_refl)).
    intros k Hk. apply fixed_keywords_spec in Hk.
    by destruct Hk as [-> | [-> | [-> | [-> | [-> | ->]]]]].
  - set (c := <["scenario_config" := PyDict {[ "device" := PyStr "cuda" ]}]>
                demo_env_config).
    assert (c !! "scenario" = Some (PyStr "het_test")) as H1 by by vm_compute.
    assert (c !! "num_envs" = Some (PyInt 32)) as H2 by by vm_compute.
    assert (c !! "device" = Some (PyStr "cpu")) as H3 by by vm_compute.
    assert (c !! "continuous_actions" = Some (PyBool true)) as H4
      by by vm_compute.
    assert (c !! "max_steps" = Some (PyInt 200)) as H5 by by vm_compute.
    assert (c !! "scenario_config" = Some (PyDict {[ "device" := PyStr "cuda" ]}))
      as H6 by by vm_compute.
    apply (proj2 (env_creator_keywords c {[ "device" := PyStr "cuda" ]}
                    (Hfive c H1 H2 H3 H4 H5) H6) "device").
    + unfold fixed_keywords. repeat constructor.
    + by eexists.
Defined.

(** ** Restoring for an evaluation *)




Lemma subscript_Returns d key v :
  subscript d key = Returns v → ∃ m, d = PyDict m ∧ m !! key = Some v.
Proof.
  destruct d as [| | | | | | |m]; try done. cbn.
  destruct (m !! key) as [v'|] eqn:Hm; [|done]. intros [= <-]. by exists m.
Qed.


Section restoring_properties.
Context {X Path Trainer' Env' : Type}.
Context (params_path : Path → Path)
        (pickle_load : Path → P X pyval)
        (init_ray : pyval → P X unit)
        (MultiPPOTrainer : pyval → pyval → P X Trainer')
        (restore : Trainer' → Path → P X unit)
        (make_env : gmap string pyval → P X Env')
        (seed : Env' → pyval → P X unit).



End restoring_properties.

